(** * Trace hierarchy reconstruction: [buildTraceHierarchy]

    A shallow embedding of [buildTraceHierarchy] from
    [services/trace/types.ts] (google-cloud-mcp) and the properties of the
    span normaliser and the hierarchy builder.

    The function takes [spans : any[]], so the embedding starts with a
    model of the JavaScript values the function can be handed and of the
    built-ins it calls on them. *)

From Stdlib Require Import ZArith Lia Ascii String.
From stdpp Require Import gmap strings list pretty relations sorting.

Local Open Scope string_scope.
Local Open Scope list_scope.
Set Warnings "-register-all".

(** ** JavaScript values and built-ins *)

Module JS.

(** Raw spans are semi-structured data (the parsed body of a Cloud Trace
    response).  Modelled domain:
    - numbers are integers that a double holds exactly and prints in plain
      decimal (no fractions, no NaN or infinities as data);
    - strings are Rocq strings, one character per code unit;
    - an object is the list of its own enumerable properties in the order
      [Object.entries] lists them, keys pairwise distinct for a real object;
    - objects are plain data: none shadows [toString] or [valueOf], and no
      object occurs at two places of the input (so two object values are
      never the same reference). *)
Inductive val : Type :=
  | Undefined
  | Null
  | Bool (b : bool)
  | Num (z : Z)
  | Str (s : string)
  | Arr (elems : list val)
  | Obj (props : list (string * val)).

Inductive error : Type :=
  | TypeError (msg : string).

(** Result of running a piece of the program: a value, an exception, or
    (for the fuelled recursion only) not finished yet. *)
Inductive outcome (A : Type) : Type :=
  | Ok (a : A)
  | Throw (e : error)
  | OutOfFuel.
Arguments Ok {A} a.
Arguments Throw {A} e.
Arguments OutOfFuel {A}.

Definition bind {A B} (m : outcome A) (k : A -> outcome B) : outcome B :=
  match m with
  | Ok a => k a
  | Throw e => Throw e
  | OutOfFuel => OutOfFuel
  end.

Notation "'do' x <- m ; k" := (bind m (fun x => k))
  (at level 10, x name, m at level 100, k at level 200).

(** [ToBoolean]. *)
Definition ToBoolean (v : val) : bool :=
  match v with
  | Undefined | Null => false
  | Bool b => b
  | Num z => negb (z =? 0)%Z
  | Str s => negb (String.eqb s "")
  | Arr _ | Obj _ => true
  end.

(** [a || b]. *)
Definition or (a b : val) : val := if ToBoolean a then a else b.

Definition typeof (v : val) : string :=
  match v with
  | Undefined => "undefined"
  | Null | Arr _ | Obj _ => "object"
  | Bool _ => "boolean"
  | Num _ => "number"
  | Str _ => "string"
  end.

Definition isArray (v : val) : bool :=
  match v with Arr _ => true | _ => false end.

Definition nullish (v : val) : bool :=
  match v with Undefined | Null => true | _ => false end.

Fixpoint assoc (k : string) (l : list (string * val)) : val :=
  match l with
  | [] => Undefined
  | (k', v) :: l' => if String.eqb k' k then v else assoc k l'
  end.

(** [v?.[k]]: the property [k] of [v], [undefined] when [v] is nullish.
    The program only reads property names that are neither indices nor
    [length] nor inherited members, so on a primitive or an array the
    result is [undefined]. *)
Definition prop (v : val) (k : string) : val :=
  match v with
  | Obj l => assoc k l
  | _ => Undefined
  end.

(** [v[k]]: throws on [undefined] and [null]. *)
Definition get (v : val) (k : string) : outcome val :=
  if nullish v then Throw (TypeError "Cannot read properties of undefined")
  else Ok (prop v k).

(** Strict equality and the [SameValueZero] of [Map] keys coincide on the
    modelled domain; two objects or arrays are equal only when they are the
    same reference, which distinct places of the input never are. *)
Definition sameValueZero (a b : val) : bool :=
  match a, b with
  | Undefined, Undefined => true
  | Null, Null => true
  | Bool x, Bool y => Bool.eqb x y
  | Num x, Num y => (x =? y)%Z
  | Str x, Str y => String.eqb x y
  | _, _ => false
  end.

Definition strictEquals := sameValueZero.

Fixpoint join (sep : string) (l : list string) : string :=
  match l with
  | [] => ""
  | [s] => s
  | s :: l' => s +:+ sep +:+ join sep l'
  end.

(** [ToString] ([String(v)], template literals). *)
Fixpoint toString (v : val) : string :=
  match v with
  | Undefined => "undefined"
  | Null => "null"
  | Bool b => if b then "true" else "false"
  | Num z => pretty z
  | Str s => s
  | Arr l =>
      join ","
        ((fix elems (l : list val) : list string :=
            match l with
            | [] => []
            | x :: l' => (if nullish x then "" else toString x) :: elems l'
            end) l)
  | Obj _ => "[object Object]"
  end.

(** [Object.entries] on a value that is not nullish. *)
Definition entries (v : val) : list (string * val) :=
  match v with
  | Obj l => l
  | Arr l => imap (fun i x => (pretty i, x)) l
  | Str s =>
      imap (fun i c => (pretty i, Str (String c EmptyString)))
           (list_ascii_of_string s)
  | _ => []
  end.

Definition Object_entries (v : val) : outcome (list (string * val)) :=
  if nullish v then Throw (TypeError "Cannot convert undefined or null to object")
  else Ok (entries v).

Definition Object_keys (v : val) : outcome (list string) :=
  do es <- Object_entries v; Ok (es.*1).

(** [s.startsWith(p)], [s.substring(0, n)] and [s.length] as method calls
    on an arbitrary value: only a string has them. *)
Definition startsWith (v : val) (p : string) : outcome bool :=
  match v with
  | Str s => Ok (String.prefix p s)
  | _ => Throw (TypeError "startsWith is not a function")
  end.

Definition substring0 (v : val) (n : nat) : outcome string :=
  match v with
  | Str s => Ok (String.substring 0 n s)
  | _ => Throw (TypeError "substring is not a function")
  end.

(** *** Numeric conversions *)

(** [StrWhiteSpaceChar], the white space and line terminators that
    [parseInt] and [ToNumber] skip, among the code units below 256: TAB, LF,
    VT, FF, CR, SP and NBSP (U+00A0). *)
Definition is_space (c : ascii) : bool :=
  let n := nat_of_ascii c in
  (n =? 32)%nat || ((9 <=? n)%nat && (n <=? 13)%nat) || (n =? 160)%nat.

Definition digit_of (c : ascii) : option Z :=
  let n := nat_of_ascii c in
  if ((48 <=? n)%nat && (n <=? 57)%nat)%bool then Some (Z.of_nat (n - 48)) else None.

(** Reads the longest prefix of digits: [None] when there is none,
    otherwise the value read and the rest. *)
Fixpoint digits (acc : option Z) (l : list ascii) : option Z * list ascii :=
  match l with
  | [] => (acc, [])
  | c :: l' =>
      match digit_of c with
      | Some d => digits (Some (10 * default 0%Z acc + d)%Z) l'
      | None => (acc, l)
      end
  end.

Fixpoint trim_left (l : list ascii) : list ascii :=
  match l with
  | c :: l' => if is_space c then trim_left l' else l
  | [] => []
  end.

Definition signed (l : list ascii) : Z * list ascii :=
  match l with
  | c :: l' =>
      if (nat_of_ascii c =? 45)%nat then ((-1)%Z, l')
      else if (nat_of_ascii c =? 43)%nat then (1%Z, l')
      else (1%Z, l)
  | [] => (1%Z, [])
  end.

(** [parseInt(v, 10)]; [None] is NaN. *)
Definition parseInt10 (v : val) : option Z :=
  let '(sg, l) := signed (trim_left (list_ascii_of_string (toString v))) in
  match digits None l with
  | (Some n, _) => Some (sg * n)%Z
  | (None, _) => None
  end.

(** A number as [ToNumber] gives it: NaN, an infinity, or the double
    nearest to [m * 10^e], which is the exact value of a numeric literal
    (of an integer when [e = 0]).  The sign of a zero is not recorded:
    nothing in the program depends on it. *)
Inductive number : Type :=
  | NaN
  | Infinity (negative : bool)
  | Rounded (m e : Z).

(** The value of a digit of a hexadecimal literal. *)
Definition hex_value (c : ascii) : option Z :=
  let n := nat_of_ascii c in
  if ((48 <=? n)%nat && (n <=? 57)%nat)%bool then Some (Z.of_nat (n - 48))
  else if ((97 <=? n)%nat && (n <=? 102)%nat)%bool then Some (Z.of_nat (n - 87))
  else if ((65 <=? n)%nat && (n <=? 70)%nat)%bool then Some (Z.of_nat (n - 55))
  else None.

(** All of [l] read as digits of the radix: [None] when [l] is empty or
    holds another character. *)
Fixpoint radixDigits (radix : Z) (acc : option Z) (l : list ascii) : option Z :=
  match l with
  | [] => acc
  | c :: l' =>
      match hex_value c with
      | Some d =>
          if (d <? radix)%Z
          then radixDigits radix (Some (radix * default 0%Z acc + d)%Z) l'
          else None
      | None => None
      end
  end.

Definition nonDecimal (radix : Z) (l : list ascii) : number :=
  match radixDigits radix None l with
  | Some n => Rounded n 0
  | None => NaN
  end.

(** [StrUnsignedDecimalLiteral], all of [l]: [Infinity], or digits with an
    optional fraction and an optional exponent, with a digit before or
    after the point.  The digits of the integer part and of the fraction
    are read as one integer, and the exponent is lowered by the number of
    digits of the fraction. *)
Definition unsignedDecimal (sg : Z) (l : list ascii) : number :=
  if String.eqb (string_of_list_ascii l) "Infinity" then Infinity (sg <? 0)%Z
  else
    let '(whole, afterWhole) := digits None l in
    let '(mantissa, afterFraction) :=
      match afterWhole with
      | c :: fraction =>
          if (nat_of_ascii c =? 46)%nat then digits whole fraction
          else (whole, afterWhole)
      | [] => (whole, [])
      end in
    let fractionDigits :=
      match afterWhole with
      | c :: fraction =>
          if (nat_of_ascii c =? 46)%nat
          then Z.of_nat (length fraction - length afterFraction)
          else 0%Z
      | [] => 0%Z
      end in
    match mantissa with
    | None => NaN
    | Some m =>
        match afterFraction with
        | [] => Rounded (sg * m) (- fractionDigits)
        | c :: exponent =>
            if (nat_of_ascii c =? 101)%nat || (nat_of_ascii c =? 69)%nat then
              let '(esg, l') := signed exponent in
              match digits None l' with
              | (Some n, []) => Rounded (sg * m) (esg * n - fractionDigits)
              | _ => NaN
              end
            else NaN
        end
    end.

(** [StringToNumber]: the string without the white space around it is
    empty (which is [0]), or a binary, octal or hexadecimal integer
    literal, or a decimal literal with an optional sign; anything else is
    NaN. *)
Definition StringToNumber (s : string) : number :=
  match rev (trim_left (rev (trim_left (list_ascii_of_string s)))) with
  | [] => Rounded 0 0
  | c :: l =>
      let radixOf (x : ascii) : option Z :=
        let n := nat_of_ascii x in
        if (n =? 120)%nat || (n =? 88)%nat then Some 16%Z
        else if (n =? 111)%nat || (n =? 79)%nat then Some 8%Z
        else if (n =? 98)%nat || (n =? 66)%nat then Some 2%Z
        else None in
      match l with
      | x :: l' =>
          match (if (nat_of_ascii c =? 48)%nat then radixOf x else None) with
          | Some radix => nonDecimal radix l'
          | None => let '(sg, l1) := signed (c :: l) in unsignedDecimal sg l1
          end
      | [] => let '(sg, l1) := signed (c :: l) in unsignedDecimal sg l1
      end
  end.

Definition ToNumber (v : val) : number :=
  match v with
  | Undefined => NaN
  | Null => Rounded 0 0
  | Bool b => Rounded (if b then 1 else 0) 0
  | Num z => Rounded z 0
  | Str s => StringToNumber s
  | Arr _ | Obj _ => StringToNumber (toString v)
  end.

(** [0 < x] on numbers: false on NaN.  A positive literal at or below
    [2^-1075], half of the least positive double, rounds to zero. *)
Definition isPositive (x : number) : bool :=
  match x with
  | NaN => false
  | Infinity negative => negb negative
  | Rounded m e =>
      (0 <? m)%Z
      && (if (0 <=? e)%Z then true else (10 ^ (- e) <? m * 2 ^ 1075)%Z)
  end.

(** [v > 0]. *)
Definition gt0 (v : val) : bool := isPositive (ToNumber v).

(** *** [JSON.stringify] *)

Definition quote_char : ascii := ascii_of_nat 34.
Definition backslash : ascii := ascii_of_nat 92.

Definition hex_digit (n : nat) : ascii :=
  if (n <? 10)%nat then ascii_of_nat (48 + n) else ascii_of_nat (87 + n).

Definition escape_char (c : ascii) : list ascii :=
  let n := nat_of_ascii c in
  if (n =? 34)%nat then [backslash; quote_char]
  else if (n =? 92)%nat then [backslash; backslash]
  else if (n =? 8)%nat then [backslash; "b"%char]
  else if (n =? 9)%nat then [backslash; "t"%char]
  else if (n =? 10)%nat then [backslash; "n"%char]
  else if (n =? 12)%nat then [backslash; "f"%char]
  else if (n =? 13)%nat then [backslash; "r"%char]
  else if (n <? 32)%nat then
    [backslash; "u"%char; "0"%char; "0"%char; hex_digit (n / 16); hex_digit (n mod 16)]
  else [c].

Definition JSON_quote (s : string) : string :=
  string_of_list_ascii
    (quote_char :: concat (map escape_char (list_ascii_of_string s)) ++ [quote_char]).

(** [JSON.stringify(v)]; [None] is the [undefined] it returns for
    [undefined].  On data it does not throw. *)
Fixpoint JSON_stringify (v : val) : option string :=
  match v with
  | Undefined => None
  | Null => Some "null"
  | Bool b => Some (if b then "true" else "false")
  | Num z => Some (pretty z)
  | Str s => Some (JSON_quote s)
  | Arr l =>
      Some ("[" +:+ join ","
        ((fix elems (l : list val) : list string :=
            match l with
            | [] => []
            | x :: l' => default "null" (JSON_stringify x) :: elems l'
            end) l) +:+ "]")
  | Obj l =>
      Some ("{" +:+ join ","
        ((fix members (l : list (string * val)) : list string :=
            match l with
            | [] => []
            | (k, x) :: l' =>
                match JSON_stringify x with
                | Some s => (JSON_quote k +:+ ":" +:+ s) :: members l'
                | None => members l'
                end
            end) l) +:+ "}")
  end.

End JS.

Import JS.

(** ** Data model ([TraceStatus], [TraceSpan], [TraceData]) *)

Inductive TraceStatus : Type := OK | ERROR | UNSPECIFIED.

(** Spans are objects that the span map, [rootSpans], [allSpans] and the
    [childSpans] arrays all refer to, and the link pass mutates them in
    place.  A span is therefore referred to by its position in the array
    [traceSpans] (its identity), and the spans live in a store.

    The TypeScript interface declares the fields as strings, but nothing
    converts [spanId], [startTime], [endTime], [kind] or [parentSpanId], so
    at run time they hold whatever the raw span holds.  [parentSpanId] is
    only set when truthy.  [childSpans] is always initialised to [[]]. *)
Record TraceSpan : Type := mkTraceSpan {
  spanId : val;
  displayName : string;
  startTime : val;
  endTime : val;
  kind : val;
  status : TraceStatus;
  parentSpanId : option val;
  attributes : gmap string val;
  childSpans : list nat;
}.

Abbreviation Store := (list TraceSpan).

Record TraceData : Type := mkTraceData {
  traceId : string;
  projectId : string;
  rootSpans : list nat;
  allSpans : list nat;
}.

(** ** Span normalisation (the [spans.map] callback) *)

Definition UnknownSpan : string := "Unknown Span".

(** Lines 363-380: the name fields of the raw span. *)
Definition nameField (span : val) : val :=
  if ToBoolean (prop span "name") then prop span "name"
  else if ToBoolean (prop (prop span "displayName") "value")
  then prop (prop span "displayName") "value"
  else if String.eqb (typeof (prop span "displayName")) "string"
  then prop span "displayName"
  else Str UnknownSpan.

(** Lines 393-413: the well-known labels, [labels] being truthy. *)
Definition nameFromKnownLabels (labels : val) (displayName : string) : outcome string :=
  if ToBoolean (prop labels "/http/path") then
    let method := or (prop labels "/http/method") (Str "") in
    Ok (toString method +:+ " " +:+ toString (prop labels "/http/path"))
  else if ToBoolean (prop labels "/http/url") then
    Ok ("HTTP " +:+ toString (prop labels "/http/url"))
  else if ToBoolean (prop labels "/http/status_code") then
    Ok ("HTTP Status: " +:+ toString (prop labels "/http/status_code"))
  else if ToBoolean (prop labels "/component") then
    Ok ("Component: " +:+ toString (prop labels "/component"))
  else if ToBoolean (prop labels "/db/statement") then
    let dbSystem := or (prop labels "/db/system") (Str "DB") in
    do stmt <- substring0 (prop labels "/db/statement") 30;
    Ok (toString dbSystem +:+ ": " +:+ stmt +:+ "...")
  else if ToBoolean (prop labels "g.co/agent") then
    Ok ("Agent: " +:+ toString (prop labels "g.co/agent"))
  else if ToBoolean (prop labels "g.co/gae/app/module") then
    Ok ("GAE Module: " +:+ toString (prop labels "g.co/gae/app/module"))
  else if ToBoolean (prop labels "g.co/gae/app/version") then
    Ok ("GAE Version: " +:+ toString (prop labels "g.co/gae/app/version"))
  else if ToBoolean (prop labels "g.co/gce/instance_id") then
    Ok ("GCE Instance: " +:+ toString (prop labels "g.co/gce/instance_id"))
  else Ok displayName.

(** Lines 418-424: the filter of the descriptive labels. *)
Definition descriptive (e : string * val) : bool :=
  match e.2 with
  | Str value =>
      negb (String.prefix "/" e.1) && negb (String.prefix "g.co/" e.1)
      && (String.length value <? 50)%nat
  | _ => false
  end.

(** Lines 416-431. *)
Definition nameFromDescriptiveLabels (labels : val) (displayName : string) : string :=
  if String.eqb displayName UnknownSpan then
    match filter (fun e => descriptive e = true) (entries labels) with
    | (key, value) :: _ => key +:+ ": " +:+ toString value
    | [] => displayName
    end
  else displayName.

Definition possibleNameFields : list string :=
  ["operationName"; "description"; "type"; "method"; "rpcName"; "kind"].

(** The [for ... break] loop of lines 443-448. *)
Fixpoint firstNameField (span : val) (fields : list string) (displayName : string) : string :=
  match fields with
  | [] => displayName
  | field :: rest =>
      if ToBoolean (prop span field) && String.eqb (typeof (prop span field)) "string"
      then field +:+ ": " +:+ toString (prop span field)
      else firstNameField span rest displayName
  end.

(** Lines 435-449. *)
Definition nameFromAlternativeFields (span : val) (displayName : string) : string :=
  if String.eqb displayName UnknownSpan then
    let displayName :=
      if ToBoolean (prop span "operation") && ToBoolean (prop (prop span "operation") "name")
      then "Operation: " +:+ toString (prop (prop span "operation") "name")
      else displayName in
    firstNameField span possibleNameFields displayName
  else displayName.

(** Lines 363-455: the display name of a raw span that is not nullish,
    [spanId] being [span.spanId || '']. *)
Definition resolveDisplayName (span : val) (spanId : val) : outcome string :=
  let displayName := nameField span in
  do isPath <- startsWith displayName "/";
  let displayName := toString displayName in
  let displayName := if isPath then "HTTP " +:+ displayName else displayName in
  do displayName <-
    (if String.eqb displayName UnknownSpan then
       do displayName <-
         (if ToBoolean (prop span "labels") then
            do displayName <- nameFromKnownLabels (prop span "labels") displayName;
            Ok (nameFromDescriptiveLabels (prop span "labels") displayName)
          else Ok displayName);
       Ok (nameFromAlternativeFields span displayName)
     else Ok displayName);
  if String.eqb displayName UnknownSpan && ToBoolean spanId
  then Ok ("Unknown Span (ID: " +:+ toString spanId +:+ ")")
  else Ok displayName.

(** Lines 463-477. *)
Definition resolveKind (span : val) : val :=
  let kind :=
    if ToBoolean (prop span "kind") then prop span "kind"
    else if ToBoolean (prop span "spanKind") then prop span "spanKind"
    else Str "UNSPECIFIED" in
  if strictEquals kind (Str "UNSPECIFIED") && ToBoolean (prop span "labels") then
    if ToBoolean (prop (prop span "labels") "/span/kind")
    then prop (prop span "labels") "/span/kind"
    else if ToBoolean (prop (prop span "labels") "span.kind")
    then prop (prop span "labels") "span.kind"
    else kind
  else kind.

(** Lines 480-487: the explicit status field. *)
Definition statusFromField (span : val) : TraceStatus :=
  if ToBoolean (prop span "status") then
    if strictEquals (prop (prop span "status") "code") (Num 0) then OK
    else if gt0 (prop (prop span "status") "code") then ERROR
    else UNSPECIFIED
  else UNSPECIFIED.

(** Lines 491-500: the labels, [labels] being truthy. *)
Definition statusFromLabels (labels : val) : TraceStatus :=
  if ToBoolean (or (prop labels "/error/message") (prop labels "error")) then ERROR
  else if ToBoolean (prop labels "/http/status_code") then
    match parseInt10 (prop labels "/http/status_code") with
    | Some statusCode =>
        if (400 <=? statusCode)%Z then ERROR
        else if (200 <=? statusCode)%Z && (statusCode <? 400)%Z then OK
        else UNSPECIFIED
    | None => UNSPECIFIED
    end
  else UNSPECIFIED.

Definition TraceStatus_eqb (a b : TraceStatus) : bool :=
  match a, b with
  | OK, OK | ERROR, ERROR | UNSPECIFIED, UNSPECIFIED => true
  | _, _ => false
  end.

(** Lines 480-501. *)
Definition resolveStatus (span : val) : TraceStatus :=
  let status := statusFromField span in
  if TraceStatus_eqb status UNSPECIFIED && ToBoolean (prop span "labels")
  then statusFromLabels (prop span "labels")
  else status.

(** *** Attribute flattening (lines 503-559) *)

(** [attributes[key] = v] on the plain object [attributes]: it creates or
    overwrites the own property [key], except that assigning to
    [__proto__] never creates an own property. *)
Definition setAttr (key : string) (v : val) (attributes : gmap string val)
  : gmap string val :=
  if String.eqb key "__proto__" then attributes else <[key := v]> attributes.

(** Lines 514-521: the v1 label map. *)
Definition addLabel (attributes : gmap string val) (e : string * val)
  : gmap string val :=
  if nullish e.2 then attributes
  else setAttr e.1 (Str (toString e.2)) attributes.

(** Lines 524-532: the v2 attribute map; each value is a tagged union. *)
Definition attributeValue (value : val) : val :=
  or (prop value "stringValue")
     (Str (toString (or (or (prop value "intValue") (prop value "boolValue")) (Str "")))).

Definition addAttribute (attributes : gmap string val) (e : string * val)
  : gmap string val :=
  if nullish e.2 then attributes
  else setAttr e.1 (attributeValue e.2) attributes.

Definition standardFields : list string :=
  ["spanId"; "name"; "displayName"; "startTime"; "endTime"; "parentSpanId";
   "kind"; "status"; "labels"; "attributes"; "childSpans"].

Definition includes (l : list string) (k : string) : bool :=
  existsb (String.eqb k) l.

(** Lines 548-556: the [try] block, [value] being an object that is not an
    array.  [JSON.stringify] returning [undefined] or throwing ends in the
    [catch] branch. *)
Definition flattenObject (value : val) : string :=
  match JSON_stringify value with
  | Some json =>
      let short := String.substring 0 100 json in
      if (100 <? String.length json)%nat then short +:+ "..." else short
  | None => "[Complex Object]"
  end.

(** Lines 535-559: one iteration over the entries of the raw span. *)
Definition addRawField (attributes : gmap string val) (e : string * val)
  : gmap string val :=
  if includes standardFields e.1 then attributes
  else if nullish e.2 then attributes
  else if negb (String.eqb (typeof e.2) "object")
  then setAttr ("raw." +:+ e.1) (Str (toString e.2)) attributes
  else if negb (isArray e.2)
  then setAttr ("raw." +:+ e.1) (Str (flattenObject e.2)) attributes
  else attributes.

Definition labelAttributes (span : val) : gmap string val :=
  if ToBoolean (prop span "labels")
  then foldl addLabel ∅ (entries (prop span "labels"))
  else ∅.

Definition mapAttributes (span : val) (attributes : gmap string val)
  : gmap string val :=
  if ToBoolean (prop span "attributes")
     && ToBoolean (prop (prop span "attributes") "attributeMap")
  then foldl addAttribute attributes
         (entries (prop (prop span "attributes") "attributeMap"))
  else attributes.

Definition rawAttributes (span : val) (attributes : gmap string val)
  : gmap string val :=
  foldl addRawField attributes (entries span).

Definition flattenAttributes (span : val) : gmap string val :=
  rawAttributes span (mapAttributes span (labelAttributes span)).

(** *** One raw span (lines 356-587, without the span map) *)

Definition convertSpan (span : val) : outcome TraceSpan :=
  do rawId <- get span "spanId";
  let spanId := or rawId (Str "") in
  do displayName <- resolveDisplayName span spanId;
  let startTime := or (prop span "startTime") (Str "") in
  let endTime := or (prop span "endTime") (Str "") in
  let parentSpanId := or (prop span "parentSpanId") (Str "") in
  Ok {| spanId := spanId;
        displayName := displayName;
        startTime := startTime;
        endTime := endTime;
        kind := resolveKind span;
        status := resolveStatus span;
        parentSpanId := if ToBoolean parentSpanId then Some parentSpanId else None;
        attributes := flattenAttributes span;
        childSpans := [] |}.

(** ** The span map *)

(** [spanMap] is only written with [set] and read with [get]; a later
    [set] on the same key shadows the earlier one. *)
Definition SpanMap : Type := list (val * nat).

Definition Map_set (k : val) (ref : nat) (m : SpanMap) : SpanMap := (k, ref) :: m.

Fixpoint Map_get (k : val) (m : SpanMap) : option nat :=
  match m with
  | [] => None
  | (k', ref) :: m' => if sameValueZero k' k then Some ref else Map_get k m'
  end.

(** [spans.map(...)]: converts the spans in order, [index] being the
    position of the first of [spans], and records each under its id. *)
Fixpoint convertSpans (spans : list val) (index : nat) (spanMap : SpanMap)
  : outcome (list TraceSpan * SpanMap) :=
  match spans with
  | [] => Ok ([], spanMap)
  | span :: rest =>
      do traceSpan <- convertSpan span;
      do r <- convertSpans rest (S index) (Map_set (spanId traceSpan) index spanMap);
      Ok (traceSpan :: r.1, r.2)
  end.

(** ** The link pass (lines 590-620) *)

(** The state of the loop: the spans, [rootSpans], and two counters that the
    program does not have: the spans visited so far, in order, and the number
    of [spanMap.get] calls made. *)
Record LinkState : Type := mkLinkState {
  ls_store : Store;
  ls_roots : list nat;
  ls_visited : list nat;
  ls_lookups : nat;
}.

(** The span [p] with [childSpans] replaced. *)
Definition setChildSpans (cs : list nat) (p : TraceSpan) : TraceSpan :=
  {| spanId := spanId p; displayName := displayName p;
     startTime := startTime p; endTime := endTime p;
     kind := kind p; status := status p;
     parentSpanId := parentSpanId p;
     attributes := attributes p;
     childSpans := cs |}.

(** [parentSpan.childSpans.push(span)], on the span that [parent] refers to. *)
Definition pushChild (parent child : nat) (st : Store) : Store :=
  match st !! parent with
  | Some p => <[parent := setChildSpans (childSpans p ++ [child]) p]> st
  | None => st
  end.

(** One iteration of [for (const span of traceSpans)].  The test
    [!parentSpan.childSpans] is never true ([childSpans] is always an array),
    so the branch that re-initialises it is left out. *)
Definition linkStep (spanMap : SpanMap) (s : LinkState) (span : nat) : LinkState :=
  match ls_store s !! span ≫= parentSpanId with
  | Some parentId =>
      match Map_get parentId spanMap with
      | Some parentSpan =>
          {| ls_store := pushChild parentSpan span (ls_store s);
             ls_roots := ls_roots s;
             ls_visited := ls_visited s ++ [span];
             ls_lookups := S (ls_lookups s) |}
      | None =>
          {| ls_store := ls_store s;
             ls_roots := ls_roots s ++ [span];
             ls_visited := ls_visited s ++ [span];
             ls_lookups := S (ls_lookups s) |}
      end
  | None =>
      {| ls_store := ls_store s;
         ls_roots := ls_roots s ++ [span];
         ls_visited := ls_visited s ++ [span];
         ls_lookups := ls_lookups s |}
  end.

Definition linkPass (spanMap : SpanMap) (traceSpans : list TraceSpan) : LinkState :=
  foldl (linkStep spanMap)
        {| ls_store := traceSpans; ls_roots := []; ls_visited := []; ls_lookups := 0 |}
        (seq 0 (length traceSpans)).

(** ** The sort pass (lines 622-630) *)

(** [Array.prototype.sort] with a comparator.  The comparator's result is a
    number or NaN ([None]); [sort] reads NaN as [+0].  ECMAScript requires a
    stable sort and fixes the result when the comparator is consistent on
    the elements; that result is what the stable insertion sort below gives
    (an element moves past its right neighbours only while it compares
    strictly greater).  When the comparator is not consistent, as with
    start times of which some parse and some do not, the order is
    implementation-defined and the engine may give another one than the
    model: nothing is stated about that case but what holds of every
    rearrangement, and what a run of the engine's algorithm shows. *)
Definition sortCompare {A} (compareFn : A -> A -> option Z) (a b : A) : Z :=
  default 0%Z (compareFn a b).

Fixpoint insertSorted {A} (compareFn : A -> A -> option Z) (x : A) (l : list A) : list A :=
  match l with
  | [] => [x]
  | y :: l' =>
      if (0 <? sortCompare compareFn x y)%Z
      then y :: insertSorted compareFn x l'
      else x :: y :: l'
  end.

Definition Array_sort {A} (compareFn : A -> A -> option Z) (l : list A) : list A :=
  foldr (insertSorted compareFn) [] l.

Definition deref (st : Store) (ref : nat) : option TraceSpan := st !! ref.

Definition childSpansOf (st : Store) (ref : nat) : list nat :=
  default [] (childSpans <$> deref st ref).

Definition startTimeOf (st : Store) (ref : nat) : val :=
  default Undefined (startTime <$> deref st ref).

(** [countDescendants] (lines 639-648) adds the number of children of [span]
    to [totalDescendants] and calls itself on each child.  The recursion is
    on the span graph, not on a structure that gets smaller, so the model
    takes fuel: one unit per nested call. *)
Fixpoint countDescendants (fuel : nat) (st : Store) (span : nat) : outcome nat :=
  match fuel with
  | 0 => OutOfFuel
  | S fuel' =>
      foldl (fun total child =>
               do n <- total;
               do k <- countDescendants fuel' st child;
               Ok (n + k))
            (Ok (length (childSpansOf st span)))
            (childSpansOf st span)
  end.

(** The debug loop over [rootSpans] (lines 634-650); its messages are
    dropped, the numbers it computes are kept. *)
Fixpoint logRoots (fuel : nat) (st : Store) (roots : list nat) : outcome (list nat) :=
  match roots with
  | [] => Ok []
  | rootSpan :: rest =>
      do totalDescendants <- countDescendants fuel st rootSpan;
      do totals <- logRoots fuel st rest;
      Ok (totalDescendants :: totals)
  end.

Section Builder.

(** [Date.parse] on strings is implementation-defined outside the ISO
    format, so it is a parameter: the time value in milliseconds, or [None]
    for NaN (an invalid date). *)
Variable Date_parse : string -> option Z.

(** [new Date(v).getTime()].  A string is parsed, and an object is first
    turned into a string; [undefined] is NaN; [null], a boolean and a number
    are time values, clipped to the range of dates. *)
Definition Date_getTime (v : val) : option Z :=
  match v with
  | Str s => Date_parse s
  | Undefined => None
  | Arr _ | Obj _ => Date_parse (toString v)
  | Null => Some 0%Z
  | Bool b => Some (if b then 1 else 0)%Z
  | Num t => if (Z.abs t <=? 8640000000000000)%Z then Some t else None
  end.

(** The comparator of line 627. *)
Definition compareStartTime (st : Store) (a b : nat) : option Z :=
  match Date_getTime (startTimeOf st a), Date_getTime (startTimeOf st b) with
  | Some ta, Some tb => Some (ta - tb)%Z
  | _, _ => None
  end.

Definition sortStep (st : Store) (span : nat) : Store :=
  match deref st span with
  | Some p =>
      if (0 <? length (childSpans p))%nat
      then <[span := setChildSpans (Array_sort (compareStartTime st) (childSpans p)) p]> st
      else st
  | None => st
  end.

Definition sortPass (st : Store) : Store :=
  foldl sortStep st (seq 0 (length st)).

(** ** [buildTraceHierarchy] *)

(** Lines 337-658.  The [logger.debug] calls are dropped, except that their
    arguments are still evaluated where that can throw ([Object.keys] of the
    first span) or fail to return ([countDescendants]). *)
Definition buildTraceHierarchy (fuel : nat) (projectId traceId : string)
    (spans : list val) : outcome (Store * TraceData) :=
  do _ <- match spans with
          | first :: _ => Object_keys first
          | [] => Ok []
          end;
  do r <- convertSpans spans 0 [];
  let traceSpans := r.1 in
  let spanMap := r.2 in
  let linked := linkPass spanMap traceSpans in
  let st := sortPass (ls_store linked) in
  do _ <- logRoots fuel st (ls_roots linked);
  Ok (st, {| traceId := traceId;
             projectId := projectId;
             rootSpans := ls_roots linked;
             allSpans := seq 0 (length traceSpans) |}).

End Builder.

(** *** A [Date.parse] for the concrete runs *)

Definition two_digits (a b : ascii) : option Z :=
  match digit_of a, digit_of b with
  | Some x, Some y => Some (10 * x + y)%Z
  | _, _ => None
  end.

(** Days from 1970-01-01 to the given civil date. *)
Definition days_from_civil (y m d : Z) : Z :=
  let y' := (if m <=? 2 then y - 1 else y)%Z in
  let era := (y' / 400)%Z in
  let yoe := (y' - era * 400)%Z in
  let mp := ((m + 9) mod 12)%Z in
  let doy := ((153 * mp + 2) / 5 + d - 1)%Z in
  let doe := (yoe * 365 + yoe / 4 - yoe / 100 + doy)%Z in
  (era * 146097 + doe - 719468)%Z.

(** The UTC timestamps of the Cloud Trace v1 API, [YYYY-MM-DDThh:mm:ssZ];
    every other string is an invalid date. *)
Definition Date_parse_utc (s : string) : option Z :=
  match list_ascii_of_string s with
  | [y1; y2; y3; y4; d1; m1; m2; d2; a1; a2; t; h1; h2; c1; n1; n2; c2; s1; s2; z] =>
      if (nat_of_ascii d1 =? 45)%nat && (nat_of_ascii d2 =? 45)%nat
         && (nat_of_ascii t =? 84)%nat && (nat_of_ascii c1 =? 58)%nat
         && (nat_of_ascii c2 =? 58)%nat && (nat_of_ascii z =? 90)%nat
      then
        match two_digits y1 y2, two_digits y3 y4, two_digits m1 m2,
              two_digits a1 a2, two_digits h1 h2, two_digits n1 n2,
              two_digits s1 s2 with
        | Some yh, Some yl, Some mo, Some da, Some ho, Some mi, Some se =>
            if (1 <=? mo)%Z && (mo <=? 12)%Z && (1 <=? da)%Z && (da <=? 31)%Z
               && (ho <? 24)%Z && (mi <? 60)%Z && (se <? 60)%Z
            then Some ((((days_from_civil (100 * yh + yl) mo da * 24 + ho) * 60 + mi)
                        * 60 + se) * 1000)%Z
            else None
        | _, _, _, _, _, _, _ => None
        end
      else None
  | _ => None
  end.

(** ** Notions used to state the properties *)

(** The span map that [convertSpans] builds, as a function of the converted
    spans: each span recorded under its [spanId], in order. *)
Fixpoint indexSpans (traceSpans : list TraceSpan) (index : nat) (m : SpanMap) : SpanMap :=
  match traceSpans with
  | [] => m
  | t :: rest => indexSpans rest (S index) (Map_set (spanId t) index m)
  end.

(** The span that the link pass attaches span [i] to: the one the span map
    holds for [i]'s [parentSpanId]. *)
Definition parentOf (st : Store) (i : nat) : option nat :=
  match st !! i ≫= parentSpanId with
  | Some parentId => Map_get parentId (indexSpans st 0 [])
  | None => None
  end.

(** [child st p c]: [c] is listed in [p.childSpans]; [descendant] is its
    transitive closure. *)
Definition child (st : Store) (p c : nat) : Prop := c ∈ childSpansOf st p.

Definition descendant (st : Store) : nat -> nat -> Prop := tc (child st).

(** [underRoots st roots i]: [i] is one of [roots] or a descendant of one. *)
Definition underRoots (st : Store) (roots : list nat) (i : nat) : Prop :=
  ∃ r, r ∈ roots ∧ rtc (child st) r i.

(** Following the parent of [i] upwards ends, within [fuel] steps, at a span
    that has none. *)
Fixpoint reachesRoot (fuel : nat) (st : Store) (i : nat) : bool :=
  match fuel with
  | 0 => false
  | S fuel' =>
      match parentOf st i with
      | None => true
      | Some p => reachesRoot fuel' st p
      end
  end.

(** The parent references are acyclic: every span's chain of parents ends. *)
Definition acyclicParents (st : Store) : bool :=
  forallb (reachesRoot (length st) st) (seq 0 (length st)).

Fixpoint concatM {A B} (g : A -> outcome (list B)) (l : list A) : outcome (list B) :=
  match l with
  | [] => Ok []
  | x :: rest => do a <- g x; do b <- concatM g rest; Ok (a ++ b)
  end.

(** The spans of the tree below [span], [span] first, children in order. *)
Fixpoint treeSpans (fuel : nat) (st : Store) (span : nat) : outcome (list nat) :=
  match fuel with
  | 0 => OutOfFuel
  | S fuel' =>
      do below <- concatM (treeSpans fuel' st) (childSpansOf st span);
      Ok (span :: below)
  end.

(** [rootSpans] together with all their descendants. *)
Definition forestSpans (fuel : nat) (st : Store) (roots : list nat) : outcome (list nat) :=
  concatM (treeSpans fuel st) roots.

(** What the link pass establishes and the sort pass keeps: [roots] lists,
    once each, the spans that have no parent, and [p.childSpans] lists, once
    each, the spans whose parent is [p]. *)
Definition linked (st : Store) (roots : list nat) : Prop :=
  NoDup roots
  ∧ (∀ i, i ∈ roots ↔ i < length st ∧ parentOf st i = None)
  ∧ (∀ p, NoDup (childSpansOf st p))
  ∧ (∀ p c, c ∈ childSpansOf st p ↔ p < length st ∧ c < length st ∧ parentOf st c = Some p).

(** The chain of ancestors of a span under the roots, nearest first. *)
Inductive ancestors (st : Store) (roots : list nat) : nat -> list nat -> Prop :=
  | anc_root r : r ∈ roots -> ancestors st roots r []
  | anc_child p c l : ancestors st roots p l -> child st p c -> ancestors st roots c (p :: l).

(** What one entry of a flattening source writes: the key and the value, or
    nothing. *)
Definition labelWrite (e : string * val) : option (string * val) :=
  if nullish e.2 || String.eqb e.1 "__proto__" then None
  else Some (e.1, Str (toString e.2)).

Definition attributeWrite (e : string * val) : option (string * val) :=
  if nullish e.2 || String.eqb e.1 "__proto__" then None
  else Some (e.1, attributeValue e.2).

Definition rawFieldWrite (e : string * val) : option (string * val) :=
  if includes standardFields e.1 || nullish e.2 || isArray e.2 then None
  else Some ("raw." +:+ e.1,
             Str (if String.eqb (typeof e.2) "object" then flattenObject e.2
                  else toString e.2)).

Definition applyWrite (w : option (string * val)) (m : gmap string val) : gmap string val :=
  match w with
  | Some (k, v) => <[k := v]> m
  | None => m
  end.

(** The timestamps of all of [l] parse, or none does. *)
Definition allParsable (Date_parse : string -> option Z) (st : Store) (l : list nat) : Prop :=
  Forall (fun c => is_Some (Date_getTime Date_parse (startTimeOf st c))) l.

Definition noneParsable (Date_parse : string -> option Z) (st : Store) (l : list nat) : Prop :=
  Forall (fun c => Date_getTime Date_parse (startTimeOf st c) = None) l.

(** [l] is in non-decreasing order of [startTime]. *)
Definition sortedByStart (Date_parse : string -> option Z) (st : Store) (l : list nat) : Prop :=
  ∀ i j a b ta tb,
    i < j -> l !! i = Some a -> l !! j = Some b ->
    Date_getTime Date_parse (startTimeOf st a) = Some ta ->
    Date_getTime Date_parse (startTimeOf st b) = Some tb ->
    (ta <= tb)%Z.

(** Two stores hold the same spans up to their [childSpans]. *)
Definition eraseChildren (t : TraceSpan) : TraceSpan := setChildSpans [] t.

Definition sameSpans (st st' : Store) : Prop :=
  eraseChildren <$> st = eraseChildren <$> st'.

(** The state of the link loop after the first [k] spans. *)
Definition linkPrefix (spanMap : SpanMap) (traceSpans : list TraceSpan) (k : nat) : LinkState :=
  foldl (linkStep spanMap)
        {| ls_store := traceSpans; ls_roots := []; ls_visited := []; ls_lookups := 0 |}
        (seq 0 k).

(** The store after the sort loop has handled the first [k] spans. *)
Definition sortPrefix (Date_parse : string -> option Z) (st : Store) (k : nat) : Store :=
  foldl (sortStep Date_parse) st (seq 0 k).

(** Inputs for the concrete runs. *)
Definition exampleTrace : list val :=
  [Obj [("spanId", Str "root"); ("name", Str "GET /orders")];
   Obj [("spanId", Str "late"); ("parentSpanId", Str "root");
        ("startTime", Str "2024-01-01T00:00:02Z")];
   Obj [("spanId", Str "early"); ("parentSpanId", Str "root");
        ("startTime", Str "2024-01-01T00:00:01Z")];
   Obj [("spanId", Str "u1"); ("parentSpanId", Str "late"); ("startTime", Str "soon")];
   Obj [("spanId", Str "u2"); ("parentSpanId", Str "late"); ("startTime", Str "later")];
   Obj [("spanId", Str "orphan"); ("parentSpanId", Str "missing")]].

Definition cyclicTrace : list val :=
  [Obj [("spanId", Str "a"); ("parentSpanId", Str "b")];
   Obj [("spanId", Str "b"); ("parentSpanId", Str "a")];
   Obj [("spanId", Str "c")];
   Obj [("spanId", Str "d"); ("parentSpanId", Str "c")]].

(** A span with three children, the second with a start time that is not a
    date. *)
Definition mixedTrace : list val :=
  [Obj [("spanId", Str "p")];
   Obj [("spanId", Str "k1"); ("parentSpanId", Str "p");
        ("startTime", Str "2024-01-01T00:00:02Z")];
   Obj [("spanId", Str "k2"); ("parentSpanId", Str "p"); ("startTime", Str "soon")];
   Obj [("spanId", Str "k3"); ("parentSpanId", Str "p");
        ("startTime", Str "2024-01-01T00:00:01Z")]].

(** * Further functions of the trace service

    The rest of [types.ts]: [extractTraceIdFromLog], [calculateDuration]
    and the two renderers.  Modelling choices beyond those above:
    - the numbers of [calculateDuration] are doubles, and their arithmetic
      is modelled exactly: the difference of two time values, the quotients
      and [toFixed(2)] round as IEEE 754 and ECMAScript say;
    - [Object.entries(span.attributes)] depends on the order in which the
      attributes were written, which the finite map does not record: the
      renderers take it as a parameter;
    - the three status marks are characters outside ASCII and stand in the
      strings as their UTF-8 bytes;
    - [getTraceClient] starts the trace agent and is not modelled. *)

(** A trace where two spans share an id. *)
Definition duplicateIdTrace : list val :=
  [Obj [("spanId", Str "dup"); ("name", Str "first")];
   Obj [("spanId", Str "dup"); ("name", Str "second")];
   Obj [("spanId", Str "kid"); ("parentSpanId", Str "dup")]].

(** ** [extractTraceIdFromLog] (lines 666-701) *)

(** The regular expression [/traces\/([a-f0-9]+)$/i].  Under the [i] flag
    (without [u]) a pattern character matches its two ASCII cases and
    nothing else; without the [m] flag [$] is the end of the string. *)
Definition lowerCase (c : ascii) : ascii :=
  let n := nat_of_ascii c in
  if ((65 <=? n) && (n <=? 90))%nat then ascii_of_nat (n + 32) else c.

(** [[a-f0-9]] under the [i] flag. *)
Definition isHexDigit (c : ascii) : bool :=
  let n := nat_of_ascii (lowerCase c) in
  ((48 <=? n) && (n <=? 57) || (97 <=? n) && (n <=? 102))%nat.

(** A literal pattern at the start of [l]: what follows it. *)
Fixpoint matchLiteral (pat l : list ascii) : option (list ascii) :=
  match pat, l with
  | [], _ => Some l
  | p :: pat', c :: l' =>
      if Ascii.eqb (lowerCase c) p then matchLiteral pat' l' else None
  | _ :: _, [] => None
  end.

(** The pattern tried at the start of [l]: the capture group when it
    matches.  The group is greedy and [$] follows it, so it is the whole
    rest, which has to be one hex digit or more. *)
Definition matchTracesAt (l : list ascii) : option (list ascii) :=
  match matchLiteral (list_ascii_of_string "traces/") l with
  | Some (c :: rest) =>
      if forallb isHexDigit (c :: rest) then Some (c :: rest) else None
  | _ => None
  end.

(** The first position of [l] where the pattern matches. *)
Fixpoint searchTraces (l : list ascii) : option (list ascii) :=
  match matchTracesAt l with
  | Some id => Some id
  | None =>
      match l with
      | [] => None
      | _ :: l' => searchTraces l'
      end
  end.

(** [v.match(/traces\/([a-f0-9]+)$/i)] and the test [match && match[1]]
    after it: the capture group ([None] when there is no match).  Only a
    string has the method. *)
Definition matchTraceId (v : val) : outcome (option string) :=
  match v with
  | Str s => Ok (string_of_list_ascii <$> searchTraces (list_ascii_of_string s))
  | _ => Throw (TypeError "match is not a function")
  end.

Definition traceLabelKey : string := "logging.googleapis.com/trace".

Definition extractTraceIdFromLog (logEntry : val) : outcome val :=
  do trace <- get logEntry "trace";
  do found <- (if ToBoolean trace then matchTraceId trace else Ok None);
  match found with
  | Some id => Ok (Str id)
  | None =>
      let labels := prop logEntry "labels" in
      let traceLabel := prop labels traceLabelKey in
      do found <- (if ToBoolean labels && ToBoolean traceLabel
                   then matchTraceId traceLabel else Ok None);
      match found with
      | Some id => Ok (Str id)
      | None =>
          let jsonPayload := prop logEntry "jsonPayload" in
          if ToBoolean jsonPayload then
            if ToBoolean (prop jsonPayload "traceId")
            then Ok (prop jsonPayload "traceId")
            else
              let tracePayload := prop jsonPayload traceLabelKey in
              do found <- (if ToBoolean tracePayload
                           then matchTraceId tracePayload else Ok None);
              match found with
              | Some id => Ok (Str id)
              | None => Ok Undefined
              end
          else Ok Undefined
      end
  end.

(** The check the [get-trace] tool makes on a trace id before it asks the
    API, [traceId.match(/^[a-f0-9]+$/i)]: one hex digit or more, nothing
    else. *)
Definition isTraceId (s : string) : bool :=
  match list_ascii_of_string s with
  | [] => false
  | l => forallb isHexDigit l
  end.

(** ** [calculateDuration] (lines 313-327) *)

(** Arithmetic on doubles, exactly.  A positive finite double is
    [mant * 2^expo] with a significand of 53 bits; the magnitudes that
    occur are far from the subnormal and the overflow range. *)

(** Numerator and denominator of [a / b / 2^e]. *)
Definition scaled (a b e : Z) : Z * Z :=
  if (0 <=? e)%Z then (a, b * 2 ^ e)%Z else (a * 2 ^ (- e), b)%Z.

(** The double nearest to the rational [a / b], for [0 < a] and [0 < b],
    ties to the even significand: the pair [(mant, expo)]. *)
Definition roundToDouble (a b : Z) : Z * Z :=
  let e0 := (Z.log2 a - Z.log2 b - 52)%Z in
  let '(n0, d0) := scaled a b e0 in
  let e := (if n0 / d0 <? 2 ^ 52 then e0 - 1 else e0)%Z in
  let '(n, d) := scaled a b e in
  let q := (n / d)%Z in
  let r := (n mod d)%Z in
  ((if (d <? 2 * r) || ((d =? 2 * r) && Z.odd q) then q + 1 else q)%Z, e).

(** [a / b] on doubles that hold the integers [0 <= a] and [0 < b]. *)
Definition divide (a b : Z) : Z * Z :=
  if (a =? 0)%Z then (0%Z, 0%Z) else roundToDouble a b.

(** [Math.floor] of a double that is not negative. *)
Definition Math_floor (x : Z * Z) : Z :=
  let '(m, e) := x in
  if (0 <=? e)%Z then (m * 2 ^ e)%Z else (m / 2 ^ (- e))%Z.

(** The double that the subtraction of two time values gives: their
    difference, rounded when it takes more than 53 bits. *)
Definition subtract (a b : Z) : Z :=
  let d := (a - b)%Z in
  if (d =? 0)%Z then 0%Z
  else (Z.sgn d * Math_floor (roundToDouble (Z.abs d) 1))%Z.

(** [x.toFixed(2)] for a double [0 <= x < 10^21]: the integer [n] with
    [n / 100] nearest to [x], the larger one of two, then its digits with
    the point before the last two. *)
Definition hundredths (x : Z * Z) : Z :=
  let '(m, e) := x in
  if (0 <=? e)%Z then (100 * m * 2 ^ e)%Z
  else ((200 * m + 2 ^ (- e)) / 2 ^ (1 - e))%Z.

Definition showHundredths (n : Z) : string :=
  pretty (n / 100)%Z +:+ "."
  +:+ (if (n mod 100 <? 10)%Z then "0" else "") +:+ pretty (n mod 100)%Z.

Definition toFixed2 (x : Z * Z) : string := showHundredths (hundredths x).

Section Duration.

Variable Date_parse : string -> option Z.

(** [Date_parse] gives time values, at most 8.64e15 in magnitude, so every
    number printed here is below 10^21 and prints in plain decimal. *)
Definition calculateDuration (startTime endTime : val) : string :=
  match Date_getTime Date_parse startTime, Date_getTime Date_parse endTime with
  | Some start, Some end_ =>
      let durationMs := subtract end_ start in
      if (durationMs <? 1000)%Z then pretty durationMs +:+ "ms"
      else if (durationMs <? 60000)%Z
      then toFixed2 (divide durationMs 1000) +:+ "s"
      else
        let minutes := Math_floor (divide durationMs 60000) in
        let seconds := toFixed2 (divide (durationMs mod 60000) 1000) in
        pretty minutes +:+ "m " +:+ seconds +:+ "s"
  | _, _ => "NaNm NaNs"
  end.

End Duration.

(** Notions for the error behaviour of [extractTraceIdFromLog]: a field
    that is truthy and not a string, and a field in which the pattern
    finds a trace id. *)
Definition notAString (v : val) : bool :=
  ToBoolean v && negb (String.eqb (typeof v) "string").

Definition hasTraceId (v : val) : bool :=
  match matchTraceId v with
  | Ok (Some _) => true
  | _ => false
  end.

(** A string that is not empty and does not start with the [N] of [NaN]. *)
Definition startsLikeANumber (s : string) : Prop :=
  match s with
  | String c _ => c ≠ "N"%char
  | EmptyString => False
  end.

(** ** The renderers ([formatTraceData], lines 98-149, and
    [formatSpanHierarchy], lines 158-304) *)

(** [formatTraceData] can throw a [RangeError] (from [toISOString]), which
    the builder cannot. *)
Inductive exception : Type :=
  | Type_error (e : error)
  | RangeError (msg : string).

Inductive completion (A : Type) : Type :=
  | Return (a : A)
  | Raise (e : exception)
  | Unfinished.
Arguments Return {A} a.
Arguments Raise {A} e.
Arguments Unfinished {A}.

Definition complete {A} (m : outcome A) : completion A :=
  match m with
  | Ok a => Return a
  | Throw e => Raise (Type_error e)
  | OutOfFuel => Unfinished
  end.

Definition andThen {A B} (m : completion A) (k : A -> completion B) : completion B :=
  match m with
  | Return a => k a
  | Raise e => Raise e
  | Unfinished => Unfinished
  end.

Definition newline : string := String (ascii_of_nat 10) EmptyString.

(** [s.repeat(n)], [s.includes(needle)], [s.replace(c, by)] with a string
    pattern (the first occurrence only) and [s.padStart(n, '0')]. *)
Fixpoint repeatString (s : string) (n : nat) : string :=
  match n with
  | 0 => ""
  | S n' => s +:+ repeatString s n'
  end.

Fixpoint includesString (needle s : string) : bool :=
  String.prefix needle s
  || match s with
     | String _ s' => includesString needle s'
     | EmptyString => false
     end.

Fixpoint replaceFirst (c : ascii) (replacement s : string) : string :=
  match s with
  | EmptyString => EmptyString
  | String a s' =>
      if Ascii.eqb a c then replacement +:+ s'
      else String a (replaceFirst c replacement s')
  end.

Definition padStart (n : nat) (s : string) : string :=
  repeatString "0" (n - String.length s) +:+ s.

(** The civil date of a day number (days since 1970-01-01). *)
Definition civil_from_days (day : Z) : Z * Z * Z :=
  let z := (day + 719468)%Z in
  let era := (z / 146097)%Z in
  let doe := (z - era * 146097)%Z in
  let yoe := ((doe - doe / 1460 + doe / 36524 - doe / 146096) / 365)%Z in
  let doy := (doe - (365 * yoe + yoe / 4 - yoe / 100))%Z in
  let mp := ((5 * doy + 2) / 153)%Z in
  let d := (doy - (153 * mp + 2) / 5 + 1)%Z in
  let m := (if mp <? 10 then mp + 3 else mp - 9)%Z in
  ((if m <=? 2 then yoe + era * 400 + 1 else yoe + era * 400)%Z, m, d).

(** [date.toISOString()] for a valid date with time value [t]. *)
Definition Date_toISOString (t : Z) : string :=
  let ms := (t mod 86400000)%Z in
  let '(y, m, d) := civil_from_days (t / 86400000) in
  let year :=
    if (0 <=? y)%Z && (y <=? 9999)%Z then padStart 4 (pretty y)
    else (if (y <? 0)%Z then "-" else "+") +:+ padStart 6 (pretty (Z.abs y)) in
  year +:+ "-" +:+ padStart 2 (pretty m) +:+ "-" +:+ padStart 2 (pretty d)
  +:+ "T" +:+ padStart 2 (pretty (ms / 3600000)%Z)
  +:+ ":" +:+ padStart 2 (pretty (ms / 60000 mod 60)%Z)
  +:+ ":" +:+ padStart 2 (pretty (ms / 1000 mod 60)%Z)
  +:+ "." +:+ padStart 3 (pretty (ms mod 1000)%Z) +:+ "Z".

(** [new Date(v).toISOString()]: a [RangeError] on an invalid date. *)
Definition toISOString (time : option Z) : completion string :=
  match time with
  | Some t => Return (Date_toISOString t)
  | None => Raise (RangeError "Invalid time value")
  end.

(** The [formatDate] of line 208. *)
Definition formatDate (t : Z) : string :=
  replaceFirst "Z" "" (replaceFirst "T" " " (Date_toISOString t)).

(** [span.attributes[k]]. *)
Definition attribute (t : TraceSpan) (k : string) : val :=
  default Undefined (attributes t !! k).

Definition statusEmoji (s : TraceStatus) : string :=
  match s with
  | ERROR => "❌ "
  | OK => "✅ "
  | UNSPECIFIED => "⚪ "
  end.

(** Lines 169-186; [join] turns the pushed values into strings. *)
Definition contextAttributes (t : TraceSpan) : list string :=
  let pushed (label k : string) : list string :=
    if ToBoolean (attribute t k) then [label +:+ toString (attribute t k)] else [] in
  pushed "" "/http/method" ++ pushed "" "/http/path" ++ pushed "" "/http/url"
  ++ pushed "Status: " "/http/status_code"
  ++ pushed "Component: " "/component" ++ pushed "Service: " "service.name"
  ++ pushed "DB: " "/db/system" ++ pushed "" "/db/operation"
  ++ pushed "Agent: " "g.co/agent".

(** Lines 164-192. *)
Definition displayText (t : TraceSpan) : string :=
  if includesString "Unknown Span" (displayName t)
     && (0 <? length (contextAttributes t))%nat
  then displayName t +:+ " (" +:+ join " | " (contextAttributes t) +:+ ")"
  else displayName t.

Definition importantAttributes : list string :=
  ["/http/method"; "/http/url"; "/http/status_code"; "/http/host"; "/http/path";
   "/http/route"; "/http/user_agent";
   "http.method"; "http.url"; "http.status_code"; "http.host"; "http.path";
   "http.route"; "http.user_agent";
   "/error/message"; "error.message"; "error";
   "/db/system"; "/db/name"; "/db/operation"; "/db/statement";
   "db.system"; "db.name"; "db.operation"; "db.statement";
   "service.name"; "span.kind"; "component"; "/component";
   "g.co/agent"; "g.co/gae/app/module"; "g.co/gae/app/version";
   "g.co/gce/instance_id"].

Definition maxOtherAttributes : nat := 5.

(** [appendM g l]: the texts that [g] gives for the elements of [l], one
    after the other. *)
Fixpoint appendM {A} (g : A -> outcome string) (l : list A) : outcome string :=
  match l with
  | [] => Ok ""
  | x :: rest => do a <- g x; do b <- appendM g rest; Ok (a +:+ b)
  end.

(** One more span type counted in the [Map] of line 106: the entry of the
    kind gets one more, in its place; a new kind goes to the end. *)
Fixpoint countKind (kind : val) (spanTypes : list (val * nat)) : list (val * nat) :=
  match spanTypes with
  | [] => [(kind, 1)]
  | (k, n) :: rest =>
      if sameValueZero k kind then (k, n + 1) :: rest
      else (k, n) :: countKind kind rest
  end.

Section Renderers.

Variable Date_parse : string -> option Z.

(** [Object.entries(span.attributes)]: the attributes in the order in which
    the object got its keys, which the map does not record. *)
Variable attributeEntries : TraceSpan -> list (string * val).

(** The comparator of lines 291-296. *)
Definition compareForDisplay (st : Store) (a b : nat) : option Z :=
  if ToBoolean (startTimeOf st a) && ToBoolean (startTimeOf st b)
  then compareStartTime Date_parse st a b
  else Some 0%Z.

(** Lines 290-296. *)
Definition sortedChildren (st : Store) (t : TraceSpan) : list nat :=
  Array_sort (compareForDisplay st) (childSpans t).

(** Lines 199-215. *)
Definition timingLines (indent : string) (t : TraceSpan) : string :=
  if ToBoolean (startTime t) && ToBoolean (endTime t) then
    indent +:+ "  - Duration: "
    +:+ calculateDuration Date_parse (startTime t) (endTime t) +:+ newline
    +:+ match Date_getTime Date_parse (startTime t),
              Date_getTime Date_parse (endTime t) with
        | Some startDate, Some endDate =>
            indent +:+ "  - Start: " +:+ formatDate startDate +:+ newline
            +:+ indent +:+ "  - End: " +:+ formatDate endDate +:+ newline
        | _, _ => ""
        end
  else "".

(** Lines 218-220. *)
Definition kindLine (indent : string) (t : TraceSpan) : string :=
  if ToBoolean (kind t) && negb (strictEquals (kind t) (Str "UNSPECIFIED"))
  then indent +:+ "  - Kind: " +:+ toString (kind t) +:+ newline
  else "".

(** Lines 223-234. *)
Definition errorLines (indent : string) (t : TraceSpan) : string :=
  if TraceStatus_eqb (status t) ERROR then
    let errorMessage :=
      or (or (attribute t "/error/message") (attribute t "error.message"))
         (attribute t "error") in
    indent +:+ "  - Status: ERROR" +:+ newline
    +:+ (if ToBoolean errorMessage
         then indent +:+ "  - Error: " +:+ toString errorMessage +:+ newline
         else "")
  else "".

Definition attributeLine (indent : string) (e : string * val) : string :=
  indent +:+ "    - " +:+ e.1 +:+ ": " +:+ toString e.2 +:+ newline.

(** Lines 257-285. *)
Definition attributeLines (indent : string) (t : TraceSpan) : string :=
  let importantAttributeEntries :=
    List.filter (fun e => includes importantAttributes e.1) (attributeEntries t) in
  let otherAttributeEntries :=
    List.filter (fun e => negb (includes importantAttributes e.1)) (attributeEntries t) in
  if (0 <? length importantAttributeEntries)%nat
     || (0 <? length otherAttributeEntries)%nat
  then
    indent +:+ "  - Attributes:" +:+ newline
    +:+ String.concat "" (map (attributeLine indent) importantAttributeEntries)
    +:+ String.concat ""
          (map (attributeLine indent) (take maxOtherAttributes otherAttributeEntries))
    +:+ (if (maxOtherAttributes <? length otherAttributeEntries)%nat
         then indent +:+ "    - ... "
              +:+ pretty (length otherAttributeEntries - maxOtherAttributes)
              +:+ " more attributes" +:+ newline
         else "")
  else "".

(** [formatSpanHierarchy].  The recursion follows [childSpans], so it takes
    fuel like [countDescendants].  A position outside the store is no span:
    reading its [status] throws. *)
Fixpoint formatSpanHierarchy (fuel : nat) (st : Store) (span : nat) (depth : nat)
    : outcome string :=
  match fuel with
  | 0 => OutOfFuel
  | S fuel' =>
      match deref st span with
      | None => Throw (TypeError "Cannot read properties of undefined")
      | Some t =>
          let indent := repeatString "  " depth in
          let markdown :=
            indent +:+ "- " +:+ statusEmoji (status t)
            +:+ "**" +:+ displayText t +:+ "**" +:+ newline
            +:+ indent +:+ "  - Span ID: " +:+ toString (spanId t) +:+ newline
            +:+ timingLines indent t
            +:+ kindLine indent t
            +:+ errorLines indent t
            +:+ attributeLines indent t in
          do children <- appendM (fun childSpan =>
                                    formatSpanHierarchy fuel' st childSpan (S depth))
                                 (sortedChildren st t);
          Ok (markdown +:+ children)
      end
  end.

(** Lines 106-111: [None] is a position outside the store. *)
Fixpoint spanTypes (st : Store) (spans : list nat) (counted : list (val * nat))
    : outcome (list (val * nat)) :=
  match spans with
  | [] => Ok counted
  | span :: rest =>
      match deref st span with
      | None => Throw (TypeError "Cannot read properties of undefined")
      | Some t =>
          spanTypes st rest
            (if ToBoolean (kind t) && negb (strictEquals (kind t) (Str "UNSPECIFIED"))
             then countKind (kind t) counted else counted)
      end
  end.

(** Line 129. *)
Fixpoint failedSpans (st : Store) (spans : list nat) : outcome (list TraceSpan) :=
  match spans with
  | [] => Ok []
  | span :: rest =>
      match deref st span with
      | None => Throw (TypeError "Cannot read properties of undefined")
      | Some t =>
          do failed <- failedSpans st rest;
          Ok (if TraceStatus_eqb (status t) ERROR then t :: failed else failed)
      end
  end.

(** Lines 134-144. *)
Definition failedSpan (t : TraceSpan) : completion string :=
  andThen (toISOString (Date_getTime Date_parse (startTime t))) (fun startDate =>
  andThen (toISOString (Date_getTime Date_parse (endTime t))) (fun endDate =>
  Return ("- **" +:+ displayName t +:+ "** (" +:+ toString (spanId t) +:+ ")" +:+ newline
          +:+ "  - Start: " +:+ startDate +:+ newline
          +:+ "  - End: " +:+ endDate +:+ newline
          +:+ "  - Duration: "
          +:+ calculateDuration Date_parse (startTime t) (endTime t) +:+ newline
          +:+ (if ToBoolean (attribute t "error.message")
               then "  - Error: " +:+ toString (attribute t "error.message") +:+ newline
               else "")
          +:+ newline))).

Fixpoint failedSpanSection (failed : list TraceSpan) : completion string :=
  match failed with
  | [] => Return ""
  | t :: rest =>
      andThen (failedSpan t) (fun a =>
      andThen (failedSpanSection rest) (fun b => Return (a +:+ b)))
  end.

Definition formatTraceData (fuel : nat) (st : Store) (traceData : TraceData)
    : completion string :=
  let header :=
    "## Trace Details" +:+ newline +:+ newline
    +:+ "- **Trace ID**: " +:+ traceId traceData +:+ newline
    +:+ "- **Project ID**: " +:+ projectId traceData +:+ newline
    +:+ "- **Total Spans**: " +:+ pretty (length (allSpans traceData)) +:+ newline
    +:+ "- **Associated Logs**: [View logs for this trace](gcp-trace://"
    +:+ projectId traceData +:+ "/traces/" +:+ traceId traceData +:+ "/logs)"
    +:+ newline +:+ newline in
  andThen (complete (spanTypes st (allSpans traceData) [])) (fun types =>
  let summary :=
    if (0 <? length types)%nat then
      "- **Span Types**:" +:+ newline
      +:+ String.concat ""
            (map (fun e : val * nat =>
                    "  - " +:+ toString e.1 +:+ ": " +:+ pretty e.2 +:+ newline) types)
      +:+ newline
    else "" in
  andThen (complete (appendM (fun rootSpan => formatSpanHierarchy fuel st rootSpan 0)
                             (rootSpans traceData))) (fun hierarchy =>
  andThen (complete (failedSpans st (allSpans traceData))) (fun failed =>
  andThen (if (0 <? length failed)%nat
           then andThen (failedSpanSection failed) (fun section =>
                Return (newline +:+ "## Failed Spans (" +:+ pretty (length failed) +:+ ")"
                        +:+ newline +:+ newline +:+ section))
           else Return "") (fun failures =>
  Return (header +:+ summary +:+ "## Trace Hierarchy" +:+ newline +:+ newline
          +:+ hierarchy +:+ failures))))).

End Renderers.

(** A trace with a failed span that has no timestamps. *)
Definition failedTrace : list val :=
  [Obj [("spanId", Str "root"); ("name", Str "GET /orders");
        ("startTime", Str "2024-01-01T00:00:01Z");
        ("endTime", Str "2024-01-01T00:00:03Z")];
   Obj [("spanId", Str "db"); ("parentSpanId", Str "root"); ("name", Str "query");
        ("status", Obj [("code", Num 2)])]].

(** A trace with two server spans and a span without a kind. *)
Definition kindTrace : list val :=
  [Obj [("spanId", Str "a"); ("kind", Str "SERVER")];
   Obj [("spanId", Str "b"); ("parentSpanId", Str "a")];
   Obj [("spanId", Str "c"); ("parentSpanId", Str "a"); ("spanKind", Str "SERVER")]].

(** A span of the failed-spans section whose dates [toISOString] accepts. *)
Definition validDates (Date_parse : string -> option Z) (t : TraceSpan) : Prop :=
  is_Some (Date_getTime Date_parse (startTime t))
  ∧ is_Some (Date_getTime Date_parse (endTime t)).

(** A span that the summary of span types counts. *)
Definition hasSpanType (t : TraceSpan) : bool :=
  ToBoolean (kind t) && negb (strictEquals (kind t) (Str "UNSPECIFIED")).

(** * Proofs *)

(** Closed decidable facts, and membership in a list that is written out. *)
Ltac by_compute := apply (bool_decide_unpack _); vm_compute; exact I.
Ltac in_list :=
  first [ apply list_elem_of_here | apply list_elem_of_further; in_list ].

(** * Properties of the span normaliser *)

(** ** Attribute flattening *)

Lemma addLabel_write m e : addLabel m e = applyWrite (labelWrite e) m.
Proof.
  unfold addLabel, labelWrite, setAttr, applyWrite.
  destruct (nullish e.2); simpl; [reflexivity|].
  destruct (String.eqb e.1 "__proto__"); reflexivity.
Qed.

Lemma addAttribute_write m e : addAttribute m e = applyWrite (attributeWrite e) m.
Proof.
  unfold addAttribute, attributeWrite, setAttr, applyWrite.
  destruct (nullish e.2); simpl; [reflexivity|].
  destruct (String.eqb e.1 "__proto__"); reflexivity.
Qed.

Lemma raw_key_prefix f : String.prefix "raw." ("raw." +:+ f) = true.
Proof. simpl. destruct f; reflexivity. Qed.

Lemma addRawField_write m e : addRawField m e = applyWrite (rawFieldWrite e) m.
Proof.
  unfold addRawField, rawFieldWrite, setAttr, applyWrite.
  destruct (includes standardFields e.1); simpl; [reflexivity|].
  destruct (nullish e.2) eqn:Hn; simpl; [reflexivity|].
  destruct e.2; simpl in *; try reflexivity; discriminate.
Qed.

Section Writes.
Variable w : string * val -> option (string * val).

Lemma foldl_write_other es m k :
  (∀ e v, e ∈ es -> w e ≠ Some (k, v)) ->
  foldl (fun m e => applyWrite (w e) m) m es !! k = m !! k.
Proof.
  revert m. induction es as [|e es IH]; intros m Hes; simpl; [reflexivity|].
  rewrite IH.
  - unfold applyWrite. destruct (w e) as [[k' v']|] eqn:He; [|reflexivity].
    apply lookup_insert_ne. intros ->.
    apply (Hes e v'); [left|assumption].
  - intros e' v' Hin. apply Hes. by right.
Qed.

Lemma foldl_write_changed es m k :
  foldl (fun m e => applyWrite (w e) m) m es !! k ≠ m !! k ->
  ∃ e v, e ∈ es ∧ w e = Some (k, v).
Proof.
  revert m. induction es as [|e es IH]; intros m Hne; simpl in Hne; [done|].
  destruct (w e) as [[k' v']|] eqn:He.
  - destruct (decide (k' = k)) as [->|Hk].
    + exists e, v'. split; [left|done].
    + destruct (IH (applyWrite (Some (k', v')) m)) as (e' & v & Hin & Hw).
      * simpl. by rewrite lookup_insert_ne.
      * exists e', v. split; [by right|done].
  - destruct (IH _ Hne) as (e' & v & Hin & Hw).
    exists e', v. split; [by right|done].
Qed.

(** With distinct source keys and a written key that determines the source
    key, the entry of the source decides the value: nothing later in the
    same source writes the key again. *)
Lemma foldl_write_own (g : string -> string) es m e k v :
  (∀ x y, g x = g y -> x = y) ->
  (∀ e k' v', w e = Some (k', v') -> k' = g e.1) ->
  NoDup es.*1 -> e ∈ es -> w e = Some (k, v) ->
  foldl (fun m e => applyWrite (w e) m) m es !! k = Some v.
Proof.
  intros Hinj Hkey. revert m.
  induction es as [|e0 es IH]; intros m Hnd Hin Hw; [by apply elem_of_nil in Hin|].
  simpl. rewrite fmap_cons in Hnd. apply NoDup_cons in Hnd as [Hfresh Hnd].
  apply elem_of_cons in Hin as [<-|Hin].
  - rewrite foldl_write_other.
    + unfold applyWrite. rewrite Hw. apply lookup_insert_eq.
    + intros e' v' Hin' He'.
      apply Hkey in He', Hw. simpl in *.
      rewrite Hw in He'. apply Hinj in He'.
      apply Hfresh. rewrite He'. apply list_elem_of_fmap. by exists e'.
  - by apply IH.
Qed.
End Writes.

Lemma foldl_addLabel m es :
  foldl addLabel m es = foldl (fun m e => applyWrite (labelWrite e) m) m es.
Proof. revert m. induction es as [|e es IH]; intros m; simpl; [done|]. by rewrite IH, addLabel_write. Qed.

Lemma foldl_addAttribute m es :
  foldl addAttribute m es = foldl (fun m e => applyWrite (attributeWrite e) m) m es.
Proof. revert m. induction es as [|e es IH]; intros m; simpl; [done|]. by rewrite IH, addAttribute_write. Qed.

Lemma foldl_addRawField m es :
  foldl addRawField m es = foldl (fun m e => applyWrite (rawFieldWrite e) m) m es.
Proof. revert m. induction es as [|e es IH]; intros m; simpl; [done|]. by rewrite IH, addRawField_write. Qed.

Lemma rawFieldWrite_key e k v :
  rawFieldWrite e = Some (k, v) ->
  k = "raw." +:+ e.1 ∧ includes standardFields e.1 = false
  ∧ nullish e.2 = false ∧ isArray e.2 = false.
Proof.
  unfold rawFieldWrite.
  destruct (includes standardFields e.1), (nullish e.2), (isArray e.2);
    simpl; intros H; inversion H; done.
Qed.

Lemma rawAttributes_other span m k :
  String.prefix "raw." k = false -> rawAttributes span m !! k = m !! k.
Proof.
  intros Hk. unfold rawAttributes. rewrite foldl_addRawField.
  apply foldl_write_other. intros e v _ He.
  apply rawFieldWrite_key in He as [-> _].
  by rewrite raw_key_prefix in Hk.
Qed.

(** C10. Every attribute that the third flattening source (the remaining
    top-level fields of the raw span) creates or changes is stored under
    [raw.] followed by the name of a field that is not one of the consumed
    standard fields, is not nullish and is not an array; an array-valued
    field writes nothing; hence a key that does not begin with [raw.] keeps
    the value that the label map and the attribute map gave it. *)
Theorem raw_fields_are_prefixed (span : val) (attributes : gmap string val) (k : string) :
  (rawAttributes span attributes !! k ≠ attributes !! k ->
     ∃ f v, (f, v) ∈ entries span ∧ k = "raw." +:+ f
            ∧ String.prefix "raw." k = true
            ∧ includes standardFields f = false
            ∧ nullish v = false ∧ isArray v = false)
  ∧ (∀ f v, isArray v = true -> addRawField attributes (f, v) = attributes)
  ∧ (String.prefix "raw." k = false ->
       flattenAttributes span !! k = mapAttributes span (labelAttributes span) !! k).
Proof.
  split; [|split].
  - unfold rawAttributes. rewrite foldl_addRawField. intros Hne.
    apply foldl_write_changed in Hne as ([f v] & v' & Hin & Hw).
    apply rawFieldWrite_key in Hw as (-> & Hstd & Hnull & Harr).
    exists f, v. repeat split; try done. apply raw_key_prefix.
  - intros f v Harr. rewrite addRawField_write.
    unfold rawFieldWrite. cbn [fst snd]. rewrite Harr.
    by rewrite !orb_true_r.
  - intros Hk. unfold flattenAttributes. by apply rawAttributes_other.
Qed.

Lemma raw_fields_are_prefixed_witness :
  let span := Obj [("spanId", Str "s1"); ("labels", Obj [("k", Str "a")]);
                   ("extra", Num 1); ("tags", Arr [Num 1])] in
  (∃ f v, (f, v) ∈ entries span ∧ "raw.extra" = "raw." +:+ f
          ∧ String.prefix "raw." "raw.extra" = true
          ∧ includes standardFields f = false
          ∧ nullish v = false ∧ isArray v = false)
  ∧ addRawField ∅ ("tags", Arr [Num 1]) = ∅
  ∧ flattenAttributes span !! "k" = mapAttributes span (labelAttributes span) !! "k".
Proof.
  intros span.
  split; [|split].
  - apply (proj1 (raw_fields_are_prefixed span ∅ "raw.extra")).
    vm_compute. discriminate.
  - apply (proj1 (proj2 (raw_fields_are_prefixed span ∅ "k"))). reflexivity.
  - apply (proj2 (proj2 (raw_fields_are_prefixed span ∅ "k"))). reflexivity.
Defined.


Lemma raw_key_inj x y : "raw." +:+ x = "raw." +:+ y -> x = y.
Proof. simpl. intros H. by inversion H. Qed.



(** ** Status *)

Lemma ToBoolean_or a b : ToBoolean (or a b) = ToBoolean a || ToBoolean b.
Proof. unfold or. destruct (ToBoolean a) eqn:Ha; simpl; [exact Ha|reflexivity]. Qed.

Lemma statusFromField_explicit span :
  ToBoolean (prop span "status")
  && (strictEquals (prop (prop span "status") "code") (Num 0)
      || gt0 (prop (prop span "status") "code")) = false ->
  statusFromField span = UNSPECIFIED.
Proof.
  unfold statusFromField.
  destruct (ToBoolean (prop span "status")); [|done]. simpl.
  destruct (strictEquals _ _); [done|]. simpl.
  by intros ->.
Qed.

(** C9, counterexample.  The labels contain the error-message key [error],
    with an empty value; the status is not ERROR. *)
Lemma error_key_counterexample :
  let span := Obj [("spanId", Str "s1"); ("labels", Obj [("error", Str "")])] in
  prop (prop span "labels") "error" = Str ""
  ∧ resolveStatus span = UNSPECIFIED
  ∧ resolveStatus span ≠ ERROR.
Proof. vm_compute. split; [reflexivity|]. split; [reflexivity|discriminate]. Qed.

Lemma prop_truthy v k : ToBoolean (prop v k) = true -> ToBoolean v = true.
Proof. by destruct v. Qed.

Lemma prop_falsy v k : ToBoolean v = false -> prop v k = Undefined.
Proof. by destruct v. Qed.

Lemma parseInt10_falsy v c :
  ToBoolean v = false -> parseInt10 v = Some c -> c = 0%Z.
Proof.
  destruct v as [| |[]|z|s| |]; simpl; try discriminate.
  - intros Hz%negb_false_iff%Z.eqb_eq. subst z. by intros [= <-].
  - intros Hs%negb_false_iff%String.eqb_eq. by subst s.
Qed.

(** The result of the label rules when no error-message label is truthy, in
    terms of the integer read from the status-code label. *)
Lemma statusFromLabels_http labels :
  ToBoolean (prop labels "/error/message") || ToBoolean (prop labels "error") = false ->
  statusFromLabels labels =
  match parseInt10 (prop labels "/http/status_code") with
  | Some c =>
      if (400 <=? c)%Z then ERROR
      else if (200 <=? c)%Z && (c <? 400)%Z then OK else UNSPECIFIED
  | None => UNSPECIFIED
  end.
Proof.
  intros Herr. unfold statusFromLabels. rewrite ToBoolean_or, Herr.
  destruct (ToBoolean (prop labels "/http/status_code")) eqn:Hhttp; [done|].
  destruct (parseInt10 _) as [c|] eqn:Hc; [|done].
  by rewrite (parseInt10_falsy _ _ Hhttp Hc).
Qed.

(** C9, amended.  Status resolution, first match wins: an explicit status
    field with code [0] gives OK and with a code greater than [0] (as [>]
    compares: the code converted to a number) gives ERROR; otherwise, if
    the labels hold a truthy (non-empty) value under an error-message key,
    [/error/message] or [error], the status is ERROR;
    otherwise, if an HTTP status code label is present, its integer value
    [c] gives ERROR when [c >= 400] and OK when [200 <= c < 400]; otherwise
    (a value below [200], not a number, or no such label) the status is
    UNSPECIFIED.  An error-message key with an empty value counts as
    absent. *)
Theorem status_precedence (span : val) :
  let status := prop span "status" in
  let code := prop status "code" in
  let labels := prop span "labels" in
  let http := prop labels "/http/status_code" in
  let errorLabel :=
    ToBoolean (prop labels "/error/message") || ToBoolean (prop labels "error") in
  let explicit := ToBoolean status && (strictEquals code (Num 0) || gt0 code) in
  (ToBoolean status = true -> code = Num 0 -> resolveStatus span = OK)
  ∧ (ToBoolean status = true -> gt0 code = true -> resolveStatus span = ERROR)
  ∧ (explicit = false -> errorLabel = true -> resolveStatus span = ERROR)
  ∧ (∀ c, explicit = false -> errorLabel = false -> parseInt10 http = Some c ->
       ((400 <= c)%Z -> resolveStatus span = ERROR)
       ∧ ((200 <= c < 400)%Z -> resolveStatus span = OK)
       ∧ ((c < 200)%Z -> resolveStatus span = UNSPECIFIED))
  ∧ (explicit = false -> errorLabel = false -> parseInt10 http = None ->
       resolveStatus span = UNSPECIFIED).
Proof.
  intros status code labels http errorLabel explicit.
  assert (Hlab : explicit = false -> resolveStatus span = statusFromLabels labels).
  { intros He. unfold resolveStatus.
    rewrite (statusFromField_explicit span He). simpl. fold labels.
    destruct (ToBoolean labels) eqn:Hl; [done|].
    unfold statusFromLabels. by rewrite !(prop_falsy _ _ Hl). }
  split; [|split; [|split; [|split]]].
  - intros Hs Hc. unfold resolveStatus, statusFromField.
    fold status. rewrite Hs. fold code. rewrite Hc. reflexivity.
  - intros Hs Hc. unfold resolveStatus, statusFromField.
    fold status. rewrite Hs. fold code. rewrite Hc.
    destruct (strictEquals code (Num 0)) eqn:Hz; [|reflexivity].
    destruct code; try discriminate.
    simpl in Hz. apply Z.eqb_eq in Hz as ->. discriminate.
  - intros He Herr. rewrite Hlab by done.
    unfold statusFromLabels. rewrite ToBoolean_or. fold errorLabel. by rewrite Herr.
  - intros c He Herr Hp. rewrite Hlab by done.
    rewrite (statusFromLabels_http labels Herr). fold http. rewrite Hp.
    split; [|split].
    + intros Hc. apply Z.leb_le in Hc. by rewrite Hc.
    + intros [Hlo Hhi].
      replace (400 <=? c)%Z with false by (symmetry; apply Z.leb_gt; lia).
      replace (200 <=? c)%Z with true by (symmetry; apply Z.leb_le; lia).
      replace (c <? 400)%Z with true by (symmetry; apply Z.ltb_lt; lia).
      reflexivity.
    + intros Hc.
      replace (400 <=? c)%Z with false by (symmetry; apply Z.leb_gt; lia).
      replace (200 <=? c)%Z with false by (symmetry; apply Z.leb_gt; lia).
      reflexivity.
  - intros He Herr Hp. rewrite Hlab by done.
    rewrite (statusFromLabels_http labels Herr). fold http. by rewrite Hp.
Qed.

Lemma status_precedence_witness :
  resolveStatus (Obj [("spanId", Str "s1"); ("status", Obj [("code", Num 0)])]) = OK
  ∧ resolveStatus (Obj [("spanId", Str "s2"); ("status", Obj [("code", Num 5)])]) = ERROR
  ∧ resolveStatus (Obj [("spanId", Str "s3");
                        ("labels", Obj [("/error/message", Str "boom")])]) = ERROR
  ∧ resolveStatus (Obj [("spanId", Str "s4");
                        ("labels", Obj [("/http/status_code", Str "404")])]) = ERROR
  ∧ resolveStatus (Obj [("spanId", Str "s5");
                        ("labels", Obj [("/http/status_code", Str "200")])]) = OK
  ∧ resolveStatus (Obj [("spanId", Str "s6");
                        ("labels", Obj [("/http/status_code", Str "n/a")])]) = UNSPECIFIED
  ∧ resolveStatus (Obj [("spanId", Str "s7"); ("status", Obj [("code", Str "1.5")]);
                        ("labels", Obj [("/http/status_code", Str "200")])]) = ERROR
  ∧ resolveStatus (Obj [("spanId", Str "s8"); ("status", Obj [("code", Str "-1")]);
                        ("labels", Obj [("/http/status_code", Str "200")])]) = OK.
Proof.
  split; [|split; [|split; [|split; [|split; [|split; [|split]]]]]].
  - apply (proj1 (status_precedence
                    (Obj [("spanId", Str "s1"); ("status", Obj [("code", Num 0)])])));
      reflexivity.
  - apply (proj1 (proj2 (status_precedence
                    (Obj [("spanId", Str "s2"); ("status", Obj [("code", Num 5)])]))));
      reflexivity.
  - apply (proj1 (proj2 (proj2 (status_precedence
                    (Obj [("spanId", Str "s3");
                          ("labels", Obj [("/error/message", Str "boom")])])))));
      reflexivity.
  - destruct (status_precedence
                (Obj [("spanId", Str "s4");
                      ("labels", Obj [("/http/status_code", Str "404")])]))
      as (_ & _ & _ & H & _).
    destruct (H 404%Z eq_refl eq_refl eq_refl) as (Herror & _).
    apply Herror. lia.
  - destruct (status_precedence
                (Obj [("spanId", Str "s5");
                      ("labels", Obj [("/http/status_code", Str "200")])]))
      as (_ & _ & _ & H & _).
    destruct (H 200%Z eq_refl eq_refl eq_refl) as (_ & Hok & _).
    apply Hok. lia.
  - apply (proj2 (proj2 (proj2 (proj2 (status_precedence
                    (Obj [("spanId", Str "s6");
                          ("labels", Obj [("/http/status_code", Str "n/a")])]))))));
      reflexivity.
  - apply (proj1 (proj2 (status_precedence
                    (Obj [("spanId", Str "s7"); ("status", Obj [("code", Str "1.5")]);
                          ("labels", Obj [("/http/status_code", Str "200")])]))));
      reflexivity.
  - destruct (status_precedence
                (Obj [("spanId", Str "s8"); ("status", Obj [("code", Str "-1")]);
                      ("labels", Obj [("/http/status_code", Str "200")])]))
      as (_ & _ & _ & H & _).
    destruct (H 200%Z eq_refl eq_refl eq_refl) as (_ & Hok & _).
    apply Hok. lia.
Defined.

(** ** The builder returns or throws *)

Lemma bind_no_fuel {A B} (m : outcome A) (k : A -> outcome B) :
  m ≠ OutOfFuel -> (∀ a, k a ≠ OutOfFuel) -> bind m k ≠ OutOfFuel.
Proof. destruct m; simpl; auto. Qed.

Lemma nameFromKnownLabels_no_fuel labels name :
  nameFromKnownLabels labels name ≠ OutOfFuel.
Proof.
  unfold nameFromKnownLabels, substring0.
  repeat match goal with
         | |- context [if ?b then _ else _] => destruct b
         end; try discriminate.
  destruct (prop labels "/db/statement"); discriminate.
Qed.

Lemma resolveDisplayName_no_fuel span spanId :
  resolveDisplayName span spanId ≠ OutOfFuel.
Proof.
  unfold resolveDisplayName. apply bind_no_fuel.
  - unfold startsWith. destruct (nameField span); discriminate.
  - intros isPath. apply bind_no_fuel.
    + destruct (String.eqb _ UnknownSpan); [|discriminate].
      apply bind_no_fuel; [|discriminate].
      destruct (ToBoolean (prop span "labels")); [|discriminate].
      apply bind_no_fuel; [apply nameFromKnownLabels_no_fuel|discriminate].
    + intros name. destruct (_ && _); discriminate.
Qed.

Lemma convertSpan_no_fuel span : convertSpan span ≠ OutOfFuel.
Proof.
  unfold convertSpan. apply bind_no_fuel.
  - unfold get. destruct (nullish span); discriminate.
  - intros rawId. apply bind_no_fuel; [apply resolveDisplayName_no_fuel|discriminate].
Qed.

Lemma convertSpans_no_fuel spans : ∀ index m, convertSpans spans index m ≠ OutOfFuel.
Proof.
  induction spans as [|span spans IH]; intros index m; simpl; [discriminate|].
  apply bind_no_fuel; [apply convertSpan_no_fuel|].
  intros t. apply bind_no_fuel; [apply IH|discriminate].
Qed.


(** ** Display name *)

Lemma append_nonempty_l a b : a ≠ "" -> a +:+ b ≠ "".
Proof. destruct a; [done|]. discriminate. Qed.

Lemma append_sep_nonempty a c b : a +:+ String c b ≠ "".
Proof. destruct a; discriminate. Qed.

Lemma nameField_empty span :
  nameField span = Str "" ->
  prop span "displayName" = Str ""
  ∧ ToBoolean (prop span "name") = false
  ∧ ToBoolean (prop (prop span "displayName") "value") = false.
Proof.
  unfold nameField.
  destruct (ToBoolean (prop span "name")) eqn:Hname.
  { intros H. rewrite H in Hname. discriminate. }
  destruct (ToBoolean (prop (prop span "displayName") "value")) eqn:Hvalue.
  { intros H. rewrite H in Hvalue. discriminate. }
  destruct (String.eqb (typeof (prop span "displayName")) "string"); [done|].
  discriminate.
Qed.

Lemma nameFromKnownLabels_nonempty labels name :
  nameFromKnownLabels labels UnknownSpan = Ok name -> name ≠ "".
Proof.
  unfold nameFromKnownLabels, substring0.
  repeat match goal with
         | |- context [if ToBoolean ?v then _ else _] => destruct (ToBoolean v)
         end;
    try (intros [= <-]; first [apply append_sep_nonempty | discriminate]).
  destruct (prop labels "/db/statement"); simpl; try discriminate.
  intros [= <-]. apply append_sep_nonempty.
Qed.

Lemma nameFromDescriptiveLabels_nonempty labels name :
  name ≠ "" -> nameFromDescriptiveLabels labels name ≠ "".
Proof.
  intros Hname. unfold nameFromDescriptiveLabels.
  destruct (String.eqb name UnknownSpan); [|done].
  destruct (filter _ _) as [|[key value] ?]; [done|].
  apply append_sep_nonempty.
Qed.

Lemma firstNameField_nonempty span fields name :
  name ≠ "" -> firstNameField span fields name ≠ "".
Proof.
  intros Hname. induction fields as [|field fields IH]; simpl; [done|].
  destruct (_ && _); [apply append_sep_nonempty|done].
Qed.

Lemma nameFromAlternativeFields_nonempty span name :
  name ≠ "" -> nameFromAlternativeFields span name ≠ "".
Proof.
  intros Hname. unfold nameFromAlternativeFields.
  destruct (String.eqb name UnknownSpan); [|done].
  apply firstNameField_nonempty. by destruct (_ && _).
Qed.

(** The display name is empty only when the name fields resolve to the empty
    legacy [displayName] string. *)
Lemma resolveDisplayName_empty span spanId :
  resolveDisplayName span spanId = Ok "" -> nameField span = Str "".
Proof.
  unfold resolveDisplayName, startsWith.
  destruct (nameField span) as [| | | |s| |]; try discriminate. simpl.
  set (name0 := if String.prefix "/" s then "HTTP " +:+ s else s).
  destruct (String.eqb name0 UnknownSpan) eqn:Hunknown.
  - intros H. exfalso. revert H.
    destruct (ToBoolean (prop span "labels")).
    + destruct (nameFromKnownLabels (prop span "labels") name0) as [known| |] eqn:Hknown;
        simpl; try discriminate.
      apply String.eqb_eq in Hunknown. rewrite Hunknown in Hknown.
      apply nameFromKnownLabels_nonempty in Hknown.
      pose proof (nameFromAlternativeFields_nonempty span _
                    (nameFromDescriptiveLabels_nonempty (prop span "labels") _ Hknown)).
      destruct (_ && _); [discriminate|]. by intros [= ?].
    + simpl.
      assert (name0 ≠ "") as Hname0
        by (apply String.eqb_eq in Hunknown; by rewrite Hunknown).
      pose proof (nameFromAlternativeFields_nonempty span _ Hname0).
      destruct (_ && _); [discriminate|]. by intros [= ?].
  - simpl. rewrite Hunknown. simpl. intros [= H]. unfold name0 in H.
    destruct (String.prefix "/" s); [discriminate|]. by subst.
Qed.

(** ** Exceptions *)

(** Converting a span throws only on a nullish span, on name fields that
    resolve to something that is not a string, or on a [/db/statement] label
    that is not a string. *)
Lemma convertSpan_throws span e :
  convertSpan span = Throw e ->
  nullish span = true
  ∨ String.eqb (typeof (nameField span)) "string" = false
  ∨ (ToBoolean (prop (prop span "labels") "/db/statement") = true
     ∧ String.eqb (typeof (prop (prop span "labels") "/db/statement")) "string" = false).
Proof.
  unfold convertSpan, get.
  destruct (nullish span); [by left|]. simpl.
  destruct (resolveDisplayName _ _) as [name| |] eqn:Hname; simpl; try discriminate.
  intros _. right. revert Hname. unfold resolveDisplayName, startsWith.
  destruct (nameField span) as [| | | |s| |]; try (by left). simpl.
  destruct (String.eqb _ UnknownSpan); simpl.
  2: { destruct (_ && _); discriminate. }
  destruct (ToBoolean (prop span "labels")); simpl.
  2: { destruct (_ && _); discriminate. }
  destruct (nameFromKnownLabels _ _) as [known| |] eqn:Hknown; simpl.
  { destruct (_ && _); discriminate. }
  2: { by destruct (nameFromKnownLabels_no_fuel _ _ Hknown). }
  intros _. right. revert Hknown. unfold nameFromKnownLabels, substring0.
  repeat match goal with
         | |- context [if ToBoolean ?v then _ else _] =>
             destruct (ToBoolean v) eqn:?
         end; try discriminate.
  destruct (prop (prop span "labels") "/db/statement"); done.
Qed.

(** * Properties of the hierarchy builder *)

(** ** Conversion and the span map *)

Lemma convertSpan_fields span t :
  convertSpan span = Ok t ->
  spanId t = or (prop span "spanId") (Str "")
  ∧ parentSpanId t = (if ToBoolean (prop span "parentSpanId")
                      then Some (prop span "parentSpanId") else None)
  ∧ startTime t = or (prop span "startTime") (Str "")
  ∧ childSpans t = [].
Proof.
  unfold convertSpan, get.
  destruct (nullish span); [discriminate|]. simpl.
  destruct (resolveDisplayName _ _); simpl; try discriminate.
  intros [= <-]. simpl. split; [done|]. split; [|done].
  unfold or. destruct (ToBoolean (prop span "parentSpanId")) eqn:Hp; simpl; [|done].
  by rewrite Hp.
Qed.

Lemma convertSpans_spec spans : ∀ index m ts m',
  convertSpans spans index m = Ok (ts, m') ->
  Forall2 (fun span t => convertSpan span = Ok t) spans ts
  ∧ m' = indexSpans ts index m.
Proof.
  induction spans as [|span spans IH]; intros index m ts m'; simpl.
  - intros [= <- <-]. split; [constructor|reflexivity].
  - destruct (convertSpan span) as [t| |] eqn:Ht; simpl; try discriminate.
    destruct (convertSpans spans (S index) _) as [[ts0 m0]| |] eqn:Hr;
      simpl; try discriminate.
    intros [= <- <-]. apply IH in Hr as [Hall ->].
    split; [by constructor|reflexivity].
Qed.

Lemma Map_get_indexSpans_None ts : ∀ index m k,
  Map_get k (indexSpans ts index m) = None
  ↔ Map_get k m = None ∧ ∀ t, t ∈ ts -> sameValueZero (spanId t) k = false.
Proof.
  induction ts as [|t ts IH]; intros index m k; simpl.
  - split; [intros H; split; [done|]; intros t Ht; by apply elem_of_nil in Ht|by intros [H _]].
  - rewrite IH. unfold Map_set. simpl.
    destruct (sameValueZero (spanId t) k) eqn:Hk.
    + split; [intros [[=] _]|].
      intros [_ H]. specialize (H t (list_elem_of_here _ _)). congruence.
    + split.
      * intros [Hm H]. split; [done|]. intros t' [->|Ht']%elem_of_cons; auto.
      * intros [Hm H]. split; [done|]. intros t' Ht'. apply H. by right.
Qed.

Lemma Map_get_indexSpans_Some ts : ∀ index m k j,
  Map_get k (indexSpans ts index m) = Some j ->
  (index <= j < index + length ts) ∨ Map_get k m = Some j.
Proof.
  induction ts as [|t ts IH]; intros index m k j; simpl.
  - by right.
  - intros H. apply IH in H as [H|H]; [left; lia|].
    unfold Map_set in H. simpl in H.
    destruct (sameValueZero (spanId t) k); [|by right].
    injection H as <-. left. lia.
Qed.

Lemma parentOf_lt st i p : parentOf st i = Some p -> p < length st.
Proof.
  unfold parentOf. destruct (st !! i ≫= parentSpanId); [|discriminate].
  intros H. apply Map_get_indexSpans_Some in H as [H|H]; [lia|discriminate].
Qed.

(** ** Stores that differ in [childSpans] only *)

Lemma sameSpans_lookup (f : TraceSpan -> val) st st' i :
  (∀ t, f (eraseChildren t) = f t) ->
  sameSpans st st' -> f <$> st !! i = f <$> st' !! i.
Proof.
  intros Hf H. unfold sameSpans in H.
  assert (Hi : (eraseChildren <$> st) !! i = (eraseChildren <$> st') !! i) by by rewrite H.
  rewrite !list_lookup_fmap in Hi.
  destruct (st !! i) as [t|], (st' !! i) as [t'|]; try done.
  apply (inj Some) in Hi. simpl. by rewrite <- (Hf t), <- (Hf t'), Hi.
Qed.

Lemma sameSpans_length st st' : sameSpans st st' -> length st = length st'.
Proof.
  intros H. unfold sameSpans in H.
  by rewrite <- (length_fmap eraseChildren st), H, length_fmap.
Qed.

Lemma sameSpans_parentSpanId st st' i :
  sameSpans st st' -> st !! i ≫= parentSpanId = st' !! i ≫= parentSpanId.
Proof.
  intros H. unfold sameSpans in H.
  assert (Hi : (eraseChildren <$> st) !! i = (eraseChildren <$> st') !! i) by by rewrite H.
  rewrite !list_lookup_fmap in Hi.
  destruct (st !! i) as [t|], (st' !! i) as [t'|]; try done.
  apply (inj Some) in Hi. simpl. by inversion Hi.
Qed.

Lemma sameSpans_indexSpans st : ∀ st' index m,
  sameSpans st st' -> indexSpans st index m = indexSpans st' index m.
Proof.
  induction st as [|t st IH]; intros [|t' st'] index m H; try done.
  unfold sameSpans in H. rewrite !fmap_cons in H. injection H as Ht H.
  simpl. assert (spanId t = spanId t') as -> by by inversion Ht.
  by apply IH.
Qed.

Lemma sameSpans_parentOf st st' i :
  sameSpans st st' -> parentOf st i = parentOf st' i.
Proof.
  intros H. unfold parentOf.
  by rewrite (sameSpans_parentSpanId _ _ _ H), (sameSpans_indexSpans _ _ _ _ H).
Qed.

Lemma sameSpans_startTimeOf st st' i :
  sameSpans st st' -> startTimeOf st i = startTimeOf st' i.
Proof.
  intros H. unfold startTimeOf, deref.
  by rewrite (sameSpans_lookup startTime st st' i (fun _ => eq_refl) H).
Qed.

Lemma sameSpans_refl st : sameSpans st st.
Proof. reflexivity. Qed.

Lemma sameSpans_trans a b c : sameSpans a b -> sameSpans b c -> sameSpans a c.
Proof. unfold sameSpans. congruence. Qed.

Lemma sameSpans_setChildSpans st i t cs :
  st !! i = Some t -> sameSpans (<[i := setChildSpans cs t]> st) st.
Proof.
  intros Hi. unfold sameSpans. rewrite list_fmap_insert.
  apply list_insert_id. rewrite list_lookup_fmap, Hi. reflexivity.
Qed.

Lemma childSpansOf_setChildSpans st i t cs p :
  st !! i = Some t ->
  childSpansOf (<[i := setChildSpans cs t]> st) p
  = if decide (p = i) then cs else childSpansOf st p.
Proof.
  intros Hi. unfold childSpansOf, deref.
  destruct (decide (p = i)) as [->|Hne].
  - rewrite list_lookup_insert_eq; [done|]. by eapply lookup_lt_Some.
  - by rewrite list_lookup_insert_ne.
Qed.

(** ** The link pass *)

Lemma pushChild_eq st p c tp :
  st !! p = Some tp ->
  pushChild p c st = <[p := setChildSpans (childSpans tp ++ [c]) tp]> st.
Proof. intros H. unfold pushChild. by rewrite H. Qed.

Lemma linkPrefix_S m ts k :
  linkPrefix m ts (S k) = linkStep m (linkPrefix m ts k) k.
Proof. unfold linkPrefix. by rewrite seq_S, foldl_snoc. Qed.

Lemma filter_seq_S (P : nat -> Prop) `{∀ i, Decision (P i)} k :
  filter P (seq 0 (S k)) = filter P (seq 0 k) ++ (if decide (P k) then [k] else []).
Proof.
  rewrite seq_S, filter_app. reflexivity.
Qed.

Lemma linkPrefix_spec ts k :
  Forall (fun t => childSpans t = []) ts -> k <= length ts ->
  let s := linkPrefix (indexSpans ts 0 []) ts k in
  sameSpans (ls_store s) ts
  ∧ ls_roots s = filter (fun i => parentOf ts i = None) (seq 0 k)
  ∧ (∀ p, childSpansOf (ls_store s) p
          = filter (fun i => parentOf ts i = Some p) (seq 0 k))
  ∧ ls_visited s = seq 0 k
  ∧ ls_lookups s
    = length (filter (fun i => is_Some (ts !! i ≫= parentSpanId)) (seq 0 k)).
Proof.
  intros Hnil. induction k as [|k IH]; intros Hk.
  - simpl. repeat split; try done.
    intros p. unfold childSpansOf, deref.
    destruct (ts !! p) as [t|] eqn:Hp; [|done]. simpl.
    rewrite Forall_forall in Hnil. apply Hnil.
    eapply list_elem_of_lookup_2. exact Hp.
  - destruct IH as (Hsame & Hroots & Hchildren & Hvisited & Hlookups); [lia|].
    cbv zeta. rewrite linkPrefix_S.
    set (s := linkPrefix (indexSpans ts 0 []) ts k) in *.
    rewrite !filter_seq_S.
    assert (Hpar : parentOf ts k
                   = match ls_store s !! k ≫= parentSpanId with
                     | Some parentId => Map_get parentId (indexSpans ts 0 [])
                     | None => None
                     end).
    { unfold parentOf. by rewrite (sameSpans_parentSpanId _ _ _ Hsame). }
    rewrite <- (sameSpans_parentSpanId _ _ k Hsame).
    unfold linkStep.
    destruct (ls_store s !! k ≫= parentSpanId) as [parentId|] eqn:Hpid.
    + destruct (Map_get parentId (indexSpans ts 0 [])) as [p|] eqn:Hget;
        cbn [ls_store ls_roots ls_visited ls_lookups].
      * assert (Hp : p < length ts).
        { apply Map_get_indexSpans_Some in Hget as [?|?]; [lia|done]. }
        rewrite <- (sameSpans_length _ _ Hsame) in Hp.
        apply lookup_lt_is_Some in Hp as [tp Htp].
        rewrite (pushChild_eq _ _ _ _ Htp).
        split; [|split; [|split; [|split]]].
        -- eapply sameSpans_trans; [|exact Hsame]. by apply sameSpans_setChildSpans.
        -- rewrite Hroots. rewrite decide_False by (by rewrite Hpar).
           by rewrite app_nil_r.
        -- intros q. rewrite filter_seq_S.
           rewrite (childSpansOf_setChildSpans _ _ _ _ _ Htp).
           rewrite Hpar. destruct (decide (q = p)) as [->|Hq].
           ++ rewrite decide_True by done. f_equal.
              rewrite <- Hchildren. unfold childSpansOf, deref. by rewrite Htp.
           ++ rewrite decide_False by congruence.
              by rewrite app_nil_r.
        -- by rewrite Hvisited, seq_S.
        -- rewrite decide_True by (by eexists). rewrite length_app. simpl. lia.
      * split; [|split; [|split; [|split]]]; try done.
        -- rewrite Hroots. by rewrite decide_True.
        -- intros q. rewrite filter_seq_S, Hchildren, Hpar. rewrite decide_False by done.
           by rewrite app_nil_r.
        -- by rewrite Hvisited, seq_S.
        -- rewrite decide_True by (by eexists). rewrite length_app. simpl. lia.
    + cbn [ls_store ls_roots ls_visited ls_lookups].
      split; [|split; [|split; [|split]]]; try done.
      * rewrite Hroots. by rewrite decide_True.
      * intros q. rewrite filter_seq_S, Hchildren, Hpar. rewrite decide_False by done.
        by rewrite app_nil_r.
      * by rewrite Hvisited, seq_S.
      * rewrite decide_False by (by intros [? ?]). rewrite app_nil_r. lia.
Qed.

(** ** [Array.prototype.sort] *)

Section Sort.
Context {A : Type} (compareFn : A -> A -> option Z).

Lemma insertSorted_Permutation x l : insertSorted compareFn x l ≡ₚ x :: l.
Proof.
  induction l as [|y l IH]; simpl; [done|].
  destruct (0 <? sortCompare compareFn x y)%Z; [|done].
  rewrite IH. apply Permutation_swap.
Qed.

Lemma Array_sort_Permutation l : Array_sort compareFn l ≡ₚ l.
Proof.
  induction l as [|x l IH]; simpl; [done|].
  rewrite insertSorted_Permutation. by rewrite IH.
Qed.

(** Elements that never compare strictly greater than a later element are
    left where they are: in particular a list whose comparisons are all
    NaN or zero. *)
Lemma Array_sort_unchanged l :
  (∀ a b, a ∈ l -> b ∈ l -> (sortCompare compareFn a b <= 0)%Z) ->
  Array_sort compareFn l = l.
Proof.
  induction l as [|x l IH]; intros Hle; simpl; [done|].
  rewrite IH by (intros a b Ha Hb; apply Hle; by right).
  destruct l as [|y l]; simpl; [done|].
  replace (0 <? sortCompare compareFn x y)%Z with false; [done|].
  symmetry. apply Z.ltb_ge. apply Hle; [left|right; left].
Qed.

(** When the comparator is the difference of a key on the elements of the
    list, the result is in non-decreasing order of the key. *)
Lemma insertSorted_sorted (key : A -> Z) x l :
  (∀ b, b ∈ l -> compareFn x b = Some (key x - key b)%Z) ->
  StronglySorted (fun a b => (key a <= key b)%Z) l ->
  StronglySorted (fun a b => (key a <= key b)%Z) (insertSorted compareFn x l).
Proof.
  induction l as [|y l IH]; intros Hcmp Hs; simpl.
  - repeat constructor.
  - apply StronglySorted_inv in Hs as [Hs Hy].
    unfold sortCompare. rewrite Hcmp by left. simpl.
    destruct (0 <? key x - key y)%Z eqn:Hlt.
    + apply Z.ltb_lt in Hlt. constructor.
      * apply IH; [|done]. intros b Hb. apply Hcmp. by right.
      * rewrite insertSorted_Permutation. constructor; [lia|done].
    + apply Z.ltb_ge in Hlt. constructor; [by constructor|].
      constructor; [lia|].
      eapply Forall_impl; [exact Hy|]. simpl. intros; lia.
Qed.

Lemma Array_sort_sorted (key : A -> Z) l :
  (∀ a b, a ∈ l -> b ∈ l -> compareFn a b = Some (key a - key b)%Z) ->
  StronglySorted (fun a b => (key a <= key b)%Z) (Array_sort compareFn l).
Proof.
  induction l as [|x l IH]; intros Hcmp; simpl; [constructor|].
  apply insertSorted_sorted.
  - intros b Hb. rewrite Array_sort_Permutation in Hb.
    apply Hcmp; [left|by right].
  - apply IH. intros a b Ha Hb. apply Hcmp; by right.
Qed.
End Sort.

Lemma Array_sort_ext {A} (f g : A -> A -> option Z) l :
  (∀ a b, f a b = g a b) -> Array_sort f l = Array_sort g l.
Proof.
  intros Hfg. induction l as [|x l IH]; simpl; [done|]. rewrite IH.
  generalize (Array_sort g l). intros k.
  induction k as [|y k IHk]; simpl; [done|].
  unfold sortCompare. by rewrite Hfg, IHk.
Qed.

Lemma StronglySorted_lookup_le {A} (key : A -> Z) l i j a b :
  StronglySorted (fun a b => (key a <= key b)%Z) l ->
  i < j -> l !! i = Some a -> l !! j = Some b -> (key a <= key b)%Z.
Proof.
  intros Hs. revert i j. induction Hs as [|x l Hs IH Hx]; intros i j Hij Hi Hj.
  - done.
  - destruct j as [|j]; [lia|]. simpl in Hj.
    destruct i as [|i]; simpl in Hi.
    + injection Hi as ->. rewrite Forall_forall in Hx. apply Hx.
      by eapply list_elem_of_lookup_2.
    + apply (IH i j); [lia|done..].
Qed.

(** ** The sort pass *)

Section SortPass.
Variable Date_parse : string -> option Z.

Lemma compareStartTime_ext st st' a b :
  sameSpans st st' ->
  compareStartTime Date_parse st a b = compareStartTime Date_parse st' a b.
Proof.
  intros H. unfold compareStartTime.
  by rewrite !(sameSpans_startTimeOf _ _ _ H).
Qed.

Lemma sortPrefix_S st k :
  sortPrefix Date_parse st (S k) = sortStep Date_parse (sortPrefix Date_parse st k) k.
Proof. unfold sortPrefix. by rewrite seq_S, foldl_snoc. Qed.

Lemma sortPrefix_spec st k :
  sameSpans (sortPrefix Date_parse st k) st
  ∧ ∀ p, childSpansOf (sortPrefix Date_parse st k) p
         = if decide (p < k)
           then Array_sort (compareStartTime Date_parse st) (childSpansOf st p)
           else childSpansOf st p.
Proof.
  induction k as [|k [Hsame Hchildren]].
  - split; [apply sameSpans_refl|]. intros p. by rewrite decide_False by lia.
  - rewrite sortPrefix_S. set (st' := sortPrefix Date_parse st k) in *.
    unfold sortStep, deref.
    destruct (st' !! k) as [t|] eqn:Ht.
    + assert (Hcs : childSpans t = childSpansOf st k).
      { specialize (Hchildren k). rewrite decide_False in Hchildren by lia.
        rewrite <- Hchildren. unfold childSpansOf, deref. by rewrite Ht. }
      destruct (0 <? length (childSpans t))%nat eqn:Hlen.
      * split.
        -- eapply sameSpans_trans; [|exact Hsame]. by apply sameSpans_setChildSpans.
        -- intros p. rewrite (childSpansOf_setChildSpans _ _ _ _ _ Ht).
           rewrite Hchildren.
           destruct (decide (p = k)) as [->|Hne].
           ++ rewrite decide_True by lia. rewrite Hcs.
              apply Array_sort_ext. intros a b. by apply compareStartTime_ext.
           ++ destruct (decide (p < k)); [by rewrite decide_True by lia|].
              by rewrite decide_False by lia.
      * split; [done|]. intros p. rewrite Hchildren.
        destruct (decide (p = k)) as [->|Hne].
        -- rewrite decide_False by lia. rewrite decide_True by lia.
           apply Nat.ltb_ge in Hlen. rewrite <- Hcs.
           destruct (childSpans t); [done|simpl in Hlen; lia].
        -- destruct (decide (p < k)); [by rewrite decide_True by lia|].
           by rewrite decide_False by lia.
    + split; [done|]. intros p. rewrite Hchildren.
      destruct (decide (p = k)) as [->|Hne].
      * rewrite decide_False by lia. rewrite decide_True by lia.
        specialize (Hchildren k). rewrite decide_False in Hchildren by lia.
        rewrite <- Hchildren. unfold childSpansOf, deref. by rewrite Ht.
      * destruct (decide (p < k)); [by rewrite decide_True by lia|].
        by rewrite decide_False by lia.
Qed.

Lemma sortPass_spec st :
  sameSpans (sortPass Date_parse st) st
  ∧ ∀ p, childSpansOf (sortPass Date_parse st) p
         = Array_sort (compareStartTime Date_parse st) (childSpansOf st p).
Proof.
  destruct (sortPrefix_spec st (length st)) as [Hsame Hchildren].
  split; [exact Hsame|]. intros p.
  change (sortPass Date_parse st) with (sortPrefix Date_parse st (length st)).
  rewrite Hchildren. destruct (decide (p < length st)) as [|Hge]; [done|].
  unfold childSpansOf, deref. rewrite lookup_ge_None_2 by lia. done.
Qed.
End SortPass.

(** ** What [buildTraceHierarchy] returns *)

Lemma linked_intro st roots (cmp : nat -> nat -> option Z) :
  roots = filter (fun i => parentOf st i = None) (seq 0 (length st)) ->
  (∀ p, childSpansOf st p
        = Array_sort cmp (filter (fun i => parentOf st i = Some p) (seq 0 (length st)))) ->
  linked st roots.
Proof.
  intros -> Hchildren. split; [|split; [|split]].
  - apply NoDup_filter, NoDup_seq.
  - intros i. rewrite list_elem_of_filter, elem_of_seq. split; [intros [? ?]|intros [? ?]]; split; done || lia.
  - intros p. rewrite Hchildren, Array_sort_Permutation.
    apply NoDup_filter, NoDup_seq.
  - intros p c. rewrite Hchildren, Array_sort_Permutation.
    rewrite list_elem_of_filter, elem_of_seq. split.
    + intros [Hp ?]. split; [by eapply parentOf_lt|]. split; [lia|done].
    + intros (_ & ? & ?). split; [done|lia].
Qed.

Section Build.
Variable Date_parse : string -> option Z.

Lemma build_inv fuel pid tid spans st td :
  buildTraceHierarchy Date_parse fuel pid tid spans = Ok (st, td) ->
  ∃ ts totals,
    convertSpans spans 0 [] = Ok (ts, indexSpans ts 0 [])
    ∧ Forall2 (fun span t => convertSpan span = Ok t) spans ts
    ∧ st = sortPass Date_parse (ls_store (linkPass (indexSpans ts 0 []) ts))
    ∧ td = {| traceId := tid; projectId := pid;
              rootSpans := ls_roots (linkPass (indexSpans ts 0 []) ts);
              allSpans := seq 0 (length ts) |}
    ∧ logRoots fuel st (rootSpans td) = Ok totals.
Proof.
  unfold buildTraceHierarchy.
  destruct (match spans with first :: _ => Object_keys first | [] => Ok [] end);
    simpl; try discriminate.
  destruct (convertSpans spans 0 []) as [[ts m]| |] eqn:Hconv; simpl; try discriminate.
  destruct (convertSpans_spec _ _ _ _ _ Hconv) as [Hall ->].
  destruct (logRoots fuel _ _) as [totals| |] eqn:Hlog; simpl; try discriminate.
  intros [= <- <-]. exists ts, totals. repeat split; done.
Qed.

Lemma converted_no_children spans ts :
  Forall2 (fun span t => convertSpan span = Ok t) spans ts ->
  Forall (fun t => childSpans t = []) ts.
Proof.
  induction 1 as [|span t spans ts Ht _ IH]; constructor; [|done].
  by apply convertSpan_fields in Ht as (_ & _ & _ & ?).
Qed.

(** The store and the roots after the link and sort passes, in terms of
    the converted spans. *)
Lemma passes_spec ts :
  Forall (fun t => childSpans t = []) ts ->
  let linkedState := linkPass (indexSpans ts 0 []) ts in
  let st := sortPass Date_parse (ls_store linkedState) in
  sameSpans st ts
  ∧ ls_roots linkedState = filter (fun i => parentOf st i = None) (seq 0 (length st))
  ∧ (∀ p, childSpansOf st p
          = Array_sort (compareStartTime Date_parse st)
              (filter (fun i => parentOf st i = Some p) (seq 0 (length st))))
  ∧ ls_visited linkedState = seq 0 (length ts)
  ∧ ls_lookups linkedState <= length ts.
Proof.
  intros Hnil linkedState st.
  destruct (linkPrefix_spec ts (length ts) Hnil (le_n _))
    as (Hsame & Hroots & Hchildren & Hvisited & Hlookups).
  change (linkPrefix (indexSpans ts 0 []) ts (length ts)) with linkedState in *.
  destruct (sortPass_spec Date_parse (ls_store linkedState)) as [Hsame' Hsorted].
  fold st in Hsame', Hsorted.
  assert (Hst : sameSpans st ts) by (eapply sameSpans_trans; eauto).
  assert (Hpar : ∀ i, parentOf st i = parentOf ts i)
    by (intros i; by apply sameSpans_parentOf).
  assert (Hlen : length st = length ts) by by apply sameSpans_length.
  split; [done|]. split; [|split; [|split]].
  - rewrite Hroots, Hlen. apply list_filter_iff. intros i. by rewrite Hpar.
  - intros p. rewrite Hsorted, Hchildren, Hlen.
    rewrite (Array_sort_ext _ (compareStartTime Date_parse st)).
    + f_equal. apply list_filter_iff. intros i. by rewrite Hpar.
    + intros a b. symmetry. by apply compareStartTime_ext.
  - done.
  - rewrite Hlookups.
    etrans; [apply length_filter|]. by rewrite length_seq.
Qed.

Lemma build_spec fuel pid tid spans st td :
  buildTraceHierarchy Date_parse fuel pid tid spans = Ok (st, td) ->
  length st = length spans
  ∧ allSpans td = seq 0 (length spans)
  ∧ rootSpans td = filter (fun i => parentOf st i = None) (seq 0 (length st))
  ∧ (∀ p, childSpansOf st p
          = Array_sort (compareStartTime Date_parse st)
              (filter (fun i => parentOf st i = Some p) (seq 0 (length st))))
  ∧ Forall2 (fun span t => convertSpan span = Ok (eraseChildren t)) spans st
  ∧ linked st (rootSpans td).
Proof.
  intros (ts & totals & _ & Hall & -> & -> & _)%build_inv.
  destruct (passes_spec ts (converted_no_children _ _ Hall))
    as (Hsame & Hroots & Hchildren & _).
  set (st := sortPass Date_parse _) in *. simpl.
  assert (Hlen : length st = length spans).
  { rewrite (sameSpans_length _ _ Hsame). symmetry. by eapply Forall2_length. }
  split; [done|]. split; [by rewrite <- (Forall2_length _ _ _ Hall)|].
  split; [done|]. split; [done|]. split.
  - unfold sameSpans in Hsame.
    assert (Hts : eraseChildren <$> ts = ts).
    { clear -Hall. induction Hall as [|span t spans ts Ht _ IH]; [done|].
      rewrite fmap_cons, IH. f_equal.
      apply convertSpan_fields in Ht as (_ & _ & _ & Hc).
      destruct t. simpl in Hc. by subst. }
    rewrite Hts in Hsame. rewrite <- Hsame in Hall.
    by apply Forall2_fmap_r in Hall.
  - by eapply linked_intro.
Qed.
End Build.

(** ** The forest under the roots *)

Lemma tc_inv_last {A} (R : relation A) x z :
  tc R x z -> ∃ y, rtc R x y ∧ R y z.
Proof.
  induction 1 as [x z H|x y z H _ (y' & Hrtc & Hlast)].
  - exists x. split; [apply rtc_refl|done].
  - exists y'. split; [by eapply rtc_l|done].
Qed.

Section Forest.
Variables (st : Store) (roots : list nat).
Hypothesis Hlinked : linked st roots.

Lemma child_parent p c :
  child st p c ↔ p < length st ∧ c < length st ∧ parentOf st c = Some p.
Proof. destruct Hlinked as (_ & _ & _ & H). apply H. Qed.

Lemma child_unique p p' c : child st p c -> child st p' c -> p = p'.
Proof. rewrite !child_parent. intros (_ & _ & H) (_ & _ & H'). congruence. Qed.

Lemma root_lt r : r ∈ roots -> r < length st.
Proof. destruct Hlinked as (_ & H & _). rewrite H. tauto. Qed.

Lemma root_no_parent r p : r ∈ roots -> ¬ child st p r.
Proof.
  destruct Hlinked as (_ & H & _). rewrite H, child_parent.
  intros [_ Hr] (_ & _ & Hp). congruence.
Qed.

Lemma not_root_has_parent i :
  i < length st -> i ∉ roots -> ∃ p, child st p i.
Proof.
  destruct Hlinked as (_ & H & _). rewrite H. intros Hi Hnot.
  destruct (parentOf st i) as [p|] eqn:Hp; [|tauto].
  exists p. apply child_parent. split; [by eapply parentOf_lt|done].
Qed.

(** A span on a cycle has its parent on the same cycle. *)
Lemma cycle_up p i : descendant st i i -> child st p i -> descendant st p p.
Proof.
  intros (y & Hrtc & Hlast)%tc_inv_last Hp.
  rewrite (child_unique _ _ _ Hp Hlast).
  eapply tc_rtc_r; [by apply tc_once|done].
Qed.

Lemma underRoots_acyclic i : underRoots st roots i -> ¬ descendant st i i.
Proof.
  intros (r & Hr & Hrtc). revert i Hrtc.
  apply (rtc_ind_r (fun i => ¬ descendant st i i) r).
  - intros (y & _ & Hlast)%tc_inv_last. by eapply root_no_parent.
  - intros y z Hrtc Hchild IH Hcycle. apply IH. by eapply cycle_up.
Qed.

Lemma ancestors_underRoots i l : ancestors st roots i l -> underRoots st roots i.
Proof.
  induction 1 as [r Hr|p c l _ (r & Hr & Hrtc) Hchild].
  - exists r. split; [done|apply rtc_refl].
  - exists r. split; [done|]. by eapply rtc_r.
Qed.

Lemma ancestors_descendant i l x :
  ancestors st roots i l -> x ∈ l -> descendant st x i.
Proof.
  induction 1 as [r Hr|p c l _ IH Hchild]; [by intros ?%elem_of_nil|].
  intros [->|Hx]%elem_of_cons; [by apply tc_once|].
  eapply tc_r; [by apply IH|done].
Qed.

Lemma ancestors_lt i l : ancestors st roots i l -> Forall (fun x => x < length st) (i :: l).
Proof.
  induction 1 as [r Hr|p c l _ IH Hchild].
  - repeat constructor. by apply root_lt.
  - constructor; [|done]. apply child_parent in Hchild. tauto.
Qed.

Lemma ancestors_NoDup i l : ancestors st roots i l -> NoDup (i :: l).
Proof.
  induction 1 as [r Hr|p c l Hanc IH Hchild].
  - apply NoDup_singleton.
  - constructor; [|done]. intros Hc.
    apply (underRoots_acyclic c).
    + eapply ancestors_underRoots. by econstructor.
    + apply elem_of_cons in Hc as [->|Hc]; [by apply tc_once|].
      eapply tc_r; [|done]. by eapply ancestors_descendant.
Qed.

(** No chain of ancestors is longer than the number of spans. *)
Lemma ancestors_length i l : ancestors st roots i l -> length (i :: l) <= length st.
Proof.
  intros H. rewrite <- (length_seq (length st) 0).
  apply submseteq_length, NoDup_submseteq; [by apply ancestors_NoDup|].
  intros x Hx. apply elem_of_seq.
  apply ancestors_lt in H. rewrite Forall_forall in H. specialize (H x Hx). lia.
Qed.

(** *** [countDescendants] returns *)

Lemma foldl_count_Ok (g : nat -> outcome nat) l : ∀ a,
  (∀ c, c ∈ l -> ∃ k, g c = Ok k) ->
  ∃ total, foldl (fun total child => do n <- total; do k <- g child; Ok (n + k))
                 (Ok a) l = Ok total.
Proof.
  induction l as [|c l IH]; intros a Hl; simpl; [by eexists|].
  destruct (Hl c) as [k Hk]; [left|]. rewrite Hk. simpl.
  apply IH. intros c' Hc'. apply Hl. by right.
Qed.

Lemma countDescendants_returns fuel : ∀ i l,
  ancestors st roots i l ->
  length st < fuel + length (i :: l) ->
  ∃ total, countDescendants fuel st i = Ok total.
Proof.
  induction fuel as [|fuel IH]; intros i l Hanc Hfuel.
  - apply ancestors_length in Hanc. lia.
  - simpl. apply foldl_count_Ok. intros c Hc.
    apply (IH c (i :: l)); [by econstructor|]. simpl in *. lia.
Qed.

Lemma logRoots_returns fuel l :
  length st <= fuel -> (∀ r, r ∈ l -> r ∈ roots) ->
  ∃ totals, logRoots fuel st l = Ok totals.
Proof.
  intros Hfuel. induction l as [|r l IH]; intros Hl; simpl; [by eexists|].
  destruct (countDescendants_returns fuel r []) as [total ->].
  { constructor. apply Hl. left. }
  { simpl. lia. }
  destruct IH as [totals ->]; [intros r' Hr'; apply Hl; by right|].
  simpl. by eexists.
Qed.
End Forest.

(** ** The spans of the forest *)

Lemma concatM_inv {A B} (g : A -> outcome (list B)) l r :
  concatM g l = Ok r ->
  (∀ x, x ∈ l -> ∃ a, g x = Ok a ∧ ∀ y, y ∈ a -> y ∈ r)
  ∧ (∀ y, y ∈ r -> ∃ x a, x ∈ l ∧ g x = Ok a ∧ y ∈ a).
Proof.
  revert r. induction l as [|x l IH]; intros r; simpl.
  - intros [= <-]. split; [by intros ? ?%elem_of_nil|by intros ? ?%elem_of_nil].
  - destruct (g x) as [a| |] eqn:Hx; simpl; try discriminate.
    destruct (concatM g l) as [b| |] eqn:Hl; simpl; try discriminate.
    intros [= <-]. destruct (IH b eq_refl) as [IH1 IH2]. split.
    + intros x' [->|Hx']%elem_of_cons.
      * exists a. split; [done|]. intros y Hy. apply elem_of_app. by left.
      * destruct (IH1 x' Hx') as (a' & Ha' & Hsub). exists a'. split; [done|].
        intros y Hy. apply elem_of_app. right. by apply Hsub.
    + intros y [Hy|Hy]%elem_of_app.
      * exists x, a. split; [left|done].
      * destruct (IH2 y Hy) as (x' & a' & Hx' & Ha' & Hy').
        exists x', a'. split; [by right|done].
Qed.

Lemma concatM_returns {A B} (g : A -> outcome (list B)) l :
  (∀ x, x ∈ l -> ∃ a, g x = Ok a) -> ∃ r, concatM g l = Ok r.
Proof.
  induction l as [|x l IH]; intros Hl; simpl; [by eexists|].
  destruct (Hl x) as [a ->]; [left|].
  destruct IH as [b ->]; [intros x' Hx'; apply Hl; by right|].
  simpl. by eexists.
Qed.

Lemma concatM_NoDup {A B} (g : A -> outcome (list B)) l r :
  NoDup l ->
  (∀ x a, x ∈ l -> g x = Ok a -> NoDup a) ->
  (∀ x1 x2 a1 a2 y, x1 ∈ l -> x2 ∈ l -> g x1 = Ok a1 -> g x2 = Ok a2 ->
                    y ∈ a1 -> y ∈ a2 -> x1 = x2) ->
  concatM g l = Ok r -> NoDup r.
Proof.
  intros Hnd. revert r. induction Hnd as [|x l Hx Hnd IH]; intros r Heach Hdisj; simpl.
  - intros [= <-]. constructor.
  - destruct (g x) as [a| |] eqn:Hgx; simpl; try discriminate.
    destruct (concatM g l) as [b| |] eqn:Hl; simpl; try discriminate.
    intros [= <-]. apply NoDup_app. split; [|split].
    + apply (Heach x); [left|done].
    + intros y Hya Hyb.
      destruct (concatM_inv _ _ _ Hl) as [_ Hfrom].
      destruct (Hfrom y Hyb) as (x' & a' & Hx' & Ha' & Hy').
      apply Hx. rewrite (Hdisj x x' a a' y); try done; [left|by right].
    + apply IH; [|by intros; eapply Hdisj; eauto; by right|done].
      intros x' a' Hx' Ha'. apply (Heach x'); [by right|done].
Qed.

Section ForestSpans.
Variables (st : Store) (roots : list nat).
Hypothesis Hlinked : linked st roots.

Lemma treeSpans_elem fuel : ∀ i r x,
  treeSpans fuel st i = Ok r -> x ∈ r ↔ rtc (child st) i x.
Proof.
  induction fuel as [|fuel IH]; intros i r x; simpl; [discriminate|].
  destruct (concatM _ _) as [below| |] eqn:Hbelow; simpl; try discriminate.
  intros [= <-]. destruct (concatM_inv _ _ _ Hbelow) as [Hto Hfrom]. split.
  - intros [->|Hx]%elem_of_cons; [apply rtc_refl|].
    destruct (Hfrom x Hx) as (c & a & Hc & Ha & Hxa).
    eapply rtc_l; [exact Hc|]. by apply (IH c a x).
  - intros [->|(c & Hc & Hrtc)]%rtc_inv; [left|]. right.
    destruct (Hto c Hc) as (a & Ha & Hsub). apply Hsub. by apply (IH c a x).
Qed.

Lemma treeSpans_returns fuel : ∀ i l,
  ancestors st roots i l ->
  length st < fuel + length (i :: l) ->
  ∃ r, treeSpans fuel st i = Ok r.
Proof.
  induction fuel as [|fuel IH]; intros i l Hanc Hfuel.
  - apply (ancestors_length st roots Hlinked) in Hanc. lia.
  - simpl. destruct (concatM_returns (treeSpans fuel st) (childSpansOf st i)) as [below ->].
    + intros c Hc. apply (IH c (i :: l)); [by econstructor|]. simpl in *. lia.
    + simpl. by eexists.
Qed.

(** Two spans above the same span are one above the other. *)
Lemma ancestors_comparable a b x :
  rtc (child st) a x -> rtc (child st) b x ->
  rtc (child st) a b ∨ rtc (child st) b a.
Proof.
  intros Ha. revert x Ha b.
  apply (rtc_ind_r (fun x => ∀ b, rtc (child st) b x ->
                              rtc (child st) a b ∨ rtc (child st) b a) a).
  - intros b Hb. by right.
  - intros y z Hay Hyz IH b [->|(y' & Hby' & Hy'z)]%rtc_inv_r.
    + left. by eapply rtc_r.
    + rewrite (child_unique st roots Hlinked _ _ _ Hy'z Hyz) in Hby'. by apply IH.
Qed.

(** Distinct children of a span under the roots head disjoint trees, and so
    do distinct roots. *)
Lemma siblings_disjoint p c1 c2 x :
  underRoots st roots p -> child st p c1 -> child st p c2 ->
  rtc (child st) c1 x -> rtc (child st) c2 x -> c1 = c2.
Proof.
  intros Hp H1 H2 Hx1 Hx2.
  assert (Hup : ∀ c c', child st p c -> child st p c' -> rtc (child st) c c' -> c = c').
  { intros c c' Hc Hc' [->|Htc]%rtc_tc; [done|].
    apply tc_inv_last in Htc as (y & Hcy & Hyc').
    rewrite (child_unique st roots Hlinked _ _ _ Hyc' Hc') in Hcy.
    destruct (underRoots_acyclic st roots Hlinked p Hp).
    eapply tc_rtc_r; [apply tc_once; exact Hc|exact Hcy]. }
  destruct (ancestors_comparable c1 c2 x Hx1 Hx2) as [H|H]; [by apply Hup|].
  symmetry. by apply Hup.
Qed.

Lemma roots_disjoint r1 r2 x :
  r1 ∈ roots -> r2 ∈ roots ->
  rtc (child st) r1 x -> rtc (child st) r2 x -> r1 = r2.
Proof.
  intros Hr1 Hr2 Hx1 Hx2.
  assert (Hup : ∀ r r', r' ∈ roots -> rtc (child st) r r' -> r = r').
  { intros r r' Hr' [->|Htc]%rtc_tc; [done|].
    apply tc_inv_last in Htc as (y & _ & Hy).
    by destruct (root_no_parent st roots Hlinked r' y). }
  destruct (ancestors_comparable r1 r2 x Hx1 Hx2) as [H|H]; [by apply Hup|].
  symmetry. by apply Hup.
Qed.

Lemma treeSpans_NoDup fuel : ∀ i l r,
  ancestors st roots i l -> treeSpans fuel st i = Ok r -> NoDup r.
Proof.
  induction fuel as [|fuel IH]; intros i l r Hanc; simpl; [discriminate|].
  destruct (concatM _ _) as [below| |] eqn:Hbelow; simpl; try discriminate.
  intros [= <-].
  assert (Hi : underRoots st roots i) by by eapply ancestors_underRoots.
  constructor.
  - intros Hin. destruct (concatM_inv _ _ _ Hbelow) as [_ Hfrom].
    destruct (Hfrom i Hin) as (c & a & Hc & Ha & Hia).
    apply (treeSpans_elem fuel c a i Ha) in Hia.
    destruct (underRoots_acyclic st roots Hlinked i Hi).
    eapply tc_rtc_r; [apply tc_once; exact Hc|exact Hia].
  - eapply concatM_NoDup; [| | |exact Hbelow].
    + destruct Hlinked as (_ & _ & H & _). apply H.
    + intros c a Hc Ha. apply (IH c (i :: l) a); [by econstructor|done].
    + intros c1 c2 a1 a2 y Hc1 Hc2 Ha1 Ha2 Hy1 Hy2.
      apply (siblings_disjoint i c1 c2 y Hi Hc1 Hc2).
      * by apply (treeSpans_elem fuel c1 a1 y Ha1).
      * by apply (treeSpans_elem fuel c2 a2 y Ha2).
Qed.

Lemma underRoots_lt i : underRoots st roots i -> i < length st.
Proof.
  intros (r & Hr & [->|(y & _ & Hy)]%rtc_inv_r).
  - by eapply root_lt.
  - apply (child_parent st roots Hlinked) in Hy. tauto.
Qed.

Lemma reachesRoot_underRoots fuel : ∀ i,
  i < length st -> reachesRoot fuel st i = true -> underRoots st roots i.
Proof.
  induction fuel as [|fuel IH]; intros i Hi; simpl; [discriminate|].
  destruct (parentOf st i) as [p|] eqn:Hp.
  - intros Hreach. assert (Hlt : p < length st) by by eapply parentOf_lt.
    destruct (IH p Hlt Hreach) as (r & Hr & Hrtc).
    exists r. split; [done|]. eapply rtc_r; [done|].
    by apply (child_parent st roots Hlinked).
  - intros _. exists i. split; [|apply rtc_refl].
    destruct Hlinked as (_ & H & _). by apply H.
Qed.

(** The forest under the roots: the traversal returns, lists no span
    twice, and lists exactly the spans under the roots. *)
Lemma forestSpans_spec fuel :
  length st <= fuel ->
  ∃ tree, forestSpans fuel st roots = Ok tree
          ∧ NoDup tree
          ∧ ∀ x, x ∈ tree ↔ underRoots st roots x.
Proof.
  intros Hfuel.
  assert (Hret : ∀ r, r ∈ roots -> ∃ a, treeSpans fuel st r = Ok a).
  { intros r Hr. apply (treeSpans_returns fuel r []); [by constructor|simpl; lia]. }
  destruct (concatM_returns (treeSpans fuel st) roots Hret) as [tree Htree].
  exists tree. split; [done|].
  destruct (concatM_inv _ _ _ Htree) as [Hto Hfrom]. split.
  - eapply concatM_NoDup; [| | |exact Htree].
    + by destruct Hlinked.
    + intros r a Hr Ha. apply (treeSpans_NoDup fuel r [] a); [by constructor|done].
    + intros r1 r2 a1 a2 y Hr1 Hr2 Ha1 Ha2 Hy1 Hy2.
      apply (roots_disjoint r1 r2 y Hr1 Hr2).
      * by apply (treeSpans_elem fuel r1 a1 y Ha1).
      * by apply (treeSpans_elem fuel r2 a2 y Ha2).
  - intros x. split.
    + intros Hx. destruct (Hfrom x Hx) as (r & a & Hr & Ha & Hxa).
      exists r. split; [done|]. by apply (treeSpans_elem fuel r a x Ha).
    + intros (r & Hr & Hrtc). destruct (Hto r Hr) as (a & Ha & Hsub).
      apply Hsub. by apply (treeSpans_elem fuel r a x Ha).
Qed.

Lemma forestSpans_complete fuel :
  length st <= fuel -> acyclicParents st = true ->
  ∃ tree, forestSpans fuel st roots = Ok tree ∧ tree ≡ₚ seq 0 (length st).
Proof.
  intros Hfuel Hacyclic.
  destruct (forestSpans_spec fuel Hfuel) as (tree & Htree & Hnd & Helem).
  exists tree. split; [done|].
  apply NoDup_Permutation; [done|apply NoDup_seq|].
  intros x. rewrite Helem, elem_of_seq. split.
  - intros Hx%underRoots_lt. lia.
  - intros [_ Hx]. simpl in Hx.
    apply (reachesRoot_underRoots (length st)); [done|].
    unfold acyclicParents in Hacyclic. rewrite forallb_forall in Hacyclic.
    apply Hacyclic. apply list_elem_of_In, elem_of_seq. lia.
Qed.
End ForestSpans.

(** ** Where the builder can throw *)

Lemma convertSpans_throws spans : ∀ index m e,
  convertSpans spans index m = Throw e ->
  ∃ span e', span ∈ spans ∧ convertSpan span = Throw e'.
Proof.
  induction spans as [|span spans IH]; intros index m e; simpl; [discriminate|].
  destruct (convertSpan span) as [t|e'|] eqn:Ht; simpl.
  - destruct (convertSpans spans (S index) _) as [r|e'|] eqn:Hr; simpl; try discriminate.
    intros _. destruct (IH _ _ _ Hr) as (span' & e'' & Hin & Hthrow).
    exists span', e''. split; [by right|done].
  - intros _. exists span, e'. split; [left|done].
  - discriminate.
Qed.

Lemma foldl_count_no_throw (g : nat -> outcome nat) l : ∀ acc e,
  (∀ e', acc ≠ Throw e') -> (∀ c e', g c ≠ Throw e') ->
  foldl (fun total child => do n <- total; do k <- g child; Ok (n + k)) acc l ≠ Throw e.
Proof.
  induction l as [|c l IH]; intros acc e Hacc Hg; simpl; [apply Hacc|].
  apply IH; [|done]. intros e'.
  destruct acc as [n|e''|]; simpl; [|by destruct (Hacc e'')|discriminate].
  destruct (g c) as [k|e''|] eqn:Hc; simpl; [discriminate|by destruct (Hg c e'')|discriminate].
Qed.

Lemma countDescendants_no_throw fuel : ∀ st i e, countDescendants fuel st i ≠ Throw e.
Proof.
  induction fuel as [|fuel IH]; intros st i e; simpl; [discriminate|].
  apply foldl_count_no_throw; [discriminate|]. intros c e'. apply IH.
Qed.

Lemma logRoots_no_throw fuel st roots e : logRoots fuel st roots ≠ Throw e.
Proof.
  revert e. induction roots as [|r roots IH]; intros e; simpl; [discriminate|].
  destruct (countDescendants fuel st r) as [n|e'|] eqn:Hr; simpl;
    [|by destruct (countDescendants_no_throw fuel st r e')|discriminate].
  destruct (logRoots fuel st roots) as [ns|e'|] eqn:Hrs; simpl;
    [discriminate|by destruct (IH e')|discriminate].
Qed.

(** * The claims about the hierarchy builder *)

Section Claims.
Variable Date_parse : string -> option Z.

Lemma falsy_ne_truthy a b :
  ToBoolean a = false -> ToBoolean b = true -> sameValueZero a b = false.
Proof.
  destruct a, b; simpl; try done.
  - by intros -> ->.
  - intros Ha Hb. apply negb_false_iff, Z.eqb_eq in Ha as ->.
    apply negb_true_iff in Hb. by rewrite Z.eqb_sym.
  - intros Ha Hb. apply negb_false_iff, String.eqb_eq in Ha as ->.
    apply negb_true_iff in Hb. by rewrite String.eqb_sym.
Qed.

Lemma spanId_matches raw parentId :
  ToBoolean parentId = true ->
  sameValueZero (or raw (Str "")) parentId = sameValueZero raw parentId.
Proof.
  intros Hp. unfold or. destruct (ToBoolean raw) eqn:Hraw; [done|].
  by rewrite !falsy_ne_truthy.
Qed.

(** C3. Root correctness.  A span is in [rootSpans] exactly when its
    [parentSpanId] is empty or absent (falsy), or no span of the input has
    that value as its [spanId]. *)
Theorem root_correctness fuel pid tid spans st td :
  buildTraceHierarchy Date_parse fuel pid tid spans = Ok (st, td) ->
  ∀ i span, spans !! i = Some span ->
    i ∈ rootSpans td
    ↔ (ToBoolean (prop span "parentSpanId") = false
       ∨ (∀ j other, spans !! j = Some other ->
            sameValueZero (prop other "spanId") (prop span "parentSpanId") = false)).
Proof.
  intros (Hlen & _ & Hroots & _ & Hall & _)%build_spec i span Hi.
  rewrite Hroots, list_elem_of_filter, elem_of_seq.
  destruct (Forall2_lookup_l _ _ _ _ _ Hall Hi) as (t & Ht & Hconv).
  apply convertSpan_fields in Hconv as (_ & Hparent & _). simpl in Hparent.
  assert (Hlt : i < length st) by by eapply lookup_lt_Some.
  unfold parentOf. rewrite Ht. simpl. rewrite Hparent.
  destruct (ToBoolean (prop span "parentSpanId")) eqn:Htruthy.
  - rewrite Map_get_indexSpans_None. split.
    + intros [[_ Hnone] _]. right. intros j other Hj.
      destruct (Forall2_lookup_l _ _ _ _ _ Hall Hj) as (t' & Ht' & Hconv').
      apply convertSpan_fields in Hconv' as (Hid & _). simpl in Hid.
      rewrite <- (spanId_matches _ _ Htruthy), <- Hid.
      apply Hnone. by eapply list_elem_of_lookup_2.
    + intros [?|Hnone]; [done|]. split; [|lia]. split; [done|].
      intros t' (j & Hj)%list_elem_of_lookup.
      destruct (Forall2_lookup_r _ _ _ _ _ Hall Hj) as (other & Hother & Hconv').
      apply convertSpan_fields in Hconv' as (Hid & _). simpl in Hid.
      rewrite Hid, (spanId_matches _ _ Htruthy). by eapply Hnone.
  - split; [by left|]. intros _. split; [done|lia].
Qed.

(** C2, amended.  No span that is in [rootSpans] or is a descendant of a
    span in [rootSpans] is its own descendant.  (Spans whose parent
    references form a cycle are each other's children, so they are their own
    descendants; they are under no root.) *)
Theorem spans_under_roots_acyclic fuel pid tid spans st td :
  buildTraceHierarchy Date_parse fuel pid tid spans = Ok (st, td) ->
  ∀ i, underRoots st (rootSpans td) i -> ¬ descendant st i i.
Proof.
  intros (_ & _ & _ & _ & _ & Hlinked)%build_spec i.
  by apply (underRoots_acyclic st (rootSpans td) Hlinked).
Qed.

(** C8. Termination.  With fuel for one nested call of [countDescendants]
    per input span, [buildTraceHierarchy] returns or throws on every input,
    cyclic or not: it never runs out of fuel.  Each step of the link loop
    visits one span and makes at most one span-map lookup; when the
    conversion succeeds, the link pass visits the spans [0 .. n-1] once
    each, in order, makes at most [n] lookups, and [countDescendants]
    returns for every root. *)
Theorem builder_terminates fuel pid tid spans :
  length spans <= fuel ->
  buildTraceHierarchy Date_parse fuel pid tid spans ≠ OutOfFuel
  ∧ (∀ m s i, ls_visited (linkStep m s i) = ls_visited s ++ [i]
              ∧ ls_lookups (linkStep m s i) <= S (ls_lookups s))
  ∧ ∀ ts m, convertSpans spans 0 [] = Ok (ts, m) ->
      ls_visited (linkPass m ts) = seq 0 (length spans)
      ∧ ls_lookups (linkPass m ts) <= length spans
      ∧ ∃ totals,
          logRoots fuel (sortPass Date_parse (ls_store (linkPass m ts)))
                   (ls_roots (linkPass m ts)) = Ok totals.
Proof.
  intros Hfuel.
  assert (Hstep : ∀ m s i, ls_visited (linkStep m s i) = ls_visited s ++ [i]
                           ∧ ls_lookups (linkStep m s i) <= S (ls_lookups s)).
  { intros m s i. unfold linkStep.
    destruct (ls_store s !! i ≫= parentSpanId) as [parentId|]; [|simpl; split; [done|lia]].
    destruct (Map_get parentId m); simpl; split; done || lia. }
  assert (Hmain : ∀ ts m, convertSpans spans 0 [] = Ok (ts, m) ->
      ls_visited (linkPass m ts) = seq 0 (length spans)
      ∧ ls_lookups (linkPass m ts) <= length spans
      ∧ ∃ totals,
          logRoots fuel (sortPass Date_parse (ls_store (linkPass m ts)))
                   (ls_roots (linkPass m ts)) = Ok totals).
  { intros ts m [Hall ->]%convertSpans_spec.
    destruct (passes_spec Date_parse ts (converted_no_children _ _ Hall))
      as (Hsame & Hroots & Hchildren & Hvisited & Hlookups).
    rewrite (Forall2_length _ _ _ Hall).
    split; [done|]. split; [done|].
    eapply logRoots_returns; [by eapply linked_intro| |done].
    rewrite (sameSpans_length _ _ Hsame), <- (Forall2_length _ _ _ Hall). done. }
  split; [|by split].
  unfold buildTraceHierarchy. apply bind_no_fuel.
  { destruct spans as [|first ?]; [discriminate|].
    unfold Object_keys, Object_entries. destruct (nullish first); discriminate. }
  intros _.
  destruct (convertSpans spans 0 []) as [[ts m]| |] eqn:Hconv; simpl; try discriminate.
  - destruct (Hmain ts m eq_refl) as (_ & _ & totals & ->). discriminate.
  - by destruct (convertSpans_no_fuel spans 0 []).
Qed.


Lemma spanIds_of_store spans st :
  Forall2 (fun span t => convertSpan span = Ok (eraseChildren t)) spans st ->
  (fun i => spanId <$> st !! i) <$> seq 0 (length st)
  = (fun span => Some (or (prop span "spanId") (Str ""))) <$> spans.
Proof.
  intros Hall. apply list_eq. intros k.
  rewrite !list_lookup_fmap.
  destruct (spans !! k) as [span|] eqn:Hk.
  - destruct (Forall2_lookup_l _ _ _ _ _ Hall Hk) as (t & Ht & Hconv).
    rewrite lookup_seq_lt by by eapply lookup_lt_Some. simpl. rewrite Ht. simpl.
    apply convertSpan_fields in Hconv as (Hid & _). simpl in Hid. by rewrite Hid.
  - apply lookup_ge_None in Hk. rewrite (Forall2_length _ _ _ Hall) in Hk.
    by rewrite lookup_ge_None_2 by by rewrite length_seq.
Qed.

(** C1, amended.  [allSpans] has one entry per input span, and every span is
    listed exactly once over [rootSpans] and all the [childSpans]: in
    [rootSpans] and in no [childSpans], or in the [childSpans] of exactly
    one span.  When the parent references are acyclic, the spans in
    [rootSpans] together with all their descendants are exactly the input
    spans, each once; so the span ids in the tree are the span ids of the
    input, with the same multiplicities. *)
Theorem completeness_when_acyclic fuel pid tid spans st td :
  buildTraceHierarchy Date_parse fuel pid tid spans = Ok (st, td) ->
  length (allSpans td) = length spans
  ∧ NoDup (rootSpans td)
  ∧ (∀ p, NoDup (childSpansOf st p))
  ∧ (∀ i, i < length spans ->
       (i ∈ rootSpans td ∧ (∀ p, ¬ child st p i))
       ∨ ((i ∉ rootSpans td)
          ∧ (∃ p, child st p i ∧ (∀ p', child st p' i -> p' = p))))
  ∧ (acyclicParents st = true ->
       ∃ tree, forestSpans (length spans) st (rootSpans td) = Ok tree
               ∧ tree ≡ₚ allSpans td
               ∧ (fun i => spanId <$> st !! i) <$> tree
                 ≡ₚ (fun span => Some (or (prop span "spanId") (Str ""))) <$> spans).
Proof.
  intros (Hlen & Hallspans & _ & _ & Hall & Hlinked)%build_spec.
  split; [by rewrite Hallspans, length_seq|].
  split; [by destruct Hlinked|].
  split; [by destruct Hlinked as (_ & _ & ? & _)|].
  split.
  - intros i Hi. rewrite <- Hlen in Hi.
    destruct (decide (i ∈ rootSpans td)) as [Hroot|Hroot].
    + left. split; [done|]. intros p.
      by apply (root_no_parent st (rootSpans td) Hlinked).
    + right. split; [done|].
      destruct (not_root_has_parent _ _ Hlinked i Hi Hroot) as [p Hp].
      exists p. split; [done|]. intros p' Hp'.
      by apply (child_unique st (rootSpans td) Hlinked p' p i).
  - intros Hacyclic.
    destruct (forestSpans_complete st (rootSpans td) Hlinked (length spans))
      as (tree & Htree & Hperm); [lia|done|].
    exists tree. split; [done|]. rewrite Hallspans, <- Hlen.
    split; [done|]. rewrite Hperm. by rewrite (spanIds_of_store spans st).
Qed.
End Claims.

(** * Concrete runs *)

(** The scenarios of the specification. *)

Example scenario_A :
  ∃ st td,
    buildTraceHierarchy Date_parse_utc 2 "project" "trace"
      [Obj [("spanId", Str "a")];
       Obj [("spanId", Str "b"); ("parentSpanId", Str "a")]]
    = Ok (st, td)
    ∧ rootSpans td = [0] ∧ childSpansOf st 0 = [1] ∧ childSpansOf st 1 = [].
Proof. eexists _, _. split; [vm_compute; reflexivity|]. by repeat split. Qed.

Example scenario_B :
  ∃ st td,
    buildTraceHierarchy Date_parse_utc 1 "project" "trace"
      [Obj [("spanId", Str "x"); ("parentSpanId", Str "missing")]]
    = Ok (st, td)
    ∧ rootSpans td = [0] ∧ childSpansOf st 0 = [].
Proof. eexists _, _. split; [vm_compute; reflexivity|]. by repeat split. Qed.

Example scenario_D :
  ∃ t,
    convertSpan
      (Obj [("spanId", Str "s1");
            ("labels", Obj [("/http/method", Str "GET"); ("/http/path", Str "/users")])])
    = Ok t
    ∧ displayName t = "GET /users".
Proof. eexists. split; reflexivity. Qed.

(** C5. A raw span whose name fields are empty strings gets the empty
    display name: the branch for the legacy plain-string [displayName] tests
    the type of the field only, not that it is non-empty, so neither the
    default name nor the placeholder with the span id is used.  This is the
    only way to an empty display name: whenever a converted span has one,
    the raw span has no usable [name] and its [displayName] field is the
    empty string. *)
Theorem empty_display_name (Date_parse : string -> option Z) :
  (∃ st td,
     buildTraceHierarchy Date_parse 1 "project" "trace"
       [Obj [("spanId", Str "s1"); ("name", Str ""); ("displayName", Str "")]]
     = Ok (st, td)
     ∧ displayName <$> st !! 0 = Some "")
  ∧ (∀ span t,
       convertSpan span = Ok t -> displayName t = "" ->
       prop span "displayName" = Str "" ∧ ToBoolean (prop span "name") = false).
Proof.
  split.
  - eexists _, _. split; reflexivity.
  - intros span t. unfold convertSpan, get.
    destruct (nullish span); [discriminate|]. simpl.
    destruct (resolveDisplayName _ _) as [name| |] eqn:Hname; simpl; try discriminate.
    intros [= <-]. simpl. intros ->.
    apply resolveDisplayName_empty, nameField_empty in Hname. tauto.
Qed.

(** C6. A numeric [name] makes [displayName.startsWith] a call of
    [undefined], and a numeric [/db/statement] label does the same to
    [substring]: the builder throws a TypeError instead of returning a
    trace structure.  These are the only unguarded places: whenever the
    builder throws, one of the raw spans is nullish, has name fields that
    resolve to a value that is not a string, or has a truthy [/db/statement]
    label that is not a string. *)
Theorem malformed_fields_throw (Date_parse : string -> option Z)
    (fuel : nat) (pid tid : string) :
  buildTraceHierarchy Date_parse fuel pid tid
    [Obj [("spanId", Str "s1"); ("name", Num 42)]]
  = Throw (TypeError "startsWith is not a function")
  ∧ buildTraceHierarchy Date_parse fuel pid tid
      [Obj [("spanId", Str "s2"); ("labels", Obj [("/db/statement", Num 7)])]]
    = Throw (TypeError "substring is not a function")
  ∧ (∀ spans e,
       buildTraceHierarchy Date_parse fuel pid tid spans = Throw e ->
       ∃ span, span ∈ spans
         ∧ (nullish span = true
            ∨ String.eqb (typeof (nameField span)) "string" = false
            ∨ (ToBoolean (prop (prop span "labels") "/db/statement") = true
               ∧ String.eqb (typeof (prop (prop span "labels") "/db/statement"))
                   "string" = false))).
Proof.
  split; [reflexivity|]. split; [reflexivity|].
  intros spans e. unfold buildTraceHierarchy.
  destruct spans as [|first rest].
  - simpl. discriminate.
  - unfold Object_keys, Object_entries.
    destruct (nullish first) eqn:Hfirst.
    { intros _. exists first. split; [left|by left]. }
    cbn [bind].
    destruct (convertSpans (first :: rest) 0 []) as [r|e'|] eqn:Hconv; cbn [bind].
    + destruct (logRoots _ _ _) as [totals|e'|] eqn:Hlog; cbn [bind]; try discriminate.
      by destruct (logRoots_no_throw _ _ _ _ Hlog).
    + intros _. destruct (convertSpans_throws _ _ _ _ Hconv) as (span & e'' & Hin & Hthrow).
      exists span. split; [done|]. by eapply convertSpan_throws.
    + discriminate.
Qed.

(** C1, counterexample.  One span that names itself as parent: [allSpans]
    has it, [rootSpans] is empty, so the span is neither a root nor a
    descendant of a root. *)
Lemma dropped_span_counterexample :
  ∃ st td,
    buildTraceHierarchy Date_parse_utc 1 "project" "trace"
      [Obj [("spanId", Str "a"); ("parentSpanId", Str "a")]]
    = Ok (st, td)
    ∧ length (allSpans td) = 1
    ∧ rootSpans td = []
    ∧ forestSpans 1 st (rootSpans td) = Ok []
    ∧ ¬ underRoots st (rootSpans td) 0.
Proof.
  eexists _, _. split; [vm_compute; reflexivity|].
  split; [reflexivity|]. split; [reflexivity|]. split; [reflexivity|].
  intros (r & Hr & _). simpl in Hr. by apply elem_of_nil in Hr.
Qed.

(** C2, counterexample.  The same input: the span is in its own
    [childSpans], so it is its own descendant. *)
Lemma own_ancestor_counterexample :
  ∃ st td,
    buildTraceHierarchy Date_parse_utc 1 "project" "trace"
      [Obj [("spanId", Str "a"); ("parentSpanId", Str "a")]]
    = Ok (st, td)
    ∧ childSpansOf st 0 = [0]
    ∧ descendant st 0 0.
Proof.
  eexists _, _. split; [vm_compute; reflexivity|].
  split; [reflexivity|]. apply tc_once. unfold child. simpl. in_list.
Qed.

Lemma completeness_when_acyclic_witness :
  ∃ st td tree,
    buildTraceHierarchy Date_parse_utc 6 "project" "trace" exampleTrace = Ok (st, td)
    ∧ acyclicParents st = true
    ∧ forestSpans (length exampleTrace) st (rootSpans td) = Ok tree
    ∧ tree ≡ₚ allSpans td.
Proof.
  destruct (buildTraceHierarchy Date_parse_utc 6 "project" "trace" exampleTrace)
    as [[st td]| |] eqn:Hbuild; [|vm_compute in Hbuild; discriminate..].
  destruct (completeness_when_acyclic Date_parse_utc 6 "project" "trace" exampleTrace
              st td Hbuild) as (_ & _ & _ & _ & Hforest).
  assert (Hacyclic : acyclicParents st = true).
  { vm_compute in Hbuild. injection Hbuild as <- <-. reflexivity. }
  destruct (Hforest Hacyclic) as (tree & Htree & Hperm & _).
  exists st, td, tree. by repeat split.
Defined.

Lemma spans_under_roots_acyclic_witness :
  ∃ st td,
    buildTraceHierarchy Date_parse_utc 4 "project" "trace" cyclicTrace = Ok (st, td)
    ∧ underRoots st (rootSpans td) 3
    ∧ ¬ descendant st 3 3.
Proof.
  destruct (buildTraceHierarchy Date_parse_utc 4 "project" "trace" cyclicTrace)
    as [[st td]| |] eqn:Hbuild; [|vm_compute in Hbuild; discriminate..].
  assert (Hunder : underRoots st (rootSpans td) 3).
  { vm_compute in Hbuild. injection Hbuild as <- <-.
    exists 2. split; [simpl; in_list|]. apply rtc_once. unfold child. simpl. in_list. }
  exists st, td. split; [done|]. split; [done|].
  exact (spans_under_roots_acyclic Date_parse_utc 4 "project" "trace" cyclicTrace
           st td Hbuild 3 Hunder).
Defined.

Lemma root_correctness_witness :
  ∃ st td,
    buildTraceHierarchy Date_parse_utc 6 "project" "trace" exampleTrace = Ok (st, td)
    ∧ 0 ∈ rootSpans td ∧ 5 ∈ rootSpans td ∧ 1 ∉ rootSpans td.
Proof.
  destruct (buildTraceHierarchy Date_parse_utc 6 "project" "trace" exampleTrace)
    as [[st td]| |] eqn:Hbuild; [|vm_compute in Hbuild; discriminate..].
  pose proof (root_correctness Date_parse_utc 6 "project" "trace" exampleTrace
                st td Hbuild) as Hroot.
  exists st, td. split; [done|]. split; [|split].
  - apply (Hroot 0 (Obj [("spanId", Str "root"); ("name", Str "GET /orders")]) eq_refl).
    by left.
  - apply (Hroot 5 (Obj [("spanId", Str "orphan"); ("parentSpanId", Str "missing")])
             eq_refl).
    right. intros j other Hj.
    do 6 (destruct j as [|j]; [injection Hj as <-; reflexivity|]). discriminate.
  - intros Hin.
    apply (Hroot 1 (Obj [("spanId", Str "late"); ("parentSpanId", Str "root");
                         ("startTime", Str "2024-01-01T00:00:02Z")]) eq_refl) in Hin.
    destruct Hin as [Hfalsy|Hnone]; [discriminate|].
    discriminate (Hnone 0 _ eq_refl).
Defined.

Lemma builder_terminates_witness :
  buildTraceHierarchy Date_parse_utc 4 "project" "trace" cyclicTrace ≠ OutOfFuel
  ∧ ∃ ts m, convertSpans cyclicTrace 0 [] = Ok (ts, m)
            ∧ ls_visited (linkPass m ts) = [0; 1; 2; 3]
            ∧ ls_lookups (linkPass m ts) <= 4.
Proof.
  assert (Hfuel : length cyclicTrace <= 4) by (simpl; lia).
  destruct (builder_terminates Date_parse_utc 4 "project" "trace" cyclicTrace Hfuel)
    as (Hreturns & _ & Hlink).
  split; [exact Hreturns|].
  destruct (convertSpans cyclicTrace 0 []) as [[ts m]| |] eqn:Hconv;
    [|vm_compute in Hconv; discriminate..].
  destruct (Hlink ts m eq_refl) as (Hvisited & Hlookups & _).
  exists ts, m. by repeat split.
Defined.



(** * Further properties *)


(** * Further properties of the builder *)

Lemma StronglySorted_lt_seq start len : StronglySorted lt (seq start len).
Proof.
  revert start. induction len as [|len IH]; intros start; simpl; constructor; [apply IH|].
  apply Forall_forall. intros x Hx%elem_of_seq. lia.
Qed.

Lemma StronglySorted_filter {A} (R : relation A) (P : A -> Prop)
    `{∀ x, Decision (P x)} l :
  StronglySorted R l -> StronglySorted R (filter P l).
Proof.
  induction 1 as [|x l Hs IH Hx]; [constructor|].
  destruct (decide (P x)) as [HP|HP].
  - rewrite filter_cons_True by done. constructor; [done|].
    rewrite Forall_forall in Hx |- *. intros y [_ Hy]%list_elem_of_filter. by apply Hx.
  - by rewrite filter_cons_False.
Qed.

(** The span map holds, for a key, the last span recorded under it. *)
Lemma Map_get_indexSpans_last ts : ∀ index m k j,
  Map_get k (indexSpans ts index m) = Some j ->
  (∃ t, index <= j ∧ ts !! (j - index) = Some t
        ∧ sameValueZero (spanId t) k = true
        ∧ ∀ q tq, j - index < q -> ts !! q = Some tq ->
            sameValueZero (spanId tq) k = false)
  ∨ (Map_get k m = Some j ∧ ∀ t, t ∈ ts -> sameValueZero (spanId t) k = false).
Proof.
  induction ts as [|t ts IH]; intros index m k j; simpl.
  - intros H. right. split; [done|]. by intros ? ?%elem_of_nil.
  - intros H. apply IH in H as [(t' & Hle & Ht' & Hmatch & Hlater)|[Hget Hnone]].
    + left. exists t'. split; [lia|].
      replace (j - index) with (S (j - S index)) by lia.
      split; [done|]. split; [done|].
      intros [|q] tq Hq; [lia|]. simpl. apply Hlater. lia.
    + unfold Map_set in Hget. simpl in Hget.
      destruct (sameValueZero (spanId t) k) eqn:Hk.
      * injection Hget as <-. left. exists t. rewrite Nat.sub_diag.
        split; [done|]. split; [done|]. split; [done|].
        intros [|q] tq Hq; [lia|]. simpl. intros Htq.
        apply Hnone. by eapply list_elem_of_lookup_2.
      * right. split; [done|]. intros t' [->|Ht']%elem_of_cons; auto.
Qed.

(** Lookups after a fold of writes come from the map before or from a write. *)
Lemma foldl_write_lookup (w : string * val -> option (string * val)) es : ∀ m k v,
  foldl (fun m e => applyWrite (w e) m) m es !! k = Some v ->
  m !! k = Some v ∨ ∃ e, e ∈ es ∧ w e = Some (k, v).
Proof.
  induction es as [|e es IH]; intros m k v; simpl; [by left|].
  intros [H|(e' & Hin & Hw)]%IH.
  - unfold applyWrite in H. destruct (w e) as [[k' v']|] eqn:He; [|by left].
    destruct (decide (k' = k)) as [->|Hne].
    + rewrite lookup_insert_eq in H. injection H as ->.
      right. exists e. split; [left|done].
    + rewrite lookup_insert_ne in H by done. by left.
  - right. exists e'. split; [by right|done].
Qed.

Section MoreBuilder.
Variable Date_parse : string -> option Z.

(** X1. [allSpans] lists the input spans in input order, and the link and
    sort passes change nothing but [childSpans]: with its [childSpans]
    emptied, the span at position [i] of the result is what the conversion
    of [spans[i]] alone gives.  The identifiers are passed through. *)
Theorem passes_keep_fields fuel pid tid spans st td :
  buildTraceHierarchy Date_parse fuel pid tid spans = Ok (st, td) ->
  allSpans td = seq 0 (length spans)
  ∧ Forall2 (fun span t => convertSpan span = Ok (setChildSpans [] t)) spans st
  ∧ traceId td = tid
  ∧ projectId td = pid.
Proof.
  intros Hbuild.
  destruct (build_spec _ _ _ _ _ _ _ Hbuild) as (_ & Hall & _ & _ & Hfields & _).
  apply build_inv in Hbuild as (ts & totals & _ & _ & _ & -> & _).
  by repeat split.
Qed.

(** X2. [rootSpans] lists the roots in input order: the positions in it
    increase strictly, and each is a position of the input. *)
Theorem roots_in_input_order fuel pid tid spans st td :
  buildTraceHierarchy Date_parse fuel pid tid spans = Ok (st, td) ->
  StronglySorted lt (rootSpans td)
  ∧ Forall (fun r => r < length spans) (rootSpans td).
Proof.
  intros (Hlen & _ & Hroots & _)%build_spec. rewrite Hroots. split.
  - apply StronglySorted_filter, StronglySorted_lt_seq.
  - apply Forall_forall. intros r [_ Hr%elem_of_seq]%list_elem_of_filter. lia.
Qed.

(** X3. Every span listed in [p.childSpans] names [p]: its [parentSpanId]
    is set and equals the [spanId] of [p], and [p] is the last span of the
    input with that id (with duplicate span ids the last one gets the
    children). *)
Theorem children_name_their_parent fuel pid tid spans st td :
  buildTraceHierarchy Date_parse fuel pid tid spans = Ok (st, td) ->
  ∀ p c, child st p c ->
    ∃ tp tc parentId,
      st !! p = Some tp ∧ st !! c = Some tc
      ∧ parentSpanId tc = Some parentId
      ∧ sameValueZero (spanId tp) parentId = true
      ∧ ∀ q tq, p < q -> st !! q = Some tq ->
          sameValueZero (spanId tq) parentId = false.
Proof.
  intros (_ & _ & _ & _ & _ & Hlinked)%build_spec p c Hchild.
  apply (child_parent _ _ Hlinked) in Hchild as (Hp & Hc & Hpar).
  unfold parentOf in Hpar.
  destruct (st !! c) as [tc|] eqn:Htc; [|done]. simpl in Hpar.
  destruct (parentSpanId tc) as [parentId|] eqn:Hpid; [|done].
  apply Map_get_indexSpans_last in Hpar as [(tp & _ & Htp & Hmatch & Hlater)|[[=] _]].
  rewrite Nat.sub_0_r in Htp, Hlater.
  exists tp, tc, parentId. by repeat split.
Qed.
End MoreBuilder.



(** X5. A [name] that is a non-empty string other than ['Unknown Span'] is
    the display name, prefixed with [HTTP ] when it starts with a slash;
    labels and alternative fields are not consulted. *)
Theorem explicit_name_wins (span : val) (t : TraceSpan) (name : string) :
  convertSpan span = Ok t ->
  prop span "name" = Str name ->
  name ≠ "" ->
  name ≠ UnknownSpan ->
  displayName t = if String.prefix "/" name then "HTTP " +:+ name else name.
Proof.
  intros Hconv Hname Hnonempty Hknown. revert Hconv.
  unfold convertSpan, get. destruct (nullish span); [discriminate|]. simpl.
  unfold resolveDisplayName, nameField. rewrite Hname. simpl.
  apply String.eqb_neq in Hnonempty. rewrite Hnonempty. simpl.
  set (shown := if String.prefix "/" name then "HTTP " +:+ name else name).
  assert (Hshown : String.eqb shown UnknownSpan = false).
  { apply String.eqb_neq. unfold shown.
    destruct (String.prefix "/" name); [discriminate|done]. }
  rewrite Hshown. simpl. rewrite Hshown. simpl. by intros [= <-].
Qed.

Lemma explicit_name_wins_witness :
  ∃ t,
    convertSpan (Obj [("spanId", Str "s1"); ("name", Str "/checkout");
                      ("labels", Obj [("/http/path", Str "/other")])])
    = Ok t
    ∧ displayName t = "HTTP /checkout".
Proof.
  destruct (convertSpan (Obj [("spanId", Str "s1"); ("name", Str "/checkout");
                              ("labels", Obj [("/http/path", Str "/other")])]))
    as [t| |] eqn:Hconv; [|vm_compute in Hconv; discriminate..].
  exists t. split; [done|].
  apply (explicit_name_wins _ t "/checkout" Hconv); [reflexivity|discriminate..].
Defined.

(** X6. Every flattened attribute value is a string, except a value that an
    attribute-map entry carries as a truthy [stringValue] that is not a
    string: that one is stored as it is. *)
Theorem attribute_values_are_strings (span : val) (k : string) (v : val) :
  flattenAttributes span !! k = Some v ->
  (∃ s, v = Str s)
  ∨ (∃ e, e ∈ entries (prop (prop span "attributes") "attributeMap")
          ∧ e.1 = k ∧ v = prop e.2 "stringValue" ∧ ToBoolean v = true).
Proof.
  unfold flattenAttributes, rawAttributes. rewrite foldl_addRawField.
  intros [H|(e & _ & Hw)]%foldl_write_lookup.
  2: { left. unfold rawFieldWrite in Hw.
       destruct (_ || _); [done|]. injection Hw as _ <-. by eexists. }
  revert H. unfold mapAttributes.
  destruct (_ && _).
  - rewrite foldl_addAttribute.
    intros [H|(e & Hin & Hw)]%foldl_write_lookup.
    + left. revert H. unfold labelAttributes.
      destruct (ToBoolean (prop span "labels")); [|by rewrite lookup_empty].
      rewrite foldl_addLabel.
      intros [H|(e & _ & Hw)]%foldl_write_lookup; [by rewrite lookup_empty in H|].
      unfold labelWrite in Hw. destruct (_ || _); [done|].
      injection Hw as _ <-. by eexists.
    + unfold attributeWrite in Hw. destruct (_ || _); [done|].
      injection Hw as Hk <-. unfold attributeValue, or.
      destruct (ToBoolean (prop e.2 "stringValue")) eqn:Hs; [|left; by eexists].
      right. exists e. by repeat split.
  - unfold labelAttributes.
    destruct (ToBoolean (prop span "labels")); [|by rewrite lookup_empty].
    rewrite foldl_addLabel.
    intros [H|(e & _ & Hw)]%foldl_write_lookup; [by rewrite lookup_empty in H|].
    left. unfold labelWrite in Hw. destruct (_ || _); [done|].
    injection Hw as _ <-. by eexists.
Qed.
Lemma passes_keep_fields_witness :
  ∃ st td,
    buildTraceHierarchy Date_parse_utc 6 "project" "trace" exampleTrace = Ok (st, td)
    ∧ allSpans td = [0; 1; 2; 3; 4; 5]
    ∧ traceId td = "trace" ∧ projectId td = "project".
Proof.
  destruct (buildTraceHierarchy Date_parse_utc 6 "project" "trace" exampleTrace)
    as [[st td]| |] eqn:Hbuild; [|vm_compute in Hbuild; discriminate..].
  destruct (passes_keep_fields Date_parse_utc 6 "project" "trace" exampleTrace
              st td Hbuild) as (Hall & _ & Htid & Hpid).
  exists st, td. split; [done|]. split; [exact Hall|]. split; [exact Htid|exact Hpid].
Defined.

Lemma roots_in_input_order_witness :
  ∃ st td,
    buildTraceHierarchy Date_parse_utc 6 "project" "trace" exampleTrace = Ok (st, td)
    ∧ StronglySorted lt (rootSpans td)
    ∧ Forall (fun r => r < 6) (rootSpans td).
Proof.
  destruct (buildTraceHierarchy Date_parse_utc 6 "project" "trace" exampleTrace)
    as [[st td]| |] eqn:Hbuild; [|vm_compute in Hbuild; discriminate..].
  exists st, td. split; [done|].
  exact (roots_in_input_order Date_parse_utc 6 "project" "trace" exampleTrace
           st td Hbuild).
Defined.

Lemma children_name_their_parent_witness :
  ∃ st td,
    buildTraceHierarchy Date_parse_utc 3 "project" "trace" duplicateIdTrace = Ok (st, td)
    ∧ child st 1 2
    ∧ ∃ tp tc parentId,
        st !! 1 = Some tp ∧ st !! 2 = Some tc
        ∧ parentSpanId tc = Some parentId
        ∧ sameValueZero (spanId tp) parentId = true
        ∧ ∀ q tq, 1 < q -> st !! q = Some tq ->
            sameValueZero (spanId tq) parentId = false.
Proof.
  destruct (buildTraceHierarchy Date_parse_utc 3 "project" "trace" duplicateIdTrace)
    as [[st td]| |] eqn:Hbuild; [|vm_compute in Hbuild; discriminate..].
  pose proof (children_name_their_parent Date_parse_utc 3 "project" "trace"
                duplicateIdTrace st td Hbuild) as Hparent.
  assert (Hchild : child st 1 2).
  { vm_compute in Hbuild. injection Hbuild as <- <-. unfold child. in_list. }
  exists st, td. split; [done|]. split; [exact Hchild|].
  exact (Hparent 1 2 Hchild).
Defined.

Lemma attribute_values_are_strings_witness :
  let span := Obj [("spanId", Str "s1");
                   ("attributes",
                    Obj [("attributeMap",
                          Obj [("retries", Obj [("stringValue", Num 3)])])])] in
  (∃ s, Num 3 = Str s)
  ∨ (∃ e, e ∈ entries (prop (prop span "attributes") "attributeMap")
          ∧ e.1 = "retries" ∧ Num 3 = prop e.2 "stringValue"
          ∧ ToBoolean (Num 3) = true).
Proof.
  intros span.
  apply (attribute_values_are_strings span "retries" (Num 3)).
  vm_compute. reflexivity.
Defined.

(** * The descendant count of the debug loop *)

Lemma foldl_count_fails (g : nat -> outcome nat) l (m : outcome nat) n :
  foldl (fun total child => do n <- total; do k <- g child; Ok (n + k)) m l = Ok n ->
  ∃ acc, m = Ok acc.
Proof.
  revert m. induction l as [|c l IH]; intros m; simpl; [intros ->; by eexists|].
  intros [acc Hacc]%IH. destruct m as [a| |]; simpl in Hacc; [by eexists|done..].
Qed.

Lemma foldl_count_tree (g : nat -> outcome nat) (h : nat -> outcome (list nat)) l :
  (∀ c k, c ∈ l -> g c = Ok k -> ∃ r, h c = Ok r ∧ length r = S k) ->
  ∀ acc n,
    foldl (fun total child => do n <- total; do k <- g child; Ok (n + k)) (Ok acc) l
    = Ok n ->
    ∃ r, concatM h l = Ok r ∧ n + length l = acc + length r.
Proof.
  induction l as [|c l IH]; intros Hg acc n; simpl.
  - intros [= <-]. exists []. split; [done|]. simpl. lia.
  - intros Hfold. destruct (foldl_count_fails _ _ _ _ Hfold) as [acc' Hacc'].
    destruct (g c) as [k| |] eqn:Hk; [|done..]. simpl in Hacc'.
    injection Hacc' as <-. simpl in Hfold.
    destruct (Hg c k) as (a & -> & Ha); [left|done|].
    apply IH in Hfold as (b & -> & Hb); [|intros c' k' Hc'; apply Hg; by right].
    simpl. eexists. split; [done|]. rewrite length_app. lia.
Qed.

Lemma countDescendants_treeSpans st fuel : ∀ i n,
  countDescendants fuel st i = Ok n ->
  ∃ below, treeSpans fuel st i = Ok (i :: below) ∧ length below = n.
Proof.
  induction fuel as [|fuel IH]; intros i n; simpl; [done|].
  intros (r & -> & Hr)%(foldl_count_tree _ (treeSpans fuel st)).
  - simpl. exists r. split; [done|]. lia.
  - intros c k _ (below & -> & <-)%IH. by eexists.
Qed.

Lemma logRoots_inv fuel st roots : ∀ totals,
  logRoots fuel st roots = Ok totals ->
  ∀ r, r ∈ roots -> ∃ n, countDescendants fuel st r = Ok n.
Proof.
  induction roots as [|r0 roots IH]; intros totals; simpl.
  - by intros _ r ?%elem_of_nil.
  - destruct (countDescendants fuel st r0) as [n| |] eqn:Hn; [|done..]. simpl.
    destruct (logRoots fuel st roots) as [ns| |] eqn:Hns; [|done..]. simpl.
    intros _ r [->|Hr]%elem_of_cons; [by eexists|]. by eapply IH.
Qed.

Section DescendantCount.

Variable Date_parse : string -> option Z.

(** X7. The total that the debug loop computes for a root span is the
    number of its descendants: the spans counted are distinct, and they are
    the spans below the root. *)
Theorem logged_total_counts_descendants fuel pid tid spans st td :
  buildTraceHierarchy Date_parse fuel pid tid spans = Ok (st, td) ->
  ∀ r, r ∈ rootSpans td ->
    ∃ below,
      countDescendants fuel st r = Ok (length below)
      ∧ NoDup below
      ∧ ∀ x, x ∈ below ↔ descendant st r x.
Proof.
  intros Hbuild r Hr.
  pose proof (build_spec Date_parse _ _ _ _ _ _ Hbuild) as (_ & _ & _ & _ & _ & Hlinked).
  assert (Hlog : ∃ totals, logRoots fuel st (rootSpans td) = Ok totals).
  { destruct (build_inv Date_parse _ _ _ _ _ _ Hbuild)
      as (ts & totals & _ & _ & _ & _ & Hlog). by exists totals. }
  destruct Hlog as [totals Hlog].
  destruct (logRoots_inv _ _ _ _ Hlog r Hr) as [n Hn].
  destruct (countDescendants_treeSpans _ _ _ _ Hn) as (below & Htree & <-).
  exists below. split; [done|].
  assert (Hanc : ancestors st (rootSpans td) r []) by by constructor.
  pose proof (treeSpans_NoDup st (rootSpans td) Hlinked fuel r [] _ Hanc Htree) as Hnd.
  apply NoDup_cons in Hnd as [Hr_below Hnd]. split; [done|].
  intros x. split.
  - intros Hx.
    assert (Hrtc : rtc (child st) r x).
    { apply (treeSpans_elem st fuel r (r :: below) x Htree). by right. }
    apply rtc_tc in Hrtc as [<-|Htc]; [done|exact Htc].
  - intros Htc.
    assert (Hin : x ∈ r :: below).
    { apply (treeSpans_elem st fuel r (r :: below) x Htree). by apply tc_rtc. }
    apply elem_of_cons in Hin as [->|Hin]; [|done].
    destruct (underRoots_acyclic st (rootSpans td) Hlinked r); [|done].
    exists r. split; [done|apply rtc_refl].
Qed.

End DescendantCount.

Lemma logged_total_counts_descendants_witness :
  ∃ st td below,
    buildTraceHierarchy Date_parse_utc 6 "project" "trace" exampleTrace = Ok (st, td)
    ∧ countDescendants 6 st 0 = Ok (length below)
    ∧ NoDup below
    ∧ ∀ x, x ∈ below ↔ descendant st 0 x.
Proof.
  destruct (buildTraceHierarchy Date_parse_utc 6 "project" "trace" exampleTrace)
    as [[st td]| |] eqn:Hbuild; [|vm_compute in Hbuild; discriminate..].
  destruct (logged_total_counts_descendants Date_parse_utc 6 "project" "trace"
              exampleTrace st td Hbuild 0) as (below & Hcount & Hnd & Hbelow).
  { vm_compute in Hbuild. injection Hbuild as <- <-. in_list. }
  exists st, td, below.
  split; [reflexivity|]. split; [exact Hcount|]. split; [exact Hnd|exact Hbelow].
Defined.

(** * Properties of [extractTraceIdFromLog] *)

Lemma list_ascii_of_string_app (s1 s2 : string) :
  list_ascii_of_string (s1 +:+ s2)
  = list_ascii_of_string s1 ++ list_ascii_of_string s2.
Proof. induction s1 as [|c s1 IH]; simpl; [reflexivity|]. by rewrite <- IH. Qed.

Lemma matchLiteral_Some pat : ∀ l rest,
  matchLiteral pat l = Some rest ->
  ∃ lit, l = lit ++ rest ∧ map lowerCase lit = pat.
Proof.
  induction pat as [|p pat IH]; intros l rest; simpl.
  - intros [= ->]. by exists [].
  - destruct l as [|c l]; [done|].
    destruct (Ascii.eqb_spec (lowerCase c) p) as [<-|]; [|done].
    intros (lit & -> & <-)%IH. by exists (c :: lit).
Qed.

Lemma matchLiteral_app lit : ∀ rest,
  matchLiteral (map lowerCase lit) (lit ++ rest) = Some rest.
Proof.
  induction lit as [|c lit IH]; intros rest; simpl; [reflexivity|].
  by rewrite Ascii.eqb_refl.
Qed.

Lemma matchTracesAt_Some l id :
  matchTracesAt l = Some id ->
  ∃ lit, l = lit ++ id
         ∧ map lowerCase lit = list_ascii_of_string "traces/"
         ∧ id ≠ [] ∧ forallb isHexDigit id = true.
Proof.
  unfold matchTracesAt.
  destruct (matchLiteral _ l) as [[|c rest]|] eqn:Hlit; [done| |done].
  destruct (forallb isHexDigit (c :: rest)) eqn:Hhex; [|done].
  intros [= <-]. apply matchLiteral_Some in Hlit as (lit & -> & Hpat).
  by exists lit.
Qed.

Lemma matchTracesAt_app lit id :
  map lowerCase lit = list_ascii_of_string "traces/" ->
  id ≠ [] -> forallb isHexDigit id = true ->
  matchTracesAt (lit ++ id) = Some id.
Proof.
  intros Hpat Hne Hhex. unfold matchTracesAt.
  rewrite <- Hpat, matchLiteral_app.
  destruct id as [|c rest]; [done|]. by rewrite Hhex.
Qed.

Lemma searchTraces_unfold l :
  searchTraces l
  = match matchTracesAt l with
    | Some id => Some id
    | None => match l with [] => None | _ :: l' => searchTraces l' end
    end.
Proof. by destruct l. Qed.

(** The slash of the pattern is not a hex digit, so the pattern matches at
    one position at most. *)
Lemma slash_not_hex c : lowerCase c = "/"%char -> isHexDigit c = false.
Proof. unfold isHexDigit. by intros ->. Qed.

Lemma matchTracesAt_early a p lit id :
  map lowerCase lit = list_ascii_of_string "traces/" ->
  matchTracesAt (a :: p ++ lit ++ id) = None.
Proof.
  intros Hpat.
  destruct (matchTracesAt _) as [id'|] eqn:Hmatch; [|done]. exfalso.
  apply matchTracesAt_Some in Hmatch as (lit' & Heq & Hpat' & _ & Hhex).
  assert (Hlen' : length lit' = 7) by (by rewrite <- (length_map lowerCase), Hpat').
  destruct lit as [|c1 [|c2 [|c3 [|c4 [|c5 [|c6 [|s [|? ?]]]]]]]]; try done.
  injection Hpat as _ _ _ _ _ _ Hs.
  assert (Hid' : id' = drop 7 ((a :: p) ++ [c1; c2; c3; c4; c5; c6]) ++ s :: id).
  { rewrite <- drop_app_le by (rewrite length_app; simpl; lia).
    rewrite <- Hlen', <- (drop_app_length lit' id'), <- Heq.
    f_equal. simpl. by rewrite <- !app_assoc. }
  rewrite Hid', forallb_app in Hhex. cbn [forallb] in Hhex.
  rewrite (slash_not_hex s Hs) in Hhex.
  by destruct (forallb isHexDigit (drop 7 ((a :: p) ++ [c1; c2; c3; c4; c5; c6]))).
Qed.

Lemma searchTraces_app p lit id :
  map lowerCase lit = list_ascii_of_string "traces/" ->
  id ≠ [] -> forallb isHexDigit id = true ->
  searchTraces (p ++ lit ++ id) = Some id.
Proof.
  intros Hpat Hne Hhex. induction p as [|a p IH].
  - rewrite searchTraces_unfold. simpl. by rewrite matchTracesAt_app.
  - rewrite searchTraces_unfold. simpl ((a :: p) ++ _).
    by rewrite matchTracesAt_early.
Qed.

Lemma searchTraces_Some l : ∀ id,
  searchTraces l = Some id ->
  ∃ p lit, l = p ++ lit ++ id
           ∧ map lowerCase lit = list_ascii_of_string "traces/"
           ∧ id ≠ [] ∧ forallb isHexDigit id = true.
Proof.
  induction l as [|a l IH]; intros id; rewrite searchTraces_unfold.
  - destruct (matchTracesAt []) as [id'|] eqn:Hm; [|done].
    intros [= ->]. apply matchTracesAt_Some in Hm as (lit & ? & ? & ? & ?).
    by exists [], lit.
  - destruct (matchTracesAt (a :: l)) as [id'|] eqn:Hm.
    + intros [= ->]. apply matchTracesAt_Some in Hm as (lit & ? & ? & ? & ?).
      by exists [], lit.
    + intros (p & lit & -> & ? & ? & ?)%IH. by exists (a :: p), lit.
Qed.

Lemma isTraceId_spec s :
  isTraceId s = true
  <-> list_ascii_of_string s ≠ [] ∧ forallb isHexDigit (list_ascii_of_string s) = true.
Proof.
  unfold isTraceId. destruct (list_ascii_of_string s); [|by split; [|intros []]].
  split; [done|]. by intros [].
Qed.

Lemma matchTraceId_Some v id :
  matchTraceId v = Ok (Some id) ->
  isTraceId id = true
  ∧ ∃ s p lit, v = Str s
      ∧ list_ascii_of_string s = p ++ lit ++ list_ascii_of_string id
      ∧ map lowerCase lit = list_ascii_of_string "traces/".
Proof.
  destruct v as [| | | |s| |]; try done. simpl.
  destruct (searchTraces _) as [l|] eqn:Hsearch; [|done]. simpl. intros [= <-].
  apply searchTraces_Some in Hsearch as (p & lit & Heq & Hpat & Hne & Hhex).
  split.
  - apply isTraceId_spec. by rewrite list_ascii_of_string_of_list_ascii.
  - exists s, p, lit. by rewrite list_ascii_of_string_of_list_ascii.
Qed.

Lemma matchTraceId_app prefix id :
  isTraceId id = true ->
  matchTraceId (Str (prefix +:+ "traces/" +:+ id)) = Ok (Some id).
Proof.
  intros [Hne Hhex]%isTraceId_spec. unfold matchTraceId.
  rewrite !list_ascii_of_string_app, searchTraces_app by done.
  simpl. by rewrite string_of_list_ascii_of_string.
Qed.

Lemma app_truthy (s1 s2 : string) : s2 ≠ "" -> ToBoolean (Str (s1 +:+ s2)) = true.
Proof.
  intros Hne. simpl. apply negb_true_iff, String.eqb_neq.
  destruct s1; [done|discriminate].
Qed.

(** X8. Round trip on the [trace] field: whatever precedes it, a field that
    ends in [traces/] and a trace id gives back that id, and in that case
    the labels and the payload are not consulted. *)
Theorem trace_field_round_trip (logEntry : val) (prefix id : string) :
  prop logEntry "trace" = Str (prefix +:+ "traces/" +:+ id) ->
  isTraceId id = true ->
  extractTraceIdFromLog logEntry = Ok (Str id).
Proof.
  intros Htrace Hid. unfold extractTraceIdFromLog, get.
  destruct (nullish logEntry) eqn:Hnull; [by destruct logEntry|].
  cbn [bind]. rewrite Htrace, app_truthy by (by destruct id).
  by rewrite (matchTraceId_app prefix id Hid).
Qed.

Lemma trace_field_round_trip_witness :
  extractTraceIdFromLog
    (Obj [("trace", Str "projects/my-project/traces/0A1b2C3d4E5f");
          ("labels", Obj [("logging.googleapis.com/trace", Str "traces/ffff")]);
          ("jsonPayload", Obj [("traceId", Str "eeee")])])
  = Ok (Str "0A1b2C3d4E5f").
Proof.
  apply (trace_field_round_trip _ "projects/my-project/" "0A1b2C3d4E5f");
    reflexivity.
Defined.

(** X9. What the extraction returns is [undefined], or a string that the
    trace-id check of the [get-trace] tool accepts, or the truthy
    [jsonPayload.traceId], which is returned as it is found. *)
Theorem extracted_id_is_hex_or_payload (logEntry v : val) :
  extractTraceIdFromLog logEntry = Ok v ->
  v = Undefined
  ∨ (∃ id, v = Str id ∧ isTraceId id = true)
  ∨ (v = prop (prop logEntry "jsonPayload") "traceId" ∧ ToBoolean v = true).
Proof.
  unfold extractTraceIdFromLog, get.
  destruct (nullish logEntry); [done|]. cbn [bind].
  assert (Hfound : ∀ (c : bool) w (k : option string -> outcome val),
    (∀ id, matchTraceId w = Ok (Some id) -> isTraceId id = true) ->
    bind (if c then matchTraceId w else Ok None) k = Ok v ->
    ∃ found, k found = Ok v ∧ ∀ id, found = Some id -> isTraceId id = true).
  { intros c w k Hw. destruct c.
    - destruct (matchTraceId w) as [found| |] eqn:Hm; [|done..]. simpl.
      intros Hk. exists found. split; [done|]. intros id ->. by apply Hw.
    - simpl. intros Hk. by exists None. }
  intros (found & Hk & Hid)%Hfound; [|intros id Hm; exact (proj1 (matchTraceId_Some _ _ Hm))].
  destruct found as [id|].
  { injection Hk as <-. right; left. exists id. auto. }
  apply Hfound in Hk as (found & Hk & Hid');
    [|intros id Hm; exact (proj1 (matchTraceId_Some _ _ Hm))].
  destruct found as [id|].
  { injection Hk as <-. right; left. exists id. auto. }
  destruct (ToBoolean (prop logEntry "jsonPayload")); [|injection Hk as <-; by left].
  destruct (ToBoolean (prop (prop logEntry "jsonPayload") "traceId")) eqn:Htid.
  { injection Hk as <-. right; right. done. }
  apply Hfound in Hk as (found & Hk & Hid'');
    [|intros id Hm; exact (proj1 (matchTraceId_Some _ _ Hm))].
  destruct found as [id|]; injection Hk as <-; [|by left].
  right; left. exists id. auto.
Qed.

Lemma extracted_id_is_hex_or_payload_witness :
  let logEntry := Obj [("trace", Str "projects/my-project/traces/");
                       ("jsonPayload", Obj [("traceId", Str "not a trace id")])] in
  isTraceId "not a trace id" = false
  ∧ (Str "not a trace id" = Undefined
     ∨ (∃ id, Str "not a trace id" = Str id ∧ isTraceId id = true)
     ∨ (Str "not a trace id" = prop (prop logEntry "jsonPayload") "traceId"
        ∧ ToBoolean (Str "not a trace id") = true)).
Proof.
  intros logEntry. split; [reflexivity|].
  apply (extracted_id_is_hex_or_payload logEntry (Str "not a trace id")).
  reflexivity.
Defined.

Lemma consult_cases v :
  let consulted := if ToBoolean v then matchTraceId v else Ok None in
  (notAString v = true ∧ hasTraceId v = false ∧ ∃ err, consulted = Throw err)
  ∨ (notAString v = false ∧ hasTraceId v = true ∧ ∃ id, consulted = Ok (Some id))
  ∨ (notAString v = false ∧ hasTraceId v = false ∧ consulted = Ok None).
Proof.
  unfold notAString, hasTraceId.
  destruct v as [| |[]|z|s| |]; simpl;
    try (right; right; done); try (left; by eauto).
  - destruct (z =? 0)%Z; simpl; [right; right; done|left; by eauto].
  - destruct s as [|c s]; [right; right; done|].
    simpl (negb _). cbn [andb].
    destruct (searchTraces _) as [l|]; simpl; [right; left; by eauto|right; right; done].
Qed.

(** X10. The extraction throws exactly when the entry is [undefined] or
    [null], or a field it gets to is truthy and not a string: the [trace]
    field; the trace label, when the [trace] field gave no id; the trace
    field of the payload, when neither gave an id and the payload has no
    truthy [traceId]. *)
Theorem extraction_throws_iff (logEntry : val) :
  (∃ err, extractTraceIdFromLog logEntry = Throw err)
  <-> nullish logEntry = true
      ∨ notAString (prop logEntry "trace") = true
      ∨ (hasTraceId (prop logEntry "trace") = false
         ∧ (notAString (prop (prop logEntry "labels") traceLabelKey) = true
            ∨ (hasTraceId (prop (prop logEntry "labels") traceLabelKey) = false
               ∧ ToBoolean (prop (prop logEntry "jsonPayload") "traceId") = false
               ∧ notAString (prop (prop logEntry "jsonPayload") traceLabelKey)
                 = true))).
Proof.
  unfold extractTraceIdFromLog, get.
  destruct (nullish logEntry) eqn:Hnull.
  { simpl. split; [by left|]. intros _. by eexists. }
  cbn [bind].
  assert (Hlabels : ToBoolean (prop logEntry "labels")
                    && ToBoolean (prop (prop logEntry "labels") traceLabelKey)
                    = ToBoolean (prop (prop logEntry "labels") traceLabelKey)).
  { destruct (prop logEntry "labels"); simpl; try done; apply andb_false_r. }
  assert (Hpayload : ToBoolean (prop logEntry "jsonPayload") = false ->
                     prop (prop logEntry "jsonPayload") "traceId" = Undefined
                     ∧ prop (prop logEntry "jsonPayload") traceLabelKey = Undefined).
  { by destruct (prop logEntry "jsonPayload"). }
  rewrite Hlabels.
  destruct (consult_cases (prop logEntry "trace"))
    as [(-> & -> & [err ->])|[(-> & -> & [id ->])|(-> & -> & ->)]]; cbn [bind].
  { split; [intros _; right; by left|intros _; by eexists]. }
  { split; [by intros [err ?]|]. intros [?|[?|[? _]]]; done. }
  destruct (consult_cases (prop (prop logEntry "labels") traceLabelKey))
    as [(-> & -> & [err ->])|[(-> & -> & [id ->])|(-> & -> & ->)]]; cbn [bind].
  { split; [intros _; right; right; split; [done|by left]|intros _; by eexists]. }
  { split; [by intros [err ?]|]. intros [?|[?|[_ [?|[? _]]]]]; done. }
  destruct (ToBoolean (prop logEntry "jsonPayload")) eqn:Hp.
  2: { destruct (Hpayload eq_refl) as [-> ->].
       split; [by intros [err ?]|]. intros [?|[?|[_ [?|(_ & _ & ?)]]]]; done. }
  destruct (ToBoolean (prop (prop logEntry "jsonPayload") "traceId")) eqn:Hid.
  { split; [by intros [err ?]|]. intros [?|[?|[_ [?|(_ & ? & _)]]]]; done. }
  destruct (consult_cases (prop (prop logEntry "jsonPayload") traceLabelKey))
    as [(-> & _ & [err ->])|[(-> & _ & [id ->])|(-> & _ & ->)]]; cbn [bind].
  { split; [intros _; right; right; split; [done|right; done]|intros _; by eexists]. }
  all: split; [by intros [err ?]|]; intros [?|[?|[_ [?|(_ & _ & ?)]]]]; done.
Qed.

(** * Properties of [calculateDuration] *)

(** ** The double arithmetic *)

Lemma roundToDouble_spec a b m e :
  (0 < a)%Z -> (0 < b)%Z -> roundToDouble a b = (m, e) ->
  (e = Z.log2 a - Z.log2 b - 52 ∨ e = Z.log2 a - Z.log2 b - 53)%Z
  ∧ (e < 0 -> Z.abs (2 * (m * b - a * 2 ^ (- e))) <= b)%Z
  ∧ (0 <= e -> Z.abs (2 * (m * (b * 2 ^ e) - a)) <= b * 2 ^ e)%Z.
Proof.
  intros Ha Hb. unfold roundToDouble.
  set (e0 := (Z.log2 a - Z.log2 b - 52)%Z).
  destruct (scaled a b e0) as [n0 d0].
  set (e' := (if n0 / d0 <? 2 ^ 52 then e0 - 1 else e0)%Z).
  assert (He' : e' = e0 ∨ e' = (e0 - 1)%Z)
    by (unfold e'; destruct (_ <? _)%Z; auto).
  clearbody e'.
  destruct (scaled a b e') as [n d] eqn:Hscaled.
  intros [= <- <-].
  split; [lia|].
  assert (Hround : (0 < d -> Z.abs (2 * ((if (d <? 2 * (n mod d))
                                      || ((d =? 2 * (n mod d)) && Z.odd (n / d))
                                   then n / d + 1 else n / d) * d - n)) <= d)%Z).
  { intros Hd. pose proof (Z.div_mod n d ltac:(lia)) as Hdm.
    pose proof (Z.mod_pos_bound n d Hd) as Hmod.
    destruct (Z.ltb_spec d (2 * (n mod d))); simpl; [nia|].
    destruct (Z.eqb_spec d (2 * (n mod d))); simpl;
      [destruct (Z.odd (n / d))|]; nia. }
  unfold scaled in Hscaled.
  destruct (Z.leb_spec 0 e'); injection Hscaled as <- <-.
  - split; [lia|]. intros _. apply Hround.
    pose proof (Z.pow_pos_nonneg 2 e'). lia.
  - split; [|lia]. intros _. apply Hround. lia.
Qed.

Lemma subtract_exact (a b : Z) :
  (Z.abs (a - b) < 2 ^ 53)%Z -> subtract a b = (a - b)%Z.
Proof.
  intros Hsmall. unfold subtract.
  destruct (Z.eqb_spec (a - b) 0) as [->|Hne]; [done|].
  set (d := Z.abs (a - b)) in *.
  assert (Hd : (0 < d)%Z) by lia.
  destruct (roundToDouble d 1) as [m e] eqn:Hround.
  apply roundToDouble_spec in Hround as (He & Hneg & Hpos); [|lia..].
  assert (Hlog : (Z.log2 d < 53)%Z) by (by apply Z.log2_lt_pow2).
  change (Z.log2 1) with 0%Z in He.
  assert (Hfloor : Math_floor (m, e) = d).
  { unfold Math_floor. destruct (Z.leb_spec 0 e) as [Hle|Hlt].
    - assert (e = 0%Z) as -> by lia. specialize (Hpos ltac:(lia)).
      change (2 ^ 0)%Z with 1%Z in *. lia.
    - specialize (Hneg Hlt).
      assert (m = (d * 2 ^ (- e))%Z) as -> by lia.
      apply Z.div_mul. pose proof (Z.pow_pos_nonneg 2 (- e)). lia. }
  rewrite Hfloor. unfold d. lia.
Qed.

Lemma hundredths_close (a : Z) :
  (0 <= a < 60000)%Z ->
  (a - 5 <= 10 * hundredths (divide a 1000) <= a + 5)%Z.
Proof.
  intros Ha. unfold divide.
  destruct (Z.eqb_spec a 0) as [->|Hne]; [simpl; lia|].
  destruct (roundToDouble a 1000) as [m e] eqn:Hround.
  apply roundToDouble_spec in Hround as (He & Hneg & _); [|lia..].
  assert (Hlog : (Z.log2 a < 16)%Z) by (apply Z.log2_lt_pow2; lia).
  change (Z.log2 1000) with 9%Z in He.
  assert (Hlt : (e < 0)%Z) by lia. specialize (Hneg Hlt).
  unfold hundredths. destruct (Z.leb_spec 0 e); [lia|].
  replace (1 - e)%Z with (Z.succ (- e)) by lia.
  rewrite Z.pow_succ_r by lia.
  set (P := (2 ^ (- e))%Z) in *.
  assert (HP : (2 ^ 46 <= P)%Z) by (apply Z.pow_le_mono_r; lia).
  change (2 ^ 46)%Z with 70368744177664%Z in HP.
  pose proof (Z.div_mod (200 * m + P) (2 * P) ltac:(lia)) as Hdm.
  pose proof (Z.mod_pos_bound (200 * m + P) (2 * P) ltac:(lia)) as Hmod.
  set (n := ((200 * m + P) / (2 * P))%Z) in *.
  split.
  - apply Z.nlt_ge. intros Hcontra.
    assert (P * (a - 5 - 10 * n) >= P * 1)%Z by nia. nia.
  - apply Z.nlt_ge. intros Hcontra.
    assert (P * (10 * n - a - 5) >= P * 1)%Z by nia. nia.
Qed.

Lemma floor_of_minutes (d : Z) :
  (60000 <= d < 2 ^ 53)%Z ->
  Math_floor (divide d 60000) = (d / 60000)%Z.
Proof.
  intros Hd. unfold divide.
  destruct (Z.eqb_spec d 0); [lia|].
  destruct (roundToDouble d 60000) as [m e] eqn:Hround.
  apply roundToDouble_spec in Hround as (He & Hneg & _); [|lia..].
  assert (Hlog : (Z.log2 d < 53)%Z) by (apply Z.log2_lt_pow2; lia).
  change (Z.log2 60000) with 15%Z in He.
  assert (Hlt : (e < 0)%Z) by lia. specialize (Hneg Hlt).
  unfold Math_floor. destruct (Z.leb_spec 0 e); [lia|].
  set (P := (2 ^ (- e))%Z) in *.
  assert (HP : (2 ^ 15 <= P)%Z) by (apply Z.pow_le_mono_r; lia).
  change (2 ^ 15)%Z with 32768%Z in HP.
  pose proof (Z.div_mod d 60000 ltac:(lia)) as Hdm.
  pose proof (Z.mod_pos_bound d 60000 ltac:(lia)) as Hmod.
  set (k := (d / 60000)%Z) in *. set (r := (d mod 60000)%Z) in *.
  symmetry. apply (Z.div_unique_pos m P k (m - k * P)); [|lia].
  assert (60000 * (k * P) + r * P = d * P)%Z by nia.
  assert (0 <= r * P <= 59999 * P)%Z by nia.
  lia.
Qed.

(** ** The printed forms *)

Lemma pretty_N_char_not_N n : pretty_N_char n ≠ "N"%char.
Proof.
  destruct n as [|p]; [done|]. unfold pretty_N_char.
  do 4 (try destruct p as [p|p|]; try done).
Qed.

Lemma pretty_N_go_starts x : ∀ s,
  (s = "" -> (0 < x)%N) -> (s ≠ "" -> startsLikeANumber s) ->
  startsLikeANumber (pretty_N_go x s).
Proof.
  induction (N.lt_wf_0 x) as [x _ IH]. intros s Hempty Hstarts.
  destruct (decide (x = 0%N)) as [->|Hx].
  - rewrite pretty_N_go_0. apply Hstarts. intros ->. by specialize (Hempty eq_refl).
  - rewrite pretty_N_go_step by lia. apply IH.
    + apply N.div_lt; lia.
    + done.
    + intros _. apply pretty_N_char_not_N.
Qed.

Lemma pretty_Z_starts (z : Z) : startsLikeANumber (pretty z).
Proof.
  assert (Hpos : ∀ p : positive, startsLikeANumber (pretty p)).
  { intros p. unfold pretty, pretty_positive, pretty, pretty_N.
    destruct (decide _) as [|_]; [done|].
    apply pretty_N_go_starts; [lia|done]. }
  destruct z as [|p|p]; [done|apply Hpos|done].
Qed.

Lemma startsLikeANumber_app s t :
  startsLikeANumber s -> startsLikeANumber (s +:+ t).
Proof. by destruct s. Qed.

Lemma startsLikeANumber_not_NaN s t :
  startsLikeANumber s -> s ≠ String "N" t.
Proof. destruct s; [done|]. simpl. by intros ? [= ? ?]. Qed.

Section DurationProperties.

Variable Date_parse : string -> option Z.

(** X11. The duration reads [NaNm NaNs] exactly when one of the two
    timestamps is not a valid date; no valid pair of dates prints it. *)
Theorem duration_NaN_iff_invalid_date (startTime endTime : val) :
  calculateDuration Date_parse startTime endTime = "NaNm NaNs"
  <-> Date_getTime Date_parse startTime = None
      ∨ Date_getTime Date_parse endTime = None.
Proof.
  unfold calculateDuration.
  destruct (Date_getTime Date_parse startTime) as [start|];
    [|split; [by left|done]].
  destruct (Date_getTime Date_parse endTime) as [end_|];
    [|split; [by right|done]].
  split; [|by intros [|]].
  intros Heq. exfalso. revert Heq.
  apply startsLikeANumber_not_NaN.
  destruct (_ <? 1000)%Z; [|destruct (_ <? 60000)%Z].
  - apply startsLikeANumber_app, pretty_Z_starts.
  - unfold toFixed2, showHundredths.
    do 2 apply startsLikeANumber_app. apply pretty_Z_starts.
  - apply startsLikeANumber_app, pretty_Z_starts.
Qed.

(** X12. Below one second the duration is the difference of the two time
    values in whole milliseconds.  That holds for zero and for an end
    before the start too: the difference is printed with its sign. *)
Theorem duration_below_a_second (startTime endTime : val) (start end_ : Z) :
  Date_getTime Date_parse startTime = Some start ->
  Date_getTime Date_parse endTime = Some end_ ->
  (- 2 ^ 53 < end_ - start < 1000)%Z ->
  calculateDuration Date_parse startTime endTime
  = pretty (end_ - start)%Z +:+ "ms".
Proof.
  intros Hstart Hend Hrange. unfold calculateDuration. rewrite Hstart, Hend.
  rewrite subtract_exact by lia.
  destruct (Z.ltb_spec (end_ - start) 1000); [done|lia].
Qed.

(** X13. From one second up to a minute the duration is in seconds with
    two decimals, the hundredths nearest to the difference: off by half a
    hundredth at most. *)
Theorem duration_in_seconds (startTime endTime : val) (start end_ : Z) :
  Date_getTime Date_parse startTime = Some start ->
  Date_getTime Date_parse endTime = Some end_ ->
  (1000 <= end_ - start < 60000)%Z ->
  ∃ n, calculateDuration Date_parse startTime endTime
       = showHundredths n +:+ "s"
       ∧ (end_ - start - 5 <= 10 * n <= end_ - start + 5)%Z.
Proof.
  intros Hstart Hend Hrange. unfold calculateDuration. rewrite Hstart, Hend.
  rewrite subtract_exact by lia.
  destruct (Z.ltb_spec (end_ - start) 1000); [lia|].
  destruct (Z.ltb_spec (end_ - start) 60000); [|lia].
  exists (hundredths (divide (end_ - start) 1000)). split; [done|].
  apply hundredths_close. lia.
Qed.

(** X14. From a minute on the duration is the whole minutes, exactly, and
    the remaining milliseconds as seconds with two decimals; the seconds
    are rounded on their own and never carried into the minutes. *)
Theorem duration_in_minutes (startTime endTime : val) (start end_ : Z) :
  Date_getTime Date_parse startTime = Some start ->
  Date_getTime Date_parse endTime = Some end_ ->
  (60000 <= end_ - start < 2 ^ 53)%Z ->
  ∃ n, calculateDuration Date_parse startTime endTime
       = pretty ((end_ - start) / 60000)%Z +:+ "m " +:+ showHundredths n +:+ "s"
       ∧ ((end_ - start) mod 60000 - 5 <= 10 * n
          <= (end_ - start) mod 60000 + 5)%Z.
Proof.
  intros Hstart Hend Hrange. unfold calculateDuration. rewrite Hstart, Hend.
  rewrite subtract_exact by lia.
  destruct (Z.ltb_spec (end_ - start) 1000); [lia|].
  destruct (Z.ltb_spec (end_ - start) 60000); [lia|].
  rewrite floor_of_minutes by lia.
  exists (hundredths (divide ((end_ - start) mod 60000) 1000)). split; [done|].
  apply hundredths_close. apply Z.mod_pos_bound. lia.
Qed.

End DurationProperties.

Lemma duration_below_a_second_witness :
  calculateDuration Date_parse_utc
    (Str "2024-01-01T00:00:02Z") (Str "2024-01-01T00:00:01Z")
  = "-1000ms".
Proof.
  apply (duration_below_a_second Date_parse_utc
           (Str "2024-01-01T00:00:02Z") (Str "2024-01-01T00:00:01Z")
           1704067202000 1704067201000);
    [reflexivity|reflexivity|lia].
Defined.

Lemma duration_in_seconds_witness :
  calculateDuration Date_parse_utc (Num 0) (Num 1234) = "1.23s".
Proof.
  destruct (duration_in_seconds Date_parse_utc (Num 0) (Num 1234) 0 1234)
    as (n & -> & Hn); [reflexivity|reflexivity|lia|].
  assert (n = 123%Z) as -> by lia. reflexivity.
Defined.

Lemma duration_in_minutes_witness :
  calculateDuration Date_parse_utc (Num 0) (Num 119999) = "1m 60.00s".
Proof.
  destruct (duration_in_minutes Date_parse_utc (Num 0) (Num 119999) 0 119999)
    as (n & -> & Hn); [reflexivity|reflexivity|lia|].
  change ((119999 - 0) mod 60000)%Z with 59999%Z in Hn.
  assert (n = 6000%Z) as -> by lia. reflexivity.
Defined.

(** * Properties of the renderers *)

Lemma appendM_returns {A} (g : A -> outcome string) l :
  (∀ x, x ∈ l -> ∃ a, g x = Ok a) -> ∃ r, appendM g l = Ok r.
Proof.
  induction l as [|x l IH]; intros Hl; simpl; [by eexists|].
  destruct (Hl x) as [a ->]; [left|].
  destruct IH as [b ->]; [intros x' Hx'; apply Hl; by right|].
  simpl. by eexists.
Qed.

(** A list in which no element compares greater than a later one is left
    as it is. *)
Lemma Array_sort_in_order {A} (compareFn : A -> A -> option Z) l :
  StronglySorted (fun a b => (sortCompare compareFn a b <= 0)%Z) l ->
  Array_sort compareFn l = l.
Proof.
  induction 1 as [|x l Hsorted IH Hx]; simpl; [done|]. rewrite IH.
  destruct l as [|y l]; simpl; [done|].
  apply Forall_cons in Hx as [Hxy _].
  by destruct (Z.ltb_spec 0 (sortCompare compareFn x y)); [lia|].
Qed.

Section RendererProperties.

Variable Date_parse : string -> option Z.
Variable attributeEntries : TraceSpan -> list (string * val).

Lemma formatSpanHierarchy_returns st roots :
  linked st roots ->
  ∀ fuel i l depth,
    ancestors st roots i l ->
    length st < fuel + length (i :: l) ->
    ∃ text, formatSpanHierarchy Date_parse attributeEntries fuel st i depth = Ok text.
Proof.
  intros Hlinked. induction fuel as [|fuel IH]; intros i l depth Hanc Hfuel.
  - apply (ancestors_length st roots Hlinked) in Hanc. lia.
  - simpl. pose proof (ancestors_lt st roots Hlinked _ _ Hanc) as Hlt.
    apply Forall_cons in Hlt as [Hi _].
    apply lookup_lt_is_Some in Hi as [t Ht]. unfold deref. rewrite Ht.
    destruct (appendM_returns
                (fun c => formatSpanHierarchy Date_parse attributeEntries fuel st c (S depth))
                (sortedChildren Date_parse st t)) as [below ->].
    + intros c Hc. apply (IH c (i :: l)); [|simpl in *; lia].
      econstructor; [done|]. unfold child, childSpansOf, deref. rewrite Ht. simpl.
      unfold sortedChildren in Hc. by rewrite Array_sort_Permutation in Hc.
    + simpl. by eexists.
Qed.

Lemma spanTypes_returns st spans : ∀ counted,
  Forall (fun i => i < length st) spans ->
  ∃ types, spanTypes st spans counted = Ok types.
Proof.
  induction spans as [|i spans IH]; intros counted Hall; simpl; [by eexists|].
  apply Forall_cons in Hall as [Hi Hall].
  apply lookup_lt_is_Some in Hi as [t Ht]. unfold deref. rewrite Ht. by apply IH.
Qed.

Lemma failedSpans_spec (st : Store) : ∀ spans ts,
  Forall2 (fun i t => st !! i = Some t) spans ts ->
  failedSpans st spans
  = Ok (List.filter (fun t => TraceStatus_eqb (status t) ERROR) ts).
Proof.
  induction spans as [|i spans IH]; intros ts Hall.
  - apply Forall2_nil_inv_l in Hall as ->. done.
  - apply Forall2_cons_inv_l in Hall as (t & ts' & Ht & Hall & ->).
    simpl. unfold deref. rewrite Ht, (IH ts' Hall). simpl.
    by destruct (TraceStatus_eqb (status t) ERROR).
Qed.

Lemma store_positions (st : Store) :
  Forall2 (fun i t => st !! i = Some t) (seq 0 (length st)) st.
Proof.
  apply Forall2_same_length_lookup. split; [by rewrite length_seq|].
  intros k i t Hi Ht. apply lookup_seq in Hi as [-> _]. done.
Qed.

Lemma failedSpan_cases t :
  (∃ text, failedSpan Date_parse t = Return text) ∧ validDates Date_parse t
  ∨ failedSpan Date_parse t = Raise (RangeError "Invalid time value")
    ∧ ¬ validDates Date_parse t.
Proof.
  unfold failedSpan, validDates.
  destruct (Date_getTime Date_parse (startTime t)) as [s|]; simpl.
  - destruct (Date_getTime Date_parse (endTime t)) as [e|]; simpl.
    + left. split; [by eexists|]. split; by eexists.
    + right. split; [done|]. by intros [_ [? ?]].
  - right. split; [done|]. by intros [[? ?] _].
Qed.

Lemma failedSpanSection_cases failed :
  (∃ text, failedSpanSection Date_parse failed = Return text)
    ∧ Forall (validDates Date_parse) failed
  ∨ failedSpanSection Date_parse failed = Raise (RangeError "Invalid time value")
    ∧ Exists (fun t => ¬ validDates Date_parse t) failed.
Proof.
  induction failed as [|t failed IH]; simpl.
  - left. split; [by eexists|constructor].
  - destruct (failedSpan_cases t) as [([a ->] & Hvalid)|[-> Hinvalid]]; simpl.
    + destruct IH as [([b ->] & Hall)|[-> Hex]]; simpl.
      * left. split; [by eexists|by constructor].
      * right. split; [done|by apply Exists_cons_tl].
    + right. split; [done|by apply Exists_cons_hd].
Qed.



(** X17. The renderer sorts the children of a span once more before it
    shows them.  On what the builder returns that changes nothing when the
    start times of the children parse: they are shown in the order of the
    [childSpans] array. *)
Theorem display_order_is_stored_order fuel pid tid spans st td :
  buildTraceHierarchy Date_parse fuel pid tid spans = Ok (st, td) ->
  ∀ p t,
    st !! p = Some t ->
    allParsable Date_parse st (childSpans t) ->
    sortedChildren Date_parse st t = childSpans t.
Proof.
  intros (_ & _ & _ & Hchildren & _)%build_spec p t Ht Hall.
  assert (Hcs : childSpans t = childSpansOf st p)
    by (unfold childSpansOf, deref; by rewrite Ht).
  unfold sortedChildren. apply Array_sort_in_order.
  rewrite Hcs in Hall |- *. unfold allParsable in Hall.
  set (key := fun c => default 0%Z (Date_getTime Date_parse (startTimeOf st c))).
  assert (Hkey : ∀ c, c ∈ childSpansOf st p ->
            Date_getTime Date_parse (startTimeOf st c) = Some (key c)).
  { rewrite Forall_forall in Hall. intros c [time Htime]%Hall.
    unfold key. by rewrite Htime. }
  assert (Hsorted : StronglySorted (fun a b => (key a <= key b)%Z) (childSpansOf st p)).
  { rewrite Hchildren. apply Array_sort_sorted. intros a b Ha Hb.
    unfold compareStartTime.
    rewrite <- (Array_sort_Permutation (compareStartTime Date_parse st)),
      <- Hchildren in Ha, Hb.
    by rewrite (Hkey a Ha), (Hkey b Hb). }
  clear Hall Hcs. clearbody key. induction Hsorted as [|a l Hsorted IH Ha]; constructor.
  - apply IH. intros c Hc. apply Hkey. by right.
  - rewrite Forall_forall in Ha |- *. intros b Hb.
    unfold sortCompare, compareForDisplay.
    destruct (_ && _); [|done].
    unfold compareStartTime. rewrite (Hkey a), (Hkey b) by (by left || by right).
    simpl. specialize (Ha b Hb). lia.
Qed.

Lemma countKind_total kind counted :
  sum_list (countKind kind counted).*2 = S (sum_list counted.*2).
Proof.
  induction counted as [|[k n] counted IH]; csimpl; [done|].
  destruct (sameValueZero k kind); csimpl; rewrite ?IH; lia.
Qed.

Lemma spanTypes_total st spans : ∀ ts counted types,
  Forall2 (fun i t => st !! i = Some t) spans ts ->
  spanTypes st spans counted = Ok types ->
  sum_list types.*2 = sum_list counted.*2 + length (List.filter hasSpanType ts).
Proof.
  induction spans as [|i spans IH]; intros ts counted types Hall.
  - apply Forall2_nil_inv_l in Hall as ->. simpl. intros [= <-]. lia.
  - apply Forall2_cons_inv_l in Hall as (t & ts' & Ht & Hall & ->).
    simpl. unfold deref. rewrite Ht. intros Htypes.
    rewrite (IH ts' _ types Hall Htypes). unfold hasSpanType at 2.
    destruct (ToBoolean (kind t) && negb (strictEquals (kind t) (Str "UNSPECIFIED")));
      csimpl; [rewrite countKind_total|]; lia.
Qed.

Lemma countKind_keys kind counted :
  (countKind kind counted).*1 = counted.*1
  ∨ (countKind kind counted).*1 = counted.*1 ++ [kind]
    ∧ Forall (fun k => sameValueZero k kind = false) counted.*1.
Proof.
  induction counted as [|[k n] counted IH]; csimpl.
  - right. split; [done|constructor].
  - destruct (sameValueZero k kind) eqn:Hk; csimpl; [by left|].
    destruct IH as [->|[-> Hall]]; [by left|].
    right. split; [done|by constructor].
Qed.

Lemma countKind_distinct kind counted :
  StronglySorted (fun a b => sameValueZero a b = false) counted.*1 ->
  StronglySorted (fun a b => sameValueZero a b = false) (countKind kind counted).*1.
Proof.
  intros Hsorted. destruct (countKind_keys kind counted) as [->|[-> Hall]]; [done|].
  induction Hsorted as [|k l Hsorted IH Hk]; simpl.
  - repeat constructor.
  - apply Forall_cons in Hall as [Hkind Hall]. constructor; [by apply IH|].
    apply Forall_app. split; [done|by constructor].
Qed.

Lemma spanTypes_distinct st spans : ∀ counted types,
  StronglySorted (fun a b => sameValueZero a b = false) counted.*1 ->
  spanTypes st spans counted = Ok types ->
  StronglySorted (fun a b => sameValueZero a b = false) types.*1.
Proof.
  induction spans as [|i spans IH]; intros counted types Hsorted; simpl.
  - by intros [= <-].
  - destruct (deref st i) as [t|]; [|done]. apply IH.
    destruct (_ && _); [by apply countKind_distinct|done].
Qed.

(** X18. On what the builder returns, the summary of span types is
    computed without an exception.  Its counts add up to the number of
    spans that have a kind other than ['UNSPECIFIED'], so every such span
    is counted once, and no kind is listed twice: the kinds of two entries
    are never equal. *)
Theorem span_type_counts_add_up fuel pid tid spans st td :
  buildTraceHierarchy Date_parse fuel pid tid spans = Ok (st, td) ->
  ∃ types,
    spanTypes st (allSpans td) [] = Ok types
    ∧ sum_list types.*2 = length (List.filter hasSpanType st)
    ∧ StronglySorted (fun a b => sameValueZero a b = false) types.*1.
Proof.
  intros (Hlen & Hall & _)%build_spec. rewrite Hall, <- Hlen.
  destruct (spanTypes_returns st (seq 0 (length st)) []) as [types Htypes].
  { apply Forall_forall. intros i Hi%elem_of_seq. lia. }
  exists types. split; [done|]. split.
  - by rewrite (spanTypes_total st _ st [] types (store_positions st) Htypes).
  - apply (spanTypes_distinct st (seq 0 (length st)) [] types); [constructor|done].
Qed.

End RendererProperties.



Lemma display_order_is_stored_order_witness :
  ∃ st td t,
    buildTraceHierarchy Date_parse_utc 6 "project" "trace" exampleTrace = Ok (st, td)
    ∧ st !! 0 = Some t
    ∧ childSpans t = [2; 1]
    ∧ sortedChildren Date_parse_utc st t = childSpans t.
Proof.
  destruct (buildTraceHierarchy Date_parse_utc 6 "project" "trace" exampleTrace)
    as [[st td]| |] eqn:Hbuild; [|vm_compute in Hbuild; discriminate..].
  pose proof (display_order_is_stored_order Date_parse_utc 6 "project" "trace"
                exampleTrace st td Hbuild 0) as Horder.
  vm_compute in Hbuild. injection Hbuild as <- <-.
  eexists _, _, _. split; [reflexivity|]. split; [reflexivity|]. split; [reflexivity|].
  apply (Horder _ eq_refl). repeat constructor; by eexists.
Defined.

Lemma span_type_counts_add_up_witness :
  ∃ st td types,
    buildTraceHierarchy Date_parse_utc 3 "project" "trace" kindTrace = Ok (st, td)
    ∧ spanTypes st (allSpans td) [] = Ok types
    ∧ types = [(Str "SERVER", 2)]
    ∧ sum_list types.*2 = length (List.filter hasSpanType st).
Proof.
  destruct (buildTraceHierarchy Date_parse_utc 3 "project" "trace" kindTrace)
    as [[st td]| |] eqn:Hbuild; [|vm_compute in Hbuild; discriminate..].
  destruct (span_type_counts_add_up Date_parse_utc 3 "project" "trace" kindTrace
              st td Hbuild) as (types & Htypes & Hsum & _).
  exists st, td, types. split; [reflexivity|]. split; [exact Htypes|].
  split; [|exact Hsum].
  vm_compute in Hbuild. injection Hbuild as <- <-.
  vm_compute in Htypes. by injection Htypes as <-.
Defined.
